(** * iCloud photos backup: checkpointed download, index and deletion

    A shallow embedding of the resumable engine of the repository:
    - [Delete_by_criteria]: the offline candidate selector
      ([get_file_age_years], [matches_criteria]) and the batched deletion
      driver of [delete_by_criteria.py];
    - [Icloud_delete_fast]: the index-guided deletion driver of
      [icloud_delete_fast.py];
    - [Smart_download]: the download + index loop of [smart_download.py]
      with its retry helper;
    - [Build_icloud_index]: the enumeration loop of
      [archive/build_icloud_index.py].

    Python [int]s are [Z]; [set]s of filenames are [gset string]; [dict]s
    keyed by filename are [gmap string _] (or association lists where the
    iteration order is observed); exceptions are explicit results. *)

From Stdlib Require Import ZArith QArith Lia.
From stdpp Require Import gmap strings list.

Local Open Scope Z_scope.

(** ** Python exceptions and results *)

Module Py.

(** The two exception classes the scripts distinguish: [KeyboardInterrupt]
    derives from [BaseException] only, every other failure the scripts
    meet derives from [Exception]. *)
Inductive exn : Type :=
| KeyboardInterrupt
| Exception.

(** [except Exception] catches [e]. *)
Definition caught_by_except_Exception (e : exn) : bool :=
  match e with
  | Exception => true
  | KeyboardInterrupt => false
  end.

(** Outcome of an operation that may raise. *)
Inductive result (A : Type) : Type :=
| Ok (a : A)
| Raise (e : exn).
Arguments Ok {A} a.
Arguments Raise {A} e.

(** How a script's process ends. *)
Inductive exit_status : Type :=
| Returned                 (* main() returned *)
| Exit (code : Z)          (* sys.exit(code) *)
| Uncaught (e : exn).      (* exception left main(): traceback, no handler ran *)

(** [set(l)] and [list(s)] on filenames. *)
Definition set_of (l : list string) : gset string := list_to_set l.
Definition list_of (s : gset string) : list string := elements s.

(** [len(s)] *)
Definition len_set (s : gset string) : Z := Z.of_nat (size s).

End Py.
Export Py.

(** ** The deletion engine shared by icloud_delete_fast.py and
       delete_by_criteria.py

    The two scripts carry the same text for the progress store, the search
    pass and the batched deletion loop (delete_by_criteria.py only threads
    the candidate's reason through the batch for its log lines, and writes
    the search limit as the literal 15000).  That text is embedded once. *)

Module Deletion.

Definition BATCH_SIZE : Z := 10.
Definition DELAY_BETWEEN_BATCHES : Z := 2.
Definition MAX_SEARCH_PHOTOS : Z := 15000.

(** [progress['stats']] *)
Record stats_t : Type := {
  deleted : Z;
  failed : Z;
  skipped : Z
}.

(** The JSON document of [DELETE_PROGRESS]. *)
Record progress_t : Type := {
  deleted_files : list string;
  failed_files : list string;
  stats : stats_t
}.

(** [load_progress()]: the file's content, or the empty state when the
    file does not exist. *)
Definition load_progress (file : option progress_t) : progress_t :=
  match file with
  | Some p => p
  | None => {| deleted_files := []; failed_files := [];
               stats := {| deleted := 0; failed := 0; skipped := 0 |} |}
  end.

(** A remote photo handle: reading [photo.filename] and calling
    [photo.delete()] are remote operations that may raise. *)
Record photo : Type := {
  ph_filename : result string;
  ph_delete : result unit
}.

(** One advance of [for photo in photos_album]: the iterator yields a
    handle or raises; the end of the list is [StopIteration]. *)
Inductive iteration : Type :=
| Yield (p : photo)
| IterRaise (e : exn).

(** What a run does to the outside world, in order. *)
Inductive event : Type :=
| EvDelete (fname : string)        (* p.delete() called for fname *)
| EvSave (p : progress_t)          (* save_progress(p) *)
| EvSleep (seconds : Z).           (* time.sleep(seconds) *)

(** The variables of [main] that live across the [try] block, the
    progress file and the events so far. *)
Record state : Type := {
  st_deleted : Z;
  st_failed : Z;
  st_skipped : Z;
  deleted_set : gset string;
  failed_set : gset string;
  progress : progress_t;
  file : option progress_t;
  trace : list event
}.

Definition emit (e : event) (s : state) : state :=
  {| st_deleted := st_deleted s; st_failed := st_failed s;
     st_skipped := st_skipped s; deleted_set := deleted_set s;
     failed_set := failed_set s; progress := progress s;
     file := file s; trace := trace s ++ [e] |}.

(** [save_progress(progress)]: a full overwrite of the file. *)
Definition save_progress (s : state) : state :=
  {| st_deleted := st_deleted s; st_failed := st_failed s;
     st_skipped := st_skipped s; deleted_set := deleted_set s;
     failed_set := failed_set s; progress := progress s;
     file := Some (progress s);
     trace := trace s ++ [EvSave (progress s)] |}.

(** [deleted += 1; deleted_set.add(fname)] *)
Definition record_deleted (fname : string) (s : state) : state :=
  {| st_deleted := st_deleted s + 1; st_failed := st_failed s;
     st_skipped := st_skipped s; deleted_set := {[fname]} ∪ deleted_set s;
     failed_set := failed_set s; progress := progress s;
     file := file s; trace := trace s |}.

(** [failed += 1; failed_set.add(fname)] *)
Definition record_failed (fname : string) (s : state) : state :=
  {| st_deleted := st_deleted s; st_failed := st_failed s + 1;
     st_skipped := st_skipped s; deleted_set := deleted_set s;
     failed_set := {[fname]} ∪ failed_set s; progress := progress s;
     file := file s; trace := trace s |}.

(** [skipped += 1] *)
Definition record_skipped (s : state) : state :=
  {| st_deleted := st_deleted s; st_failed := st_failed s;
     st_skipped := st_skipped s + 1; deleted_set := deleted_set s;
     failed_set := failed_set s; progress := progress s;
     file := file s; trace := trace s |}.

(** The three assignments into the [progress] dict before a save. *)
Definition update_progress (s : state) : state :=
  {| st_deleted := st_deleted s; st_failed := st_failed s;
     st_skipped := st_skipped s; deleted_set := deleted_set s;
     failed_set := failed_set s;
     progress := {| deleted_files := list_of (deleted_set s);
                    failed_files := list_of (failed_set s);
                    stats := {| deleted := st_deleted s;
                                failed := st_failed s;
                                skipped := st_skipped s |} |};
     file := file s; trace := trace s |}.

(** The body of [for fname, p in batch]: [try: p.delete() ... except
    Exception: ...].  A [KeyboardInterrupt] is not caught here. *)
Definition delete_one (fname : string) (p : photo) (s : state)
  : state * option exn :=
  let s := emit (EvDelete fname) s in
  match ph_delete p with
  | Ok _ => (record_deleted fname s, None)
  | Raise e =>
      if caught_by_except_Exception e then (record_failed fname s, None)
      else (s, Some e)
  end.

(** [for fname, p in batch: ...] *)
Fixpoint flush (batch : list (string * photo)) (s : state)
  : state * option exn :=
  match batch with
  | [] => (s, None)
  | (fname, p) :: rest =>
      match delete_one fname p s with
      | (s', None) => flush rest s'
      | (s', Some e) => (s', Some e)
      end
  end.

(** The search pass: [for photo in photos_album] filling [photo_map].
    Returns the map, the count of items examined and the exception that
    ended the pass, if any. *)
Fixpoint search (album : list iteration) (remaining_filenames : gset string)
    (photo_map : gmap string photo) (count : Z)
  : gmap string photo * Z * option exn :=
  match album with
  | [] => (photo_map, count, None)
  | IterRaise e :: _ => (photo_map, count, Some e)
  | Yield ph :: rest =>
      let count := count + 1 in
      match ph_filename ph with
      | Raise e =>
          if caught_by_except_Exception e
          then (* continue: the safety limit below is not reached *)
            search rest remaining_filenames photo_map count
          else (photo_map, count, Some e)
      | Ok filename =>
          let photo_map :=
            if bool_decide (filename ∈ remaining_filenames)
               && bool_decide (filename ∉ dom photo_map)
            then <[filename := ph]> photo_map
            else photo_map in
          if Z.of_nat (size photo_map) =? len_set remaining_filenames
          then (photo_map, count, None)
          else if MAX_SEARCH_PHOTOS <=? count
          then (photo_map, count, None)
          else search rest remaining_filenames photo_map count
      end
  end.

(** The batched loop [for filename in remaining: ...], over the filenames
    in iteration order.  Returns the state, the batch left unflushed and
    the exception that interrupted it, if any. *)
Fixpoint delete_loop (photo_map : gmap string photo) (remaining : list string)
    (batch : list (string * photo)) (s : state)
  : state * list (string * photo) * option exn :=
  match remaining with
  | [] => (s, batch, None)
  | filename :: rest =>
      match photo_map !! filename with
      | None => delete_loop photo_map rest batch (record_skipped s)
      | Some ph =>
          let batch := batch ++ [(filename, ph)] in
          if BATCH_SIZE <=? Z.of_nat (length batch) then
            match flush batch s with
            | (s', Some e) => (s', batch, Some e)
            | (s', None) =>
                let s' := save_progress (update_progress s') in
                let s' := emit (EvSleep DELAY_BETWEEN_BATCHES) s' in
                delete_loop photo_map rest [] s'
            end
          else delete_loop photo_map rest batch s
      end
  end.

(** Outcome of the [try] block before its handlers. *)
Inductive try_outcome : Type :=
| Completed                (* fell off the end of the block *)
| EarlyReturn              (* a [return] inside the block *)
| Raised (e : exn).

(** The [try] block of [main] from the search pass to the final save.
    [remaining_filenames] is the set searched for, [remaining] the
    iteration order of the deletion loop. *)
Definition try_block (album : list iteration)
    (remaining_filenames : gset string) (remaining : list string)
    (s : state) : state * try_outcome :=
  match search album remaining_filenames ∅ 0 with
  | (_, _, Some e) => (s, Raised e)
  | (photo_map, _, None) =>
      if Z.of_nat (size photo_map) =? 0 then (s, EarlyReturn)
      else
        match delete_loop photo_map remaining [] s with
        | (s, _, Some e) => (s, Raised e)
        | (s, batch, None) =>
            (* if batch: process the remaining photos *)
            match flush batch s with
            | (s, Some e) => (s, Raised e)
            | (s, None) => (save_progress (update_progress s), Completed)
            end
        end
  end.

(** The handlers of the [try] block: both save the [progress] dict as it
    stands and exit. *)
Definition handlers (r : state * try_outcome) : state * exit_status :=
  match r with
  | (s, Completed) => (s, Returned)
  | (s, EarlyReturn) => (s, Returned)
  | (s, Raised KeyboardInterrupt) => (save_progress s, Exit 0)
  | (s, Raised Exception) => (save_progress s, Exit 1)
  end.

(** The state at the [try]: progress loaded, counters read from its
    stats, nothing done yet. *)
Definition initial_state (file : option progress_t) : state :=
  let progress := load_progress file in
  {| st_deleted := deleted (stats progress);
     st_failed := failed (stats progress);
     st_skipped := skipped (stats progress);
     deleted_set := set_of (deleted_files progress);
     failed_set := set_of (failed_files progress);
     progress := progress;
     file := file;
     trace := [] |}.

(** What one invocation leaves behind. *)
Record run : Type := {
  r_file : option progress_t;
  r_trace : list event;
  r_exit : exit_status
}.

Definition no_effect (file : option progress_t) (x : exit_status) : run :=
  {| r_file := file; r_trace := []; r_exit := x |}.

Definition finish (r : state * exit_status) : run :=
  {| r_file := file (fst r); r_trace := trace (fst r); r_exit := snd r |}.

(** The filenames on which [delete()] was called, in order. *)
Fixpoint attempted (tr : list event) : list string :=
  match tr with
  | [] => []
  | EvDelete f :: rest => f :: attempted rest
  | _ :: rest => attempted rest
  end.

(** The progress documents written, in order. *)
Fixpoint saves (tr : list event) : list progress_t :=
  match tr with
  | [] => []
  | EvSave p :: rest => p :: saves rest
  | _ :: rest => saves rest
  end.

End Deletion.

(** ** icloud_delete_fast.py *)

Module Icloud_delete_fast.
Import Deletion.

(** The inputs of one invocation: the index file, the filenames found
    under the trash folder by [get_trash_filenames()], the answer to the
    confirmation prompt, whether [authenticate()] returned, and what the
    remote album yields. *)
Record env : Type := {
  index_filenames : option (list string);   (* None: no index file *)
  trash_filenames : gset string;
  confirmed : bool;          (* response.lower() in ['yes', 'y'] *)
  authenticated : bool;      (* authenticate() returned (else sys.exit(1)) *)
  photos_album : list iteration
}.

(** [files_in_index - deleted_set - failed_set] *)
Definition remaining_filenames (e : env) (file : option progress_t)
  : gset string :=
  let progress := load_progress file in
  (trash_filenames e ∩ set_of (default [] (index_filenames e)))
    ∖ set_of (deleted_files progress) ∖ set_of (failed_files progress).

Definition main (e : env) (file : option progress_t) : run :=
  match index_filenames e with
  | None => no_effect file (Exit 1)
  | Some _ =>
      if bool_decide (size (trash_filenames e) = 0%nat)
      then no_effect file Returned
      else
        let remaining := remaining_filenames e file in
        if bool_decide (size remaining = 0%nat) then no_effect file Returned
        else if negb (confirmed e) then no_effect file Returned
        else if negb (authenticated e) then no_effect file (Exit 1)
        else
          finish (handlers (try_block (photos_album e) remaining
                              (list_of remaining) (initial_state file)))
  end.

End Icloud_delete_fast.

(** ** delete_by_criteria.py: candidate selector *)

Module Delete_by_criteria.
Import Deletion.

(** One entry of [index['metadata']], restricted to the keys the selector
    reads with [.get]: a missing key and a JSON [null] both read as
    [None]. *)
Record metadata : Type := {
  m_item_type : option string;   (* 'item_type' *)
  m_created : option string;     (* 'created' *)
  m_size : option Z              (* 'size' *)
}.

(** A rule of the configuration, by its ['type']. Thresholds are numbers
    of the configuration (integers in [DEFAULT_CRITERIA]). *)
Inductive rule : Type :=
| age_and_size (min_age_years min_size_mb : Q)
| age_and_duration (min_age_years max_duration_sec : Q)
| other_type (type : string).

Record kind_criteria : Type := {
  enabled : bool;
  rules : list rule
}.

(** [criteria.get('videos', {})]: an absent kind is [None]. *)
Record criteria : Type := {
  photos : option kind_criteria;
  videos : option kind_criteria
}.

Definition DEFAULT_CRITERIA : criteria := {|
  photos := Some {| enabled := true; rules := [] |};
  videos := Some {| enabled := true;
                    rules := [ age_and_size 2 100;
                               age_and_duration 1 5 ] |}
|}.

(** The reason text built on a match,
    [f"Old large video: {age_years:.1f}yr, {size_mb:.1f}MB"],
    kept as its two numbers (the rendering to one decimal is not
    modelled). *)
Inductive reason : Type :=
| Old_large_video (age_years size_mb : Q).

Section Clock.

(** The wall clock and the date parser are the environment:
    [age_days_of s] is
    [(datetime.now() - datetime.fromisoformat(s.replace('Z', '+00:00')).replace(tzinfo=None)).days],
    and [None] when that expression raises. *)
Variable age_days_of : string -> option Z.

(** [age_days / 365.25], as an exact rational.  The source divides
    floats; for a whole number of days and the whole-number thresholds of
    the configuration the comparison below has the same outcome. *)
Definition get_file_age_years (date_str : option string) : option Q :=
  match date_str with
  | None => None
  | Some s =>
      if decide (s = ""%string) then None
      else match age_days_of s with
           | Some age_days => Some (inject_Z age_days / (36525 # 100))%Q
           | None => None
           end
  end.

(** [(metadata.get('size') or 0) / (1024 * 1024)] *)
Definition size_mb_of (m : metadata) : Q :=
  (inject_Z (default 0%Z (m_size m)) / inject_Z (1024 * 1024))%Q.

(** Python truth value of [age_years]: [None] and [0.0] are false. *)
Definition truthy (age_years : option Q) : bool :=
  match age_years with
  | Some a => negb (Qeq_bool a 0)
  | None => false
  end.

(** [x >= y] with [x] possibly absent (only evaluated when truthy). *)
Definition age_ge (age_years : option Q) (bound : Q) : bool :=
  match age_years with
  | Some a => Qle_bool bound a
  | None => false
  end.

(** The [for rule in criteria['videos']['rules']] loop. *)
Fixpoint video_rules (m : metadata) (rs : list rule) : bool * option reason :=
  match rs with
  | [] => (false, None)
  | age_and_size min_age_years min_size_mb :: rest =>
      let age_years := get_file_age_years (m_created m) in
      let size_mb := size_mb_of m in
      if truthy age_years && age_ge age_years min_age_years
         && Qle_bool min_size_mb size_mb
      then (true, Some (Old_large_video (default 0%Q age_years) size_mb))
      else video_rules m rest
  | age_and_duration _ _ :: rest =>
      (* duration is not in the index: the rule is skipped *)
      video_rules m rest
  | other_type _ :: rest => video_rules m rest
  end.

Definition is_movie (m : metadata) : bool :=
  bool_decide (m_item_type m = Some "movie"%string).

Definition kind_enabled (k : option kind_criteria) : bool :=
  match k with
  | Some c => enabled c
  | None => false
  end.

Definition kind_rules (k : option kind_criteria) : list rule :=
  match k with
  | Some c => rules c
  | None => []
  end.

Definition matches_criteria (m : metadata) (c : criteria) : bool * option reason :=
  if is_movie m && kind_enabled (videos c) then
    video_rules m (kind_rules (videos c))
  else
    (* the photo branch runs an empty loop body *)
    (false, None).

(** The candidate loop of [main]:
    [for filename, meta in metadata.items(): ...]. *)
Fixpoint select_candidates (items : list (string * metadata)) (c : criteria)
  : list (string * metadata * option reason) :=
  match items with
  | [] => []
  | (filename, meta) :: rest =>
      let '(matches, reason) := matches_criteria meta c in
      if matches then (filename, meta, reason) :: select_candidates rest c
      else select_candidates rest c
  end.

(** The inputs of one invocation of [main]: the ['metadata'] object of the
    index file in file order, the answer to the confirmation prompt,
    whether [authenticate()] returned, and what the remote album yields. *)
Record env : Type := {
  index_metadata : option (list (string * metadata));  (* None: no index *)
  confirmed : bool;          (* response.lower() in ['yes', 'y'] *)
  authenticated : bool;      (* authenticate() returned (else sys.exit(1)) *)
  photos_album : list iteration
}.

Definition candidate_filename (c : string * metadata * option reason) : string :=
  fst (fst c).

(** [[(f, m, r) for f, m, r in candidates
      if f not in deleted_set and f not in failed_set]] *)
Definition remaining_candidates (candidates : list (string * metadata * option reason))
    (file : option progress_t) : list (string * metadata * option reason) :=
  let progress := load_progress file in
  filter (λ c, (candidate_filename c ∉ set_of (deleted_files progress))
               ∧ (candidate_filename c ∉ set_of (failed_files progress)))
         candidates.

Definition main (e : env) (file : option progress_t) : run :=
  match index_metadata e with
  | None => no_effect file (Exit 1)
  | Some metadata =>
      let candidates := select_candidates metadata DEFAULT_CRITERIA in
      if bool_decide (length candidates = 0%nat) then no_effect file Returned
      else if negb (confirmed e) then no_effect file Returned
      else
        let remaining := remaining_candidates candidates file in
        if bool_decide (length remaining = 0%nat) then no_effect file Returned
        else if negb (authenticated e) then no_effect file (Exit 1)
        else
          let remaining_filenames := set_of (map candidate_filename remaining) in
          finish (handlers (try_block (photos_album e) remaining_filenames
                              (map candidate_filename remaining)
                              (initial_state file)))
  end.

End Clock.

End Delete_by_criteria.

(** ** smart_download.py *)

Module Smart_download.

Definition RETRY_ATTEMPTS : Z := 3.
Definition RETRY_DELAY : Z := 5.
Definition SAVE_PROGRESS_EVERY : Z := 50.
Definition MAX_CONSECUTIVE_DUPLICATES : Z := 500.
Definition MAX_CONSECUTIVE_OLD : Z := 100.

(** [progress['stats']] *)
Record stats_t : Type := {
  downloaded : Z;
  skipped : Z;
  failed : Z
}.

(** One entry appended to [progress['failed_files']]. *)
Record failed_entry : Type := {
  fe_filename : string;
  fe_index : Z;
  fe_timestamp : string
}.

(** The JSON document of [PROGRESS_FILE]. *)
Record progress_t : Type := {
  downloaded_files : list string;
  failed_files : list failed_entry;
  last_index : Z;
  stats : stats_t
}.

(** A [datetime] as the script observes it: its place on the time line
    (compared with the cutoff), [isoformat()], [strftime("%Y")] and
    [strftime("%m")]. *)
Record datetime : Type := {
  instant : Z;
  isoformat : string;
  year : string;
  month : string
}.

(** One value of [photo_metadata]. *)
Record photo_meta : Type := {
  pm_filename : string;
  pm_size : option Z;
  pm_created : option string;
  pm_asset_date : option string;
  pm_added_date : option string;
  pm_dimensions : option (Z * Z);
  pm_item_type : option string;
  pm_id : option string;
  pm_location : option string
}.

(** [index_data['statistics']]; the total size is kept in bytes (the
    script stores it in GB rounded to two decimals). *)
Record statistics_t : Type := {
  total_items : Z;
  photos : Z;
  videos : Z;
  total_size : Z
}.

(** The JSON document of [INDEX_FILE]. *)
Record index_t : Type := {
  created_at : string;
  photo_count : Z;
  statistics : statistics_t;
  filenames : list string;
  metadata : gmap string photo_meta
}.

(** A remote photo handle.  [ph_download k] is the outcome of the call
    of [photo.download()] (and of writing the file) made on attempt [k]
    of the retry loop. *)
Record photo : Type := {
  ph_filename : result string;
  ph_size : option Z;
  ph_created : option datetime;
  ph_asset_date : option datetime;
  ph_added_date : option datetime;
  ph_dimensions : option (Z * Z);
  ph_item_type : option string;
  ph_id : option string;
  ph_location : option string;
  ph_download : Z -> result unit
}.

(** One advance of [for photo in photos_album]. *)
Inductive iteration : Type :=
| Yield (p : photo)
| IterRaise (e : exn).

(** What a run does to the outside world, in order.  [EvNew] marks the
    [else] branch of the cycle test (a filename seen for the first time);
    it has no log line in the script. *)
Inductive event : Type :=
| EvNew (filename : string)
| EvAttempt (output_path : string)      (* photo.download() called *)
| EvSleep (seconds : Z)                 (* time.sleep(seconds) *)
| EvSaveProgress (p : progress_t)       (* save_progress(p) *)
| EvSaveIndex (i : index_t).            (* save_index(i) *)

(** [load_progress()] *)
Definition load_progress (file : option progress_t) : progress_t :=
  match file with
  | Some p => p
  | None => {| downloaded_files := []; failed_files := []; last_index := 0;
               stats := {| downloaded := 0; skipped := 0; failed := 0 |} |}
  end.

(** [load_index()]; [now] is [datetime.now().isoformat()]. *)
Definition load_index (now : string) (file : option index_t) : index_t :=
  match file with
  | Some i => i
  | None => {| created_at := now; photo_count := 0;
               statistics := {| total_items := 0; photos := 0; videos := 0;
                                total_size := 0 |};
               filenames := []; metadata := ∅ |}
  end.

(** The local variables of [main], the two dicts [progress] and
    [index_data], the two files, the valid (existing, non-empty) files
    under the backup directory, and the events so far. *)
Record state : Type := {
  photo_num : Z;
  counts : stats_t;
  downloaded_set : gset string;
  progress : progress_t;
  photo_metadata : gmap string photo_meta;
  indexed_filenames : gset string;
  seen_filenames : gset string;
  consecutive_duplicates : Z;
  skipped_by_date : Z;
  consecutive_old_photos : Z;
  index_data : index_t;
  progress_file : option progress_t;
  index_file : option index_t;
  files : gset string;
  trace : list event
}.

Definition set_photo_num (v : Z) (s : state) : state :=
  {| photo_num := v; counts := counts s;
     downloaded_set := downloaded_set s; progress := progress s;
     photo_metadata := photo_metadata s;
     indexed_filenames := indexed_filenames s;
     seen_filenames := seen_filenames s;
     consecutive_duplicates := consecutive_duplicates s;
     skipped_by_date := skipped_by_date s;
     consecutive_old_photos := consecutive_old_photos s;
     index_data := index_data s; progress_file := progress_file s;
     index_file := index_file s; files := files s; trace := trace s |}.

Definition set_counts (v : stats_t) (s : state) : state :=
  {| photo_num := photo_num s; counts := v;
     downloaded_set := downloaded_set s; progress := progress s;
     photo_metadata := photo_metadata s;
     indexed_filenames := indexed_filenames s;
     seen_filenames := seen_filenames s;
     consecutive_duplicates := consecutive_duplicates s;
     skipped_by_date := skipped_by_date s;
     consecutive_old_photos := consecutive_old_photos s;
     index_data := index_data s; progress_file := progress_file s;
     index_file := index_file s; files := files s; trace := trace s |}.

Definition set_downloaded_set (v : gset string) (s : state) : state :=
  {| photo_num := photo_num s; counts := counts s; downloaded_set := v;
     progress := progress s; photo_metadata := photo_metadata s;
     indexed_filenames := indexed_filenames s;
     seen_filenames := seen_filenames s;
     consecutive_duplicates := consecutive_duplicates s;
     skipped_by_date := skipped_by_date s;
     consecutive_old_photos := consecutive_old_photos s;
     index_data := index_data s; progress_file := progress_file s;
     index_file := index_file s; files := files s; trace := trace s |}.

Definition set_progress (v : progress_t) (s : state) : state :=
  {| photo_num := photo_num s; counts := counts s;
     downloaded_set := downloaded_set s; progress := v;
     photo_metadata := photo_metadata s;
     indexed_filenames := indexed_filenames s;
     seen_filenames := seen_filenames s;
     consecutive_duplicates := consecutive_duplicates s;
     skipped_by_date := skipped_by_date s;
     consecutive_old_photos := consecutive_old_photos s;
     index_data := index_data s; progress_file := progress_file s;
     index_file := index_file s; files := files s; trace := trace s |}.

Definition set_photo_metadata (v : gmap string photo_meta) (s : state) : state :=
  {| photo_num := photo_num s; counts := counts s;
     downloaded_set := downloaded_set s; progress := progress s;
     photo_metadata := v; indexed_filenames := indexed_filenames s;
     seen_filenames := seen_filenames s;
     consecutive_duplicates := consecutive_duplicates s;
     skipped_by_date := skipped_by_date s;
     consecutive_old_photos := consecutive_old_photos s;
     index_data := index_data s; progress_file := progress_file s;
     index_file := index_file s; files := files s; trace := trace s |}.

Definition set_indexed_filenames (v : gset string) (s : state) : state :=
  {| photo_num := photo_num s; counts := counts s;
     downloaded_set := downloaded_set s; progress := progress s;
     photo_metadata := photo_metadata s; indexed_filenames := v;
     seen_filenames := seen_filenames s;
     consecutive_duplicates := consecutive_duplicates s;
     skipped_by_date := skipped_by_date s;
     consecutive_old_photos := consecutive_old_photos s;
     index_data := index_data s; progress_file := progress_file s;
     index_file := index_file s; files := files s; trace := trace s |}.

Definition set_seen_filenames (v : gset string) (s : state) : state :=
  {| photo_num := photo_num s; counts := counts s;
     downloaded_set := downloaded_set s; progress := progress s;
     photo_metadata := photo_metadata s;
     indexed_filenames := indexed_filenames s; seen_filenames := v;
     consecutive_duplicates := consecutive_duplicates s;
     skipped_by_date := skipped_by_date s;
     consecutive_old_photos := consecutive_old_photos s;
     index_data := index_data s; progress_file := progress_file s;
     index_file := index_file s; files := files s; trace := trace s |}.

Definition set_consecutive_duplicates (v : Z) (s : state) : state :=
  {| photo_num := photo_num s; counts := counts s;
     downloaded_set := downloaded_set s; progress := progress s;
     photo_metadata := photo_metadata s;
     indexed_filenames := indexed_filenames s;
     seen_filenames := seen_filenames s; consecutive_duplicates := v;
     skipped_by_date := skipped_by_date s;
     consecutive_old_photos := consecutive_old_photos s;
     index_data := index_data s; progress_file := progress_file s;
     index_file := index_file s; files := files s; trace := trace s |}.

Definition set_skipped_by_date (v : Z) (s : state) : state :=
  {| photo_num := photo_num s; counts := counts s;
     downloaded_set := downloaded_set s; progress := progress s;
     photo_metadata := photo_metadata s;
     indexed_filenames := indexed_filenames s;
     seen_filenames := seen_filenames s;
     consecutive_duplicates := consecutive_duplicates s;
     skipped_by_date := v;
     consecutive_old_photos := consecutive_old_photos s;
     index_data := index_data s; progress_file := progress_file s;
     index_file := index_file s; files := files s; trace := trace s |}.

Definition set_consecutive_old_photos (v : Z) (s : state) : state :=
  {| photo_num := photo_num s; counts := counts s;
     downloaded_set := downloaded_set s; progress := progress s;
     photo_metadata := photo_metadata s;
     indexed_filenames := indexed_filenames s;
     seen_filenames := seen_filenames s;
     consecutive_duplicates := consecutive_duplicates s;
     skipped_by_date := skipped_by_date s; consecutive_old_photos := v;
     index_data := index_data s; progress_file := progress_file s;
     index_file := index_file s; files := files s; trace := trace s |}.

Definition set_index_data (v : index_t) (s : state) : state :=
  {| photo_num := photo_num s; counts := counts s;
     downloaded_set := downloaded_set s; progress := progress s;
     photo_metadata := photo_metadata s;
     indexed_filenames := indexed_filenames s;
     seen_filenames := seen_filenames s;
     consecutive_duplicates := consecutive_duplicates s;
     skipped_by_date := skipped_by_date s;
     consecutive_old_photos := consecutive_old_photos s; index_data := v;
     progress_file := progress_file s; index_file := index_file s;
     files := files s; trace := trace s |}.

Definition set_progress_file (v : option progress_t) (s : state) : state :=
  {| photo_num := photo_num s; counts := counts s;
     downloaded_set := downloaded_set s; progress := progress s;
     photo_metadata := photo_metadata s;
     indexed_filenames := indexed_filenames s;
     seen_filenames := seen_filenames s;
     consecutive_duplicates := consecutive_duplicates s;
     skipped_by_date := skipped_by_date s;
     consecutive_old_photos := consecutive_old_photos s;
     index_data := index_data s; progress_file := v;
     index_file := index_file s; files := files s; trace := trace s |}.

Definition set_index_file (v : option index_t) (s : state) : state :=
  {| photo_num := photo_num s; counts := counts s;
     downloaded_set := downloaded_set s; progress := progress s;
     photo_metadata := photo_metadata s;
     indexed_filenames := indexed_filenames s;
     seen_filenames := seen_filenames s;
     consecutive_duplicates := consecutive_duplicates s;
     skipped_by_date := skipped_by_date s;
     consecutive_old_photos := consecutive_old_photos s;
     index_data := index_data s; progress_file := progress_file s;
     index_file := v; files := files s; trace := trace s |}.

Definition set_files (v : gset string) (s : state) : state :=
  {| photo_num := photo_num s; counts := counts s;
     downloaded_set := downloaded_set s; progress := progress s;
     photo_metadata := photo_metadata s;
     indexed_filenames := indexed_filenames s;
     seen_filenames := seen_filenames s;
     consecutive_duplicates := consecutive_duplicates s;
     skipped_by_date := skipped_by_date s;
     consecutive_old_photos := consecutive_old_photos s;
     index_data := index_data s; progress_file := progress_file s;
     index_file := index_file s; files := v; trace := trace s |}.

Definition set_trace (v : list event) (s : state) : state :=
  {| photo_num := photo_num s; counts := counts s;
     downloaded_set := downloaded_set s; progress := progress s;
     photo_metadata := photo_metadata s;
     indexed_filenames := indexed_filenames s;
     seen_filenames := seen_filenames s;
     consecutive_duplicates := consecutive_duplicates s;
     skipped_by_date := skipped_by_date s;
     consecutive_old_photos := consecutive_old_photos s;
     index_data := index_data s; progress_file := progress_file s;
     index_file := index_file s; files := files s; trace := v |}.

Definition emit (e : event) (s : state) : state :=
  set_trace (trace s ++ [e]) s.

Definition incr_downloaded (c : stats_t) : stats_t :=
  {| downloaded := downloaded c + 1; skipped := skipped c; failed := failed c |}.
Definition incr_skipped (c : stats_t) : stats_t :=
  {| downloaded := downloaded c; skipped := skipped c + 1; failed := failed c |}.
Definition incr_failed (c : stats_t) : stats_t :=
  {| downloaded := downloaded c; skipped := skipped c; failed := failed c + 1 |}.

(** [progress['failed_files'].append(entry)]: the dict is changed in
    place, before any save. *)
Definition append_failed (entry : failed_entry) (p : progress_t) : progress_t :=
  {| downloaded_files := downloaded_files p;
     failed_files := failed_files p ++ [entry];
     last_index := last_index p; stats := stats p |}.

(** The three assignments into [progress] before a save, then
    [save_progress(progress)]. *)
Definition checkpoint_progress (s : state) : state :=
  let p := {| downloaded_files := list_of (downloaded_set s);
              failed_files := failed_files (progress s);
              last_index := photo_num s;
              stats := counts s |} in
  emit (EvSaveProgress p) (set_progress_file (Some p) (set_progress p s)).

(** [save_progress(progress)] with the dict as it stands. *)
Definition save_progress (s : state) : state :=
  emit (EvSaveProgress (progress s)) (set_progress_file (Some (progress s)) s).

(** The three assignments into [index_data], then [save_index]. *)
Definition checkpoint_index (s : state) : state :=
  let i := {| created_at := created_at (index_data s);
              photo_count := len_set (indexed_filenames s);
              statistics := statistics (index_data s);
              filenames := list_of (indexed_filenames s);
              metadata := photo_metadata s |} in
  emit (EvSaveIndex i) (set_index_file (Some i) (set_index_data i s)).

Definition is_movie (m : photo_meta) : bool :=
  bool_decide (pm_item_type m = Some "movie"%string).

(** The final statistics and the last [save_index]. *)
Definition final_index (s : state) : state :=
  let metas := map snd (map_to_list (photo_metadata s)) in
  let i := {| created_at := created_at (index_data s);
              photo_count := len_set (indexed_filenames s);
              statistics :=
                {| total_items := len_set (indexed_filenames s);
                   photos := Z.of_nat (length (filter (λ m, is_movie m = false) metas));
                   videos := Z.of_nat (length (filter (λ m, is_movie m = true) metas));
                   total_size := foldr Z.add 0 (map (λ m, default 0 (pm_size m)) metas) |};
              filenames := list_of (indexed_filenames s);
              metadata := photo_metadata s |} in
  emit (EvSaveIndex i) (set_index_file (Some i) (set_index_data i s)).

(** [folder / filename] below the backup directory. *)
Definition output_path (created : datetime) (filename : string) : string :=
  (year created ++ "/" ++ month created ++ "/" ++ filename)%string.

(** [file_exists_and_valid(filepath)] *)
Definition file_exists_and_valid (filepath : string) (s : state) : bool :=
  bool_decide (filepath ∈ files s).

(** [range(n)] *)
Definition range (n : Z) : list Z := map Z.of_nat (seq 0 (Z.to_nat n)).

(** The loop of [download_photo_with_retry] over the attempts left. *)
Fixpoint retry_loop (ph : photo) (path : string) (max_retries : Z)
    (attempts : list Z) (s : state) : state * result bool :=
  match attempts with
  | [] => (s, Ok false)
  | attempt :: rest =>
      let s := emit (EvAttempt path) s in
      match ph_download ph attempt with
      | Ok _ => (set_files ({[path]} ∪ files s) s, Ok true)
      | Raise e =>
          if caught_by_except_Exception e then
            if attempt <? max_retries - 1
            then retry_loop ph path max_retries rest (emit (EvSleep RETRY_DELAY) s)
            else (s, Ok false)
          else (s, Raise e)
      end
  end.

Definition download_photo_with_retry (ph : photo) (path : string)
    (max_retries : Z) (s : state) : state * result bool :=
  retry_loop ph path max_retries (range max_retries) s.

(** How the [try] body of one iteration ends. *)
Inductive body_end : Type :=
| Next                     (* [continue], or the end of the body *)
| Break
| Raised (e : exn).

(** [added_date], else [asset_date], else [created]. *)
Definition photo_date (ph : photo) : option datetime :=
  match ph_added_date ph with
  | Some d => Some d
  | None => match ph_asset_date ph with
            | Some d => Some d
            | None => ph_created ph
            end
  end.

Definition meta_of (filename : string) (ph : photo) : photo_meta :=
  {| pm_filename := filename;
     pm_size := ph_size ph;
     pm_created := isoformat <$> ph_created ph;
     pm_asset_date := isoformat <$> ph_asset_date ph;
     pm_added_date := isoformat <$> ph_added_date ph;
     pm_dimensions := ph_dimensions ph;
     pm_item_type := ph_item_type ph;
     pm_id := ph_id ph;
     pm_location := ph_location ph |}.

(** From [created = photo.created] to the periodic save: the part of the
    body run for a filename that is new and not in [downloaded_set]. *)
Definition fetch (now : string) (filename : string) (ph : photo) (s : state)
  : state * body_end :=
  match ph_created ph with
  | None => (s, Raised Exception)       (* None has no strftime *)
  | Some created =>
      let path := output_path created filename in
      if file_exists_and_valid path s then
        (set_downloaded_set ({[filename]} ∪ downloaded_set s)
           (set_counts (incr_skipped (counts s)) s), Next)
      else
        match download_photo_with_retry ph path RETRY_ATTEMPTS s with
        | (s, Raise e) => (s, Raised e)
        | (s, Ok success) =>
            let s :=
              if success then
                set_downloaded_set ({[filename]} ∪ downloaded_set s)
                  (set_counts (incr_downloaded (counts s)) s)
              else
                set_progress
                  (append_failed {| fe_filename := filename;
                                    fe_index := photo_num s;
                                    fe_timestamp := now |} (progress s))
                  (set_counts (incr_failed (counts s)) s) in
            let s :=
              if photo_num s mod SAVE_PROGRESS_EVERY =? 0
              then checkpoint_index (checkpoint_progress s)
              else s in
            (s, Next)
        end
  end.

(** The cycle test and what follows it. *)
Definition detect_cycling (now : string) (filename : string) (ph : photo)
    (s : state) : state * body_end :=
  if bool_decide (filename ∈ seen_filenames s) then
    let s := set_consecutive_duplicates (consecutive_duplicates s + 1) s in
    if MAX_CONSECUTIVE_DUPLICATES <? consecutive_duplicates s
    then (s, Break)
    else (s, Next)
  else
    let s := set_seen_filenames ({[filename]} ∪ seen_filenames s) s in
    let s := set_indexed_filenames ({[filename]} ∪ indexed_filenames s) s in
    let s := set_consecutive_duplicates 0 s in
    let s := emit (EvNew filename) s in
    let s := set_photo_metadata
               (<[filename := meta_of filename ph]> (photo_metadata s)) s in
    if bool_decide (filename ∈ downloaded_set s)
    then (set_counts (incr_skipped (counts s)) s, Next)
    else fetch now filename ph s.

(** The body of the [try] of one iteration.  [cutoff] is the instant of
    [cutoff_date] when [--recent] is given. *)
Definition try_body (cutoff : option Z) (now : string) (ph : photo)
    (s : state) : state * body_end :=
  match ph_filename ph with
  | Raise e => (s, Raised e)
  | Ok filename =>
      match cutoff with
      | None => detect_cycling now filename ph s
      | Some cutoff_date =>
          match photo_date ph with
          | Some d =>
              if instant d <? cutoff_date then
                let s := set_skipped_by_date (skipped_by_date s + 1) s in
                let s := set_consecutive_old_photos
                           (consecutive_old_photos s + 1) s in
                if MAX_CONSECUTIVE_OLD <=? consecutive_old_photos s
                then (s, Break)
                else (s, Next)
              else
                detect_cycling now filename ph
                  (set_consecutive_old_photos 0 s)
          | None =>
              detect_cycling now filename ph (set_consecutive_old_photos 0 s)
          end
      end
  end.

(** How [for photo in photos_album] ends. *)
Inductive loop_end : Type :=
| Exhausted                (* StopIteration *)
| Broke                    (* break *)
| SysExit (code : Z)       (* sys.exit in the KeyboardInterrupt handler *)
| IterRaised (e : exn).    (* the iterator raised while advancing *)

(** The [for] loop with the two handlers of its inner [try]. *)
Fixpoint loop (cutoff : option Z) (now : string) (start_idx : Z)
    (album : list iteration) (s : state) : state * loop_end :=
  match album with
  | [] => (s, Exhausted)
  | IterRaise e :: _ => (s, IterRaised e)
  | Yield ph :: rest =>
      let s := set_photo_num (photo_num s + 1) s in
      if photo_num s <=? start_idx then loop cutoff now start_idx rest s
      else
        match try_body cutoff now ph s with
        | (s, Next) => loop cutoff now start_idx rest s
        | (s, Break) => (s, Broke)
        | (s, Raised KeyboardInterrupt) =>
            (checkpoint_index (checkpoint_progress s), SysExit 0)
        | (s, Raised Exception) =>
            loop cutoff now start_idx rest
              (set_counts (incr_failed (counts s)) s)
        end
  end.

(** The inputs of one invocation besides the files. *)
Record env : Type := {
  recent : option Z;         (* the instant of cutoff_date, with --recent *)
  now : string;              (* datetime.now().isoformat() *)
  authenticated : bool;      (* authenticate() returned (else sys.exit(1)) *)
  photos_album : list iteration
}.

(** What persists between invocations. *)
Record world : Type := {
  w_progress : option progress_t;
  w_index : option index_t;
  w_files : gset string
}.

(** What one invocation leaves behind. *)
Record run : Type := {
  r_world : world;
  r_trace : list event;
  r_exit : exit_status
}.

Definition initial_state (e : env) (w : world) : state :=
  let progress := load_progress (w_progress w) in
  let index_data := load_index (now e) (w_index w) in
  {| photo_num := 0;
     counts := stats progress;
     downloaded_set := set_of (downloaded_files progress);
     progress := progress;
     photo_metadata := metadata index_data;
     indexed_filenames := set_of (filenames index_data);
     seen_filenames := set_of (filenames index_data);
     consecutive_duplicates := 0;
     skipped_by_date := 0;
     consecutive_old_photos := 0;
     index_data := index_data;
     progress_file := w_progress w;
     index_file := w_index w;
     files := w_files w;
     trace := [] |}.

Definition finish (s : state) (x : exit_status) : run :=
  {| r_world := {| w_progress := progress_file s; w_index := index_file s;
                   w_files := files s |};
     r_trace := trace s; r_exit := x |}.

(** [main()]: the loop, the final save, and the outer handler
    [except Exception], which is the only handler around the [for]
    statement itself. *)
Definition main (e : env) (w : world) : run :=
  if negb (authenticated e) then
    {| r_world := w; r_trace := []; r_exit := Exit 1 |}
  else
    let s := initial_state e w in
    let start_idx := last_index (progress s) in
    match loop (recent e) (now e) start_idx (photos_album e) s with
    | (s, Exhausted) | (s, Broke) =>
        finish (final_index (checkpoint_progress s)) Returned
    | (s, SysExit code) => finish s (Exit code)
    | (s, IterRaised Exception) => finish (save_progress s) (Exit 1)
    | (s, IterRaised KeyboardInterrupt) => finish s (Uncaught KeyboardInterrupt)
    end.

(** The progress documents written, in order. *)
Fixpoint saves (tr : list event) : list progress_t :=
  match tr with
  | [] => []
  | EvSaveProgress p :: rest => p :: saves rest
  | _ :: rest => saves rest
  end.

(** The filenames taken as new, in order. *)
Fixpoint new_filenames (tr : list event) : list string :=
  match tr with
  | [] => []
  | EvNew f :: rest => f :: new_filenames rest
  | _ :: rest => new_filenames rest
  end.

End Smart_download.

(** ** archive/build_icloud_index.py *)

Module Build_icloud_index.

Definition MAX_CONSECUTIVE_DUPLICATES : Z := 500.

(** The script reads the same attributes of a photo handle as
    smart_download.py, except the location. *)
Definition photo : Type := Smart_download.photo.
Definition photo_meta : Type := Smart_download.photo_meta.

Inductive iteration : Type :=
| Yield (p : photo)
| IterRaise (e : exn).

Definition meta_of (filename : string) (ph : photo) : photo_meta :=
  {| Smart_download.pm_filename := filename;
     Smart_download.pm_size := Smart_download.ph_size ph;
     Smart_download.pm_created :=
       Smart_download.isoformat <$> Smart_download.ph_created ph;
     Smart_download.pm_asset_date :=
       Smart_download.isoformat <$> Smart_download.ph_asset_date ph;
     Smart_download.pm_added_date :=
       Smart_download.isoformat <$> Smart_download.ph_added_date ph;
     Smart_download.pm_dimensions := Smart_download.ph_dimensions ph;
     Smart_download.pm_item_type := Smart_download.ph_item_type ph;
     Smart_download.pm_id := Smart_download.ph_id ph;
     Smart_download.pm_location := None |}.

(** [d[k] = v] on a dict kept in insertion order. *)
Fixpoint dict_set {V : Type} (k : string) (v : V) (d : list (string * V))
  : list (string * V) :=
  match d with
  | [] => [(k, v)]
  | (k', v') :: rest =>
      if decide (k' = k) then (k, v) :: rest else (k', v') :: dict_set k v rest
  end.

(** The local variables of the enumeration loop. *)
Record state : Type := {
  count : Z;
  seen_filenames : gset string;
  consecutive_duplicates : Z;
  photo_metadata : gmap string photo_meta;
  index : list (string * bool)
}.

Definition initial_state : state :=
  {| count := 0; seen_filenames := ∅; consecutive_duplicates := 0;
     photo_metadata := ∅; index := [] |}.

Inductive loop_end : Type :=
| Exhausted                (* StopIteration *)
| Broke                    (* break *)
| Raised (e : exn).        (* left the loop to a handler of the outer try *)

(** [for photo in photos_album], with the inner [try ... except
    Exception: continue]. *)
Fixpoint loop (album : list iteration) (s : state) : state * loop_end :=
  match album with
  | [] => (s, Exhausted)
  | IterRaise e :: _ => (s, Raised e)
  | Yield ph :: rest =>
      let count := count s + 1 in
      match Smart_download.ph_filename ph with
      | Raise e =>
          let s := {| count := count; seen_filenames := seen_filenames s;
                      consecutive_duplicates := consecutive_duplicates s;
                      photo_metadata := photo_metadata s; index := index s |} in
          if caught_by_except_Exception e then loop rest s else (s, Raised e)
      | Ok filename =>
          if bool_decide (filename ∈ seen_filenames s) then
            let s := {| count := count; seen_filenames := seen_filenames s;
                        consecutive_duplicates := consecutive_duplicates s + 1;
                        photo_metadata := photo_metadata s;
                        index := index s |} in
            if MAX_CONSECUTIVE_DUPLICATES <=? consecutive_duplicates s
            then (s, Broke)
            else loop rest s
          else
            loop rest
              {| count := count;
                 seen_filenames := {[filename]} ∪ seen_filenames s;
                 consecutive_duplicates := 0;
                 photo_metadata :=
                   <[filename := meta_of filename ph]> (photo_metadata s);
                 index := dict_set filename true (index s) |}
      end
  end.

(** [main()] after authentication: the loop, then the index file is
    written once; the handlers of the outer [try] exit without writing. *)
Definition main (now : string) (album : list iteration)
  : option Smart_download.index_t * exit_status :=
  match loop album initial_state with
  | (s, Exhausted) | (s, Broke) =>
      let metas := map snd (map_to_list (photo_metadata s)) in
      (Some {| Smart_download.created_at := now;
               Smart_download.photo_count := len_set (seen_filenames s);
               Smart_download.statistics :=
                 {| Smart_download.total_items := len_set (seen_filenames s);
                    Smart_download.photos :=
                      Z.of_nat (length (filter (λ m, Smart_download.is_movie m = false) metas));
                    Smart_download.videos :=
                      Z.of_nat (length (filter (λ m, Smart_download.is_movie m = true) metas));
                    Smart_download.total_size :=
                      foldr Z.add 0 (map (λ m, default 0 (Smart_download.pm_size m)) metas) |};
               Smart_download.filenames := list_of (seen_filenames s);
               Smart_download.metadata := photo_metadata s |},
       Returned)
  | (_, Raised KeyboardInterrupt) => (None, Exit 0)
  | (_, Raised Exception) => (None, Exit 1)
  end.

End Build_icloud_index.

(** * Concrete inputs used by the examples below *)

Module Scenarios.

(** ** Three videos A, B and C in the index *)

Module ABC.
Import Delete_by_criteria.

Definition MB : Z := 1024 * 1024.

(** A: 3 years old, 200 MB.  B: half a year old, 50 MB.  C: 2 years old,
    90 MB (its 3 seconds of duration have no place in an index entry). *)
Definition A : metadata :=
  {| m_item_type := Some "movie"%string;
     m_created := Some "2023-11-03T09:00:00"%string;
     m_size := Some (200 * MB) |}.
Definition B : metadata :=
  {| m_item_type := Some "movie"%string;
     m_created := Some "2026-05-05T09:00:00"%string;
     m_size := Some (50 * MB) |}.
Definition C : metadata :=
  {| m_item_type := Some "movie"%string;
     m_created := Some "2024-11-03T09:00:00"%string;
     m_size := Some (90 * MB) |}.

(** The clock of the scenario: the age in days of each date above. *)
Definition age_days_of (s : string) : option Z :=
  if decide (s = "2023-11-03T09:00:00"%string) then Some 1097
  else if decide (s = "2026-05-05T09:00:00"%string) then Some 183
  else if decide (s = "2024-11-03T09:00:00"%string) then Some 731
  else None.

Definition index_metadata : list (string * metadata) :=
  [("A.mov"%string, A); ("B.mov"%string, B); ("C.mov"%string, C)].

(** The three videos are in the remote library; the user confirms. *)
Definition e : env :=
  {| Delete_by_criteria.index_metadata := Some index_metadata;
     Delete_by_criteria.confirmed := true;
     Delete_by_criteria.authenticated := true;
     Delete_by_criteria.photos_album :=
       map (λ f, Deletion.Yield {| Deletion.ph_filename := Ok f;
                                   Deletion.ph_delete := Ok tt |})
         ["C.mov"; "B.mov"; "A.mov"]%string |}.

(** A video whose creation timestamp is null. *)
Definition undated : metadata :=
  {| m_item_type := Some "movie"%string;
     m_created := None;
     m_size := Some (500 * MB) |}.

End ABC.

(** ** Twenty-three photos in the trash folder, all in the index and all
       still in the remote library *)

Module Batch23.
Import Deletion Icloud_delete_fast.

Definition names : list string :=
  ["IMG_0001.HEIC"; "IMG_0002.HEIC"; "IMG_0003.HEIC"; "IMG_0004.HEIC";
     "IMG_0005.HEIC"; "IMG_0006.HEIC"; "IMG_0007.HEIC"; "IMG_0008.HEIC";
     "IMG_0009.HEIC"; "IMG_0010.HEIC"; "IMG_0011.HEIC"; "IMG_0012.HEIC";
     "IMG_0013.HEIC"; "IMG_0014.HEIC"; "IMG_0015.HEIC"; "IMG_0016.HEIC";
     "IMG_0017.HEIC"; "IMG_0018.HEIC"; "IMG_0019.HEIC"; "IMG_0020.HEIC";
     "IMG_0021.HEIC"; "IMG_0022.HEIC"; "IMG_0023.HEIC"]%string.

(** A handle whose filename reads and whose delete succeeds, except for
    IMG_0007.HEIC, whose delete raises. *)
Definition handle (f : string) : photo :=
  {| ph_filename := Ok f;
     ph_delete := if decide (f = "IMG_0007.HEIC"%string)
                  then Raise Exception else Ok tt |}.

Definition e : env :=
  {| index_filenames := Some names;
     trash_filenames := set_of names;
     confirmed := true;
     authenticated := true;
     photos_album := map (λ f, Yield (handle f))
                       ("IMG_9999.HEIC"%string :: names) |}.

End Batch23.

(** ** Two trashed photos, the delete of one of which fails *)

Module Resume.
Import Deletion Icloud_delete_fast.

Definition a : photo :=
  {| ph_filename := Ok "a.jpg"%string; ph_delete := Raise Exception |}.
Definition b : photo :=
  {| ph_filename := Ok "b.jpg"%string; ph_delete := Ok tt |}.

Definition e : env :=
  {| index_filenames := Some ["a.jpg"; "b.jpg"]%string;
     trash_filenames := set_of ["a.jpg"; "b.jpg"]%string;
     confirmed := true;
     authenticated := true;
     photos_album := [Yield a; Yield b] |}.

(** The first invocation starts without a progress file; the second is
    made with the same inputs on the file the first one left. *)
Definition first : run := main e None.

End Resume.

(** ** A trashed photo that is no longer in the remote library *)

Module Unmatched.
Import Deletion Icloud_delete_fast.

Definition other : photo :=
  {| ph_filename := Ok "b.jpg"%string; ph_delete := Ok tt |}.

Definition e : env :=
  {| index_filenames := Some ["a.jpg"]%string;
     trash_filenames := set_of ["a.jpg"]%string;
     confirmed := true;
     authenticated := true;
     photos_album := [Yield other] |}.

End Unmatched.

(** ** Three trashed photos, one of which is gone from the library *)

Module Partial.
Import Deletion Icloud_delete_fast.

Definition handle (f : string) : photo :=
  {| ph_filename := Ok f; ph_delete := Ok tt |}.

Definition e : env :=
  {| index_filenames := Some ["a.jpg"; "b.jpg"; "c.jpg"]%string;
     trash_filenames := set_of ["a.jpg"; "b.jpg"; "c.jpg"]%string;
     confirmed := true;
     authenticated := true;
     photos_album := [Yield (handle "c.jpg"); Yield (handle "x.jpg");
                      Yield (handle "a.jpg")]%string |}.

End Partial.

(** ** Inputs of smart_download.py *)

Module Download.
Import Smart_download.

Definition jan_2024 : datetime :=
  {| instant := 1704103200; isoformat := "2024-01-01T10:00:00"%string;
     year := "2024"%string; month := "01"%string |}.

(** A photo taken in January 2024 with the given filename and download
    behaviour. *)
Definition shot (f : string) (download : Z -> result unit) : photo :=
  {| ph_filename := Ok f; ph_size := Some 1000;
     ph_created := Some jan_2024; ph_asset_date := Some jan_2024;
     ph_added_date := Some jan_2024; ph_dimensions := Some (4032, 3024);
     ph_item_type := Some "image"%string; ph_id := Some f;
     ph_location := None; ph_download := download |}.

Definition succeeds : Z -> result unit := λ _, Ok tt.
Definition always_fails : Z -> result unit := λ _, Raise Exception.

Definition nothing : world :=
  {| w_progress := None; w_index := None; w_files := ∅ |}.

Definition run_on (album : list iteration) (w : world) : run :=
  main {| recent := None; now := "2026-11-04T08:00:00"%string;
          authenticated := true; photos_album := album |} w.

(** The state in which the loop of a first run starts. *)
Definition start : state :=
  initial_state {| recent := None; now := "2026-11-04T08:00:00"%string;
                   authenticated := true; photos_album := [] |} nothing.

(** *** A file already on disk *)

Definition on_disk : world :=
  {| w_progress := None; w_index := None;
     w_files := {["2024/01/x.jpg"%string]} |}.

Definition adopt : run := run_on [Yield (shot "x.jpg" succeeds)] on_disk.

(** *** A download that fails, then a transport error; a second run in
        which the download succeeds *)

Definition broken : run :=
  run_on [Yield (shot "f.jpg" always_fails); IterRaise Exception] nothing.

Definition retried : run :=
  run_on [Yield (shot "f.jpg" succeeds)] (r_world broken).

(** *** An interrupt while the iterator advances *)

Definition interrupted : run :=
  run_on [Yield (shot "y.jpg" succeeds); IterRaise KeyboardInterrupt] nothing.

(** *** An interrupt inside a download *)

Definition interrupted_in_body : run :=
  run_on [Yield (shot "y.jpg" succeeds);
          Yield (shot "z.jpg" (λ _, Raise KeyboardInterrupt))] nothing.

(** *** A library of ten photos that the iterator repeats for ever *)

Definition ten : list string :=
  ["p0.jpg"; "p1.jpg"; "p2.jpg"; "p3.jpg"; "p4.jpg";
   "p5.jpg"; "p6.jpg"; "p7.jpg"; "p8.jpg"; "p9.jpg"]%string.

(** The [i]-th photo the iterator yields. *)
Definition cycling (i : nat) : photo :=
  shot (nth (i mod 10) ten ""%string) succeeds.

(** The first [n] advances of the iterator. *)
Definition cycle_prefix (n : nat) : list iteration :=
  map (λ i, Yield (cycling i)) (seq 0 n).

End Download.

(** ** Two remote photos with the same filename *)

Module Homonyms.
Import Deletion.

Definition first_a : photo :=
  {| ph_filename := Ok "a.jpg"%string; ph_delete := Ok tt |}.
Definition second_a : photo :=
  {| ph_filename := Ok "a.jpg"%string; ph_delete := Raise Exception |}.
Definition unreadable_photo : photo :=
  {| ph_filename := Raise Exception; ph_delete := Ok tt |}.

Definition album : list iteration :=
  [Yield unreadable_photo; Yield first_a; Yield second_a].

Definition pending : gset string := set_of ["a.jpg"; "b.jpg"]%string.

End Homonyms.

(** ** Twenty trashed photos, all still in the remote library *)

Module Batch20.
Import Deletion Icloud_delete_fast.

Definition names : list string := take 20 Batch23.names.

Definition e : env :=
  {| index_filenames := Some names;
     trash_filenames := set_of names;
     confirmed := true;
     authenticated := true;
     photos_album := map (λ f, Yield (Batch23.handle f)) names |}.

End Batch20.

(** ** Twelve trashed photos; the delete of the twelfth is interrupted *)

Module Cut.
Import Deletion Icloud_delete_fast.

Definition names : list string := take 12 Batch23.names.

Definition handle (f : string) : photo :=
  {| ph_filename := Ok f;
     ph_delete := if decide (f = "IMG_0007.HEIC"%string)
                  then Raise KeyboardInterrupt else Ok tt |}.

Definition e : env :=
  {| index_filenames := Some names;
     trash_filenames := set_of names;
     confirmed := true;
     authenticated := true;
     photos_album := map (λ f, Yield (handle f)) names |}.

End Cut.

(** ** Photos a download run does not fetch *)

Module Unfetched.
Import Smart_download.

(** A handle without creation date. *)
Definition undated : photo :=
  {| ph_filename := Ok "u.jpg"%string; ph_size := Some 1000;
     ph_created := None; ph_asset_date := None; ph_added_date := None;
     ph_dimensions := None; ph_item_type := Some "image"%string;
     ph_id := Some "u"%string; ph_location := None;
     ph_download := λ _, Ok tt |}.

(** A cutoff in October 2026, and an album of 120 photos of January
    2024. *)
Definition cutoff_date : Z := 1760000000.

Definition old_album : list photo :=
  replicate 120 (Download.shot "old.jpg" Download.succeeds).

End Unfetched.

End Scenarios.

(** * Observations on runs, used to state the properties *)

Module Observations.

(** Whether a rule holds of a record, read off the rule's words: only an
    age-and-size rule can hold, when the age is known and non-zero, at
    least the minimum, and the size in MB at least the minimum. *)
Definition rule_holds (age_days_of : string -> option Z)
    (m : Delete_by_criteria.metadata) (r : Delete_by_criteria.rule) : bool :=
  match r with
  | Delete_by_criteria.age_and_size min_age_years min_size_mb =>
      match Delete_by_criteria.get_file_age_years age_days_of
              (Delete_by_criteria.m_created m) with
      | Some a =>
          negb (Qeq_bool a 0) && Qle_bool min_age_years a
          && Qle_bool min_size_mb (Delete_by_criteria.size_mb_of m)
      | None => false
      end
  | Delete_by_criteria.age_and_duration _ _ => false
  | Delete_by_criteria.other_type _ => false
  end.

(** ** Deletion runs *)

(** An event without its payload. *)
Inductive shape : Type :=
| Del
| Sav
| Slp (seconds : Z).

Definition shape_of (e : Deletion.event) : shape :=
  match e with
  | Deletion.EvDelete _ => Del
  | Deletion.EvSave _ => Sav
  | Deletion.EvSleep n => Slp n
  end.

(** The events expected of the batched loop entered with [b] items in
    the batch and [n] matched items to come: a flush, a save and the
    delay each time the batch reaches ten. *)
Fixpoint loop_shape (b n : nat) : list shape :=
  match n with
  | O => []
  | S n' =>
      if (10 <=? S b)%nat
      then replicate (S b) Del ++ [Sav; Slp 2] ++ loop_shape 0 n'
      else loop_shape (S b) n'
  end.

(** The size of the batch left when that loop ends. *)
Fixpoint loop_left (b n : nat) : nat :=
  match n with
  | O => b
  | S n' => if (10 <=? S b)%nat then loop_left 0 n' else loop_left (S b) n'
  end.

(** The whole deletion phase on [n] matched items. *)
Definition run_shape (n : nat) : list shape :=
  loop_shape 0 n ++ replicate (loop_left 0 n) Del ++ [Sav].

(** No [delete()] of a matched handle is cut by an interrupt. *)
Definition uninterrupted (photo_map : gmap string Deletion.photo) : Prop :=
  ∀ f p, photo_map !! f = Some p ->
         Deletion.ph_delete p ≠ Raise KeyboardInterrupt.

Definition uninterrupted_batch (batch : list (string * Deletion.photo)) : Prop :=
  Forall (λ fp, Deletion.ph_delete (snd fp) ≠ Raise KeyboardInterrupt) batch.

(** A filename for which the search pass found a handle. *)
Definition matched (photo_map : gmap string Deletion.photo) (f : string) : Prop :=
  is_Some (photo_map !! f).

Global Instance matched_dec photo_map f : Decision (matched photo_map f).
Proof. unfold matched. apply _. Defined.


(** A progress document whose deleted and failed filenames are disjoint. *)
Definition disjoint_doc (p : Deletion.progress_t) : Prop :=
  set_of (Deletion.deleted_files p) ## set_of (Deletion.failed_files p).

(** Every document a run wrote, and the file it left, satisfy [P]. *)
Definition run_docs (P : Deletion.progress_t -> Prop) (r : Deletion.run) : Prop :=
  Forall P (Deletion.saves (Deletion.r_trace r))
  ∧ (∀ p, Deletion.r_file r = Some p -> P p).

(** The invariant of the [try] block: the two sets, the [progress] dict,
    the file and every document written so far keep deleted and failed
    filenames apart. *)
Definition apart (s : Deletion.state) : Prop :=
  Deletion.deleted_set s ## Deletion.failed_set s
  ∧ disjoint_doc (Deletion.progress s)
  ∧ Forall disjoint_doc (Deletion.saves (Deletion.trace s))
  ∧ (∀ p, Deletion.file s = Some p -> disjoint_doc p).

(** None of [pending] is in either set yet, and none occurs twice. *)
Definition fresh (pending : list string) (s : Deletion.state) : Prop :=
  NoDup pending
  ∧ ∀ f, f ∈ pending -> (f ∉ Deletion.deleted_set s) ∧ (f ∉ Deletion.failed_set s).

(** Successive invocations of icloud_delete_fast.py, each reading the
    progress file the previous one left. *)
Fixpoint delete_runs (envs : list Icloud_delete_fast.env)
    (file : option Deletion.progress_t) : list Deletion.run :=
  match envs with
  | [] => []
  | e :: rest =>
      let r := Icloud_delete_fast.main e file in
      r :: delete_runs rest (Deletion.r_file r)
  end.

(** ** Download runs *)

(** The photo is not skipped by the [--recent] filter. *)
Definition passes_cutoff (cutoff : option Z) (ph : Smart_download.photo) : Prop :=
  match cutoff, Smart_download.photo_date ph with
  | Some cutoff_date, Some d => cutoff_date <= Smart_download.instant d
  | _, _ => True
  end.

(** The download attempts and the delays of a trace. *)
Fixpoint download_events (tr : list Smart_download.event)
  : list Smart_download.event :=
  match tr with
  | [] => []
  | Smart_download.EvAttempt p :: rest =>
      Smart_download.EvAttempt p :: download_events rest
  | Smart_download.EvSleep n :: rest =>
      Smart_download.EvSleep n :: download_events rest
  | _ :: rest => download_events rest
  end.

(** A filename the loop has seen and not put in the downloaded set. *)
Definition held_back (f : string) (s : Smart_download.state) : Prop :=
  f ∈ Smart_download.seen_filenames s ∧ f ∉ Smart_download.downloaded_set s.

(** A progress document whose downloaded counter does not exceed the
    number of downloaded filenames. *)
Definition doc_ok (p : Smart_download.progress_t) : Prop :=
  Smart_download.downloaded (Smart_download.stats p)
  <= len_set (set_of (Smart_download.downloaded_files p)).

(** The same of the loop's variables, of the [progress] dict, of the
    file and of every document written so far. *)
Definition counted (s : Smart_download.state) : Prop :=
  Smart_download.downloaded (Smart_download.counts s)
  <= len_set (Smart_download.downloaded_set s)
  ∧ doc_ok (Smart_download.progress s)
  ∧ Forall doc_ok (Smart_download.saves (Smart_download.trace s))
  ∧ (∀ p, Smart_download.progress_file s = Some p -> doc_ok p).

(** Every document a download run wrote, and the file it left, are
    [doc_ok]. *)
Definition run_ok (r : Smart_download.run) : Prop :=
  Forall doc_ok (Smart_download.saves (Smart_download.r_trace r))
  ∧ (∀ p, Smart_download.w_progress (Smart_download.r_world r) = Some p ->
          doc_ok p).

(** Successive invocations of smart_download.py, each started on the
    files the previous one left. *)
Fixpoint download_runs (envs : list Smart_download.env)
    (w : Smart_download.world) : list Smart_download.run :=
  match envs with
  | [] => []
  | e :: rest =>
      let r := Smart_download.main e w in
      r :: download_runs rest (Smart_download.r_world r)
  end.

(** ** Enumerations that cycle *)

(** An iterator that yields distinct filenames [names] first and only
    repeats of them afterwards: [stream i] is the [i]-th handle
    yielded. *)
Definition cycles (read : Smart_download.photo -> result string)
    (names : list string) (stream : nat -> Smart_download.photo) : Prop :=
  NoDup names
  ∧ (∀ i f, names !! i = Some f -> read (stream i) = Ok f)
  ∧ (∀ i, (length names <= i)%nat ->
          ∃ f, f ∈ names ∧ read (stream i) = Ok f).

(** The first [n] advances of the iterator of build_icloud_index.py. *)
Definition index_album (stream : nat -> Smart_download.photo) (n : nat)
  : list Build_icloud_index.iteration :=
  map (λ i, Build_icloud_index.Yield (stream i)) (seq 0 n).

(** ** Further observations on deletion runs *)

(** A handle whose filename read raises an [Exception]. *)
Definition unreadable (it : Deletion.iteration) : Prop :=
  match it with
  | Deletion.Yield ph => Deletion.ph_filename ph = Raise Exception
  | Deletion.IterRaise _ => False
  end.

(** The delays of a trace, in order. *)
Fixpoint sleeps (tr : list Deletion.event) : list Z :=
  match tr with
  | [] => []
  | Deletion.EvSleep n :: rest => n :: sleeps rest
  | _ :: rest => sleeps rest
  end.

(** A progress document whose deleted and failed counters are the sizes
    of its two lists taken as sets. *)
Definition doc_tallied (p : Deletion.progress_t) : Prop :=
  Deletion.deleted (Deletion.stats p)
  = len_set (set_of (Deletion.deleted_files p))
  ∧ Deletion.failed (Deletion.stats p)
    = len_set (set_of (Deletion.failed_files p)).

(** The same of the variables of the [try] block, of the [progress]
    dict, of the file and of every document written so far. *)
Definition tallied (s : Deletion.state) : Prop :=
  Deletion.st_deleted s = len_set (Deletion.deleted_set s)
  ∧ Deletion.st_failed s = len_set (Deletion.failed_set s)
  ∧ doc_tallied (Deletion.progress s)
  ∧ Forall doc_tallied (Deletion.saves (Deletion.trace s))
  ∧ (∀ p, Deletion.file s = Some p -> doc_tallied p).

(** The [progress] dict holds the last document written, or the loaded
    one [p0] when none was written yet. *)
Definition latest (p0 : Deletion.progress_t) (s : Deletion.state) : Prop :=
  Deletion.progress s
  = default p0 (last (Deletion.saves (Deletion.trace s))).

(** Every filename on which [delete()] was called is in one of the two
    sets. *)
Definition recorded (s : Deletion.state) : Prop :=
  ∀ f, f ∈ Deletion.attempted (Deletion.trace s) ->
       f ∈ Deletion.deleted_set s ∪ Deletion.failed_set s.

(** What the map of the search pass holds: under each key a handle of
    the album that reads that filename, and only pending keys. *)
Definition map_sound (album : list Deletion.iteration) (rset : gset string)
    (photo_map : gmap string Deletion.photo) : Prop :=
  ∀ f p, photo_map !! f = Some p ->
         Deletion.ph_filename p = Ok f ∧ f ∈ rset
         ∧ Deletion.Yield p ∈ album.

(** Counts read off a list of shapes. *)
Fixpoint shape_dels (l : list shape) : nat :=
  match l with
  | [] => 0
  | Del :: rest => S (shape_dels rest)
  | _ :: rest => shape_dels rest
  end.

Fixpoint shape_saves (l : list shape) : nat :=
  match l with
  | [] => 0
  | Sav :: rest => S (shape_saves rest)
  | _ :: rest => shape_saves rest
  end.

Fixpoint shape_sleeps (l : list shape) : list Z :=
  match l with
  | [] => []
  | Slp n :: rest => n :: shape_sleeps rest
  | _ :: rest => shape_sleeps rest
  end.

(** ** Further observations on download runs *)

(** The iterator yields a handle (it does not raise). *)
Definition yields (it : Smart_download.iteration) : Prop :=
  match it with
  | Smart_download.Yield _ => True
  | Smart_download.IterRaise _ => False
  end.

(** The progress document assembled from the loop's variables before a
    save. *)
Definition progress_doc (s : Smart_download.state) : Smart_download.progress_t :=
  {| Smart_download.downloaded_files := list_of (Smart_download.downloaded_set s);
     Smart_download.failed_files :=
       Smart_download.failed_files (Smart_download.progress s);
     Smart_download.last_index := Smart_download.photo_num s;
     Smart_download.stats := Smart_download.counts s |}.

(** The number of download attempts and the delays of a trace. *)
Fixpoint count_attempts (tr : list Smart_download.event) : nat :=
  match tr with
  | [] => 0
  | Smart_download.EvAttempt _ :: rest => S (count_attempts rest)
  | _ :: rest => count_attempts rest
  end.

Fixpoint sleep_seconds (tr : list Smart_download.event) : list Z :=
  match tr with
  | [] => []
  | Smart_download.EvSleep n :: rest => n :: sleep_seconds rest
  | _ :: rest => sleep_seconds rest
  end.




(** The first [n] advances of the iterator of smart_download.py. *)
Definition download_album (stream : nat -> Smart_download.photo) (n : nat)
  : list Smart_download.iteration :=
  map (λ i, Smart_download.Yield (stream i)) (seq 0 n).

(** No download attempt of the handle is cut by an interrupt. *)
Definition never_interrupted (ph : Smart_download.photo) : Prop :=
  ∀ k, Smart_download.ph_download ph k ≠ Raise KeyboardInterrupt.

(** ** Filenames taken once *)

(** Every download attempt of the trace is for a filename the trace takes
    as new. *)
Definition attempts_named (t : list Smart_download.event) : Prop :=
  ∀ p, Smart_download.EvAttempt p ∈ t ->
       ∃ f d, f ∈ Smart_download.new_filenames t
              ∧ p = Smart_download.output_path d f.

(** The trace takes no filename twice, none of [seen0], and attempts
    downloads for the filenames it takes only. *)
Definition fetches_once (seen0 : gset string)
    (t : list Smart_download.event) : Prop :=
  NoDup (Smart_download.new_filenames t)
  ∧ (∀ f, f ∈ Smart_download.new_filenames t -> f ∉ seen0)
  ∧ attempts_named t.

(** [s'] continues [s]: its trace extends that of [s] by events that
    take each filename once, and these filenames are what it has seen
    more. *)
Definition extends (s s' : Smart_download.state) : Prop :=
  ∃ t, Smart_download.trace s' = Smart_download.trace s ++ t
       ∧ Smart_download.seen_filenames s'
         = Smart_download.seen_filenames s
           ∪ list_to_set (Smart_download.new_filenames t)
       ∧ fetches_once (Smart_download.seen_filenames s) t.

(** ** Index documents *)




(** ** Photos that are not fetched *)

(** A handle with a readable filename whose date is before the cutoff
    of [--recent]. *)
Definition older (cutoff_date : Z) (ph : Smart_download.photo) : Prop :=
  (∃ f, Smart_download.ph_filename ph = Ok f)
  ∧ ∃ d, Smart_download.photo_date ph = Some d
         ∧ Smart_download.instant d < cutoff_date.

(** The filename is in the downloaded set, or a valid file is on disk
    under the path the photo would be written to. *)
Definition known_file (f : string) (ph : Smart_download.photo)
    (s : Smart_download.state) : Prop :=
  f ∈ Smart_download.downloaded_set s
  ∨ ∃ d, Smart_download.ph_created ph = Some d
         ∧ Smart_download.output_path d f ∈ Smart_download.files s.

End Observations.

(** * Properties of the candidate selector *)

Section Selector.
Import Delete_by_criteria.
Import Observations.

Variable age_days_of : string -> option Z.

Lemma video_rules_fst (m : metadata) (rs : list rule) :
  fst (video_rules age_days_of m rs) = existsb (rule_holds age_days_of m) rs.
Proof.
  induction rs as [|r rs IH]; [reflexivity|].
  destruct r as [a sz|a d|t]; simpl; try exact IH.
  unfold truthy, age_ge.
  destruct (get_file_age_years age_days_of (m_created m)) as [q|]; simpl.
  - destruct (negb (Qeq_bool q 0) && Qle_bool a q && Qle_bool sz (size_mb_of m));
      simpl; [reflexivity | exact IH].
  - exact IH.
Qed.

Lemma video_rules_no_age (m : metadata) (rs : list rule) :
  get_file_age_years age_days_of (m_created m) = None ->
  video_rules age_days_of m rs = (false, None).
Proof.
  intros Hage. induction rs as [|r rs IH]; [reflexivity|].
  destruct r; simpl; rewrite ?Hage; simpl; exact IH.
Qed.

Lemma matches_criteria_fst (m : metadata) (c : criteria) :
  fst (matches_criteria age_days_of m c)
  = is_movie m && kind_enabled (videos c)
    && existsb (rule_holds age_days_of m) (kind_rules (videos c)).
Proof.
  unfold matches_criteria.
  destruct (is_movie m && kind_enabled (videos c)); simpl.
  - apply video_rules_fst.
  - reflexivity.
Qed.

Lemma select_candidates_matches (items : list (string * metadata))
    (c : criteria) (filename : string) (m : metadata) (r : option reason) :
  (filename, m, r) ∈ select_candidates age_days_of items c ->
  matches_criteria age_days_of m c = (true, r) ∧ (filename, m) ∈ items.
Proof.
  induction items as [|[f m'] items IH]; simpl.
  - intros H. inversion H.
  - destruct (matches_criteria age_days_of m' c) as [b r'] eqn:E.
    destruct b.
    + intros H. apply elem_of_cons in H as [H|H].
      * inversion H; subst. split; [exact E | left].
      * destruct (IH H) as [? ?]. split; [assumption | by right].
    + intros H. destruct (IH H) as [? ?]. split; [assumption | by right].
Qed.

Lemma get_file_age_years_missing (date_str : option string) :
  date_str = None ∨ (∃ s, date_str = Some s ∧ age_days_of s = None) ->
  get_file_age_years age_days_of date_str = None.
Proof.
  intros [->|[s [-> Hs]]]; simpl; [reflexivity|].
  destruct (decide (s = ""%string)); [reflexivity|]. by rewrite Hs.
Qed.

(** C9.  A record whose creation timestamp is null, or is a string the
    date parser rejects, matches no rule of any configuration, and is
    never among the candidates the selector returns, whatever its size. *)
Theorem missing_timestamp_never_candidate
    (c : criteria) (items : list (string * metadata))
    (filename : string) (m : metadata) (r : option reason) :
  m_created m = None ∨ (∃ s, m_created m = Some s ∧ age_days_of s = None) ->
  matches_criteria age_days_of m c = (false, None)
  ∧ (filename, m, r) ∉ select_candidates age_days_of items c.
Proof.
  intros Hmissing.
  assert (Hno : matches_criteria age_days_of m c = (false, None)).
  { unfold matches_criteria.
    destruct (is_movie m && kind_enabled (videos c)); [|reflexivity].
    by apply video_rules_no_age, get_file_age_years_missing. }
  split; [exact Hno|].
  intros Hin. apply select_candidates_matches in Hin as [Hm _].
  rewrite Hno in Hm. discriminate.
Qed.

End Selector.

(** The undated 500 MB video of the scenario is not selected. *)
Lemma missing_timestamp_never_candidate_witness :
  Delete_by_criteria.matches_criteria Scenarios.ABC.age_days_of
    Scenarios.ABC.undated Delete_by_criteria.DEFAULT_CRITERIA = (false, None)
  ∧ ("U.mov"%string, Scenarios.ABC.undated, None)
    ∉ Delete_by_criteria.select_candidates Scenarios.ABC.age_days_of
        [("U.mov"%string, Scenarios.ABC.undated)]
        Delete_by_criteria.DEFAULT_CRITERIA.
Proof.
  apply (missing_timestamp_never_candidate Scenarios.ABC.age_days_of).
  left. reflexivity.
Defined.

(** C2, as stated, fails: on the index {A, B, C} under the default rules
    the selector returns A alone; C, the old short video, is not
    returned under any reason. *)
Lemma short_video_C_not_selected :
  ¬ (∃ r, ("C.mov"%string, Scenarios.ABC.C, r)
          ∈ Delete_by_criteria.select_candidates Scenarios.ABC.age_days_of
              Scenarios.ABC.index_metadata Delete_by_criteria.DEFAULT_CRITERIA).
Proof.
  intros [r Hin].
  apply select_candidates_matches in Hin as [Hm _].
  vm_compute in Hm. discriminate.
Qed.

(** C2, amended.  A record is selected exactly when it is a movie, videos
    are enabled and some age-and-size rule of the ordered list holds of
    it (age-and-duration rules are skipped); on the index {A, B, C} under
    the default rules the selector returns A alone, with the reason built
    from its age and size. *)
Theorem selector_age_and_size_only :
  (∀ age_days_of m c,
     fst (Delete_by_criteria.matches_criteria age_days_of m c)
     = Delete_by_criteria.is_movie m
       && Delete_by_criteria.kind_enabled (Delete_by_criteria.videos c)
       && existsb (Observations.rule_holds age_days_of m)
            (Delete_by_criteria.kind_rules (Delete_by_criteria.videos c)))
  ∧ Delete_by_criteria.select_candidates Scenarios.ABC.age_days_of
      Scenarios.ABC.index_metadata Delete_by_criteria.DEFAULT_CRITERIA
    = [("A.mov"%string, Scenarios.ABC.A,
        Some (Delete_by_criteria.Old_large_video
                (inject_Z 1097 / (36525 # 100))%Q
                (inject_Z (200 * Scenarios.ABC.MB)
                 / inject_Z (1024 * 1024))%Q))].
Proof.
  split.
  - intros. apply matches_criteria_fst.
  - reflexivity.
Qed.

(** * Properties of the deletion engine *)

Section Deletion_facts.
Import Deletion Observations.

Lemma uninterrupted_from_list (photo_map : gmap string photo) :
  uninterrupted_batch (map_to_list photo_map) -> uninterrupted photo_map.
Proof.
  intros HF f p Hfp. apply elem_of_map_to_list in Hfp.
  unfold uninterrupted_batch in HF. rewrite Forall_forall in HF.
  exact (HF (f, p) Hfp).
Qed.

Lemma attempted_app (l1 l2 : list event) :
  attempted (l1 ++ l2) = attempted l1 ++ attempted l2.
Proof.
  induction l1 as [|e l1 IH]; [reflexivity|].
  destruct e; simpl; rewrite IH; reflexivity.
Qed.

Lemma saves_app (l1 l2 : list event) :
  saves (l1 ++ l2) = saves l1 ++ saves l2.
Proof.
  induction l1 as [|e l1 IH]; [reflexivity|].
  destruct e; simpl; rewrite IH; reflexivity.
Qed.

(** *** Shape of the trace *)

Lemma delete_one_shape (fname : string) (p : photo) (s : state) :
  ph_delete p ≠ Raise KeyboardInterrupt ->
  ∃ s', delete_one fname p s = (s', None)
        ∧ map shape_of (trace s') = map shape_of (trace s) ++ [Del].
Proof.
  intros Hp. unfold delete_one.
  destruct (ph_delete p) as [[]|[]] eqn:E; try congruence; simpl;
    eexists; (split; [reflexivity|]); simpl; by rewrite map_app.
Qed.

Lemma flush_shape (batch : list (string * photo)) (s : state) :
  uninterrupted_batch batch ->
  ∃ s', flush batch s = (s', None)
        ∧ map shape_of (trace s')
          = map shape_of (trace s) ++ replicate (length batch) Del.
Proof.
  revert s. induction batch as [|[f p] batch IH]; intros s Hb.
  - exists s. by rewrite app_nil_r.
  - apply Forall_cons in Hb as [Hp Hb]. simpl in Hp.
    destruct (delete_one_shape f p s Hp) as (s1 & E1 & T1).
    destruct (IH s1 Hb) as (s2 & E2 & T2).
    exists s2. simpl. rewrite E1. split; [exact E2|].
    rewrite T2, T1, <- app_assoc. reflexivity.
Qed.

Lemma loop_shape_flush (b n : nat) :
  (10 <= S b)%nat ->
  loop_shape b (S n) = replicate (S b) Del ++ [Sav; Slp 2] ++ loop_shape 0 n
  ∧ loop_left b (S n) = loop_left 0 n.
Proof.
  intros H. apply Nat.leb_le in H.
  cbn [loop_shape loop_left]. rewrite H. split; reflexivity.
Qed.

Lemma loop_shape_keep (b n : nat) :
  (S b < 10)%nat ->
  loop_shape b (S n) = loop_shape (S b) n
  ∧ loop_left b (S n) = loop_left (S b) n.
Proof.
  intros H. apply Nat.leb_gt in H.
  cbn [loop_shape loop_left]. rewrite H. split; reflexivity.
Qed.

Lemma delete_loop_shape (photo_map : gmap string photo)
    (remaining : list string) :
  uninterrupted photo_map ->
  ∀ (batch : list (string * photo)) (s : state),
    uninterrupted_batch batch ->
    ∃ s' batch',
      delete_loop photo_map remaining batch s = (s', batch', None)
      ∧ uninterrupted_batch batch'
      ∧ length batch'
        = loop_left (length batch)
            (length (filter (matched photo_map) remaining))
      ∧ map shape_of (trace s')
        = map shape_of (trace s)
          ++ loop_shape (length batch)
               (length (filter (matched photo_map) remaining)).
Proof.
  intros Hmap. induction remaining as [|f rest IH]; intros batch s Hb.
  - exists s, batch. simpl. by rewrite app_nil_r.
  - cbn [delete_loop]. destruct (photo_map !! f) as [p|] eqn:Hp.
    2:{ rewrite filter_cons_False by (unfold matched; rewrite Hp; by intros []).
        destruct (IH batch (record_skipped s) Hb) as (s2 & b2 & L2 & U2 & N2 & T2).
        exists s2, b2. auto. }
    rewrite filter_cons_True by (unfold matched; by rewrite Hp).
    cbn [length]. set (n := length (filter (matched photo_map) rest)) in *.
    assert (Hb' : uninterrupted_batch (batch ++ [(f, p)])).
    { apply Forall_app. split; [exact Hb|].
      apply Forall_singleton. simpl. by eapply Hmap. }
    assert (Hlen : length (batch ++ [(f, p)]) = S (length batch)).
    { rewrite length_app. simpl. lia. }
    unfold BATCH_SIZE. rewrite Hlen.
    destruct (10 <=? Z.of_nat (S (length batch))) eqn:E.
    + apply Z.leb_le in E.
      destruct (loop_shape_flush (length batch) n) as [-> ->]; [lia|].
      destruct (flush_shape _ s Hb') as (s1 & F1 & T1). rewrite F1.
      destruct (IH [] (emit (EvSleep DELAY_BETWEEN_BATCHES)
                         (save_progress (update_progress s1))))
        as (s2 & b2 & L2 & U2 & N2 & T2); [constructor|].
      exists s2, b2. split; [exact L2|]. split; [exact U2|].
      split; [exact N2|].
      rewrite T2. simpl. rewrite !map_app. simpl. rewrite T1, Hlen.
      rewrite <- !app_assoc. reflexivity.
    + apply Z.leb_gt in E.
      destruct (loop_shape_keep (length batch) n) as [-> ->]; [lia|].
      destruct (IH _ s Hb') as (s2 & b2 & L2 & U2 & N2 & T2).
      exists s2, b2. rewrite Hlen in N2, T2. auto.
Qed.

End Deletion_facts.

Section Batch_boundary.
Import Deletion Observations Icloud_delete_fast.

Lemma try_block_shape (album : list iteration) (rset : gset string)
    (remaining : list string) (s : state)
    (photo_map : gmap string photo) (count : Z) :
  search album rset ∅ 0 = (photo_map, count, None) ->
  size photo_map ≠ 0%nat ->
  uninterrupted photo_map ->
  ∃ s', try_block album rset remaining s = (s', Completed)
        ∧ map shape_of (trace s')
          = map shape_of (trace s)
            ++ run_shape (length (filter (matched photo_map) remaining)).
Proof.
  intros Hsearch Hne Hmap. unfold try_block. rewrite Hsearch.
  replace (Z.of_nat (size photo_map) =? 0) with false
    by (symmetry; apply Z.eqb_neq; lia).
  destruct (delete_loop_shape photo_map remaining Hmap [] s)
    as (s1 & b1 & L1 & U1 & N1 & T1); [constructor|].
  rewrite L1.
  destruct (flush_shape b1 s1 U1) as (s2 & F2 & T2). rewrite F2.
  eexists. split; [reflexivity|].
  cbn [save_progress update_progress trace]. rewrite map_app, T2, T1, N1.
  unfold run_shape. cbn [length]. rewrite <- !app_assoc. reflexivity.
Qed.

Lemma filter_matched_size (photo_map : gmap string photo)
    (remaining : list string) :
  filter (matched photo_map) remaining ≠ [] -> size photo_map ≠ 0%nat.
Proof.
  intros Hne H0. apply map_size_empty_inv in H0. subst.
  destruct (filter (matched ∅) remaining) as [|f l] eqn:E; [done|].
  assert (Hin : f ∈ filter (matched (∅ : gmap string photo)) remaining)
    by (rewrite E; left).
  apply list_elem_of_filter in Hin as [[p Hp] _].
  by rewrite lookup_empty in Hp.
Qed.

(** The guards of [main] before the [try] block, once passed. *)
Lemma main_engine (e : env) (file : option progress_t) :
  is_Some (index_filenames e) ->
  confirmed e = true ->
  authenticated e = true ->
  list_of (remaining_filenames e file) ≠ [] ->
  main e file
  = finish (handlers (try_block (photos_album e) (remaining_filenames e file)
                        (list_of (remaining_filenames e file))
                        (initial_state file))).
Proof.
  intros [names Hidx] Hconf Hauth Hne.
  assert (Hsize : size (remaining_filenames e file) ≠ 0%nat).
  { intros H0. apply size_empty_inv in H0. apply Hne.
    unfold list_of. apply elements_empty_iff. exact H0. }
  unfold main. rewrite Hidx, Hconf, Hauth. cbn [negb].
  assert (Htrash : size (trash_filenames e) ≠ 0%nat).
  { assert (Hsub : remaining_filenames e file ⊆ trash_filenames e).
    { intros x Hx. unfold remaining_filenames in Hx.
      apply elem_of_difference in Hx as [Hx _].
      apply elem_of_difference in Hx as [Hx _].
      by apply elem_of_intersection in Hx as [Hx _]. }
    apply subseteq_size in Hsub. lia. }
  rewrite bool_decide_eq_false_2 by exact Htrash.
  rewrite bool_decide_eq_false_2 by exact Hsize.
  reflexivity.
Qed.

Lemma search_dom (album : list iteration) (rset : gset string) :
  ∀ (photo_map : gmap string photo) (count : Z),
    dom (fst (fst (search album rset photo_map count))) ⊆ rset ∪ dom photo_map.
Proof.
  induction album as [|it album IH]; intros photo_map count.
  - simpl. apply union_subseteq_r.
  - destruct it as [ph|e]; [|simpl; apply union_subseteq_r].
    cbn [search].
    destruct (ph_filename ph) as [filename|[]];
      [| simpl; apply union_subseteq_r | apply IH].
    set (pm := if _ : bool then _ else photo_map).
    assert (Hpm : dom pm ⊆ rset ∪ dom photo_map).
    { subst pm. destruct (bool_decide (filename ∈ rset)) eqn:Hin; simpl;
        [|apply union_subseteq_r].
      destruct (bool_decide (filename ∉ dom photo_map));
        [|apply union_subseteq_r].
      apply bool_decide_eq_true in Hin. rewrite dom_insert.
      apply union_least; [|apply union_subseteq_r].
      apply singleton_subseteq_l, elem_of_union. by left. }
    destruct (Z.of_nat (size pm) =? len_set rset); [exact Hpm|].
    destruct (MAX_SEARCH_PHOTOS <=? count + 1); [exact Hpm|].
    etrans; [apply IH|]. apply union_least; [apply union_subseteq_l|exact Hpm].
Qed.

Lemma search_found_pending (album : list iteration) (rset : gset string)
    (photo_map : gmap string photo) (count : Z) (o : option exn) :
  search album rset ∅ 0 = (photo_map, count, o) ->
  size photo_map ≠ 0%nat ->
  list_of rset ≠ [].
Proof.
  intros Hsearch Hne Hnil.
  pose proof (search_dom album rset ∅ 0) as Hdom.
  rewrite Hsearch in Hdom. simpl in Hdom.
  apply elements_empty_iff in Hnil.
  apply Hne. apply map_size_empty_iff, dom_empty_iff.
  apply elem_of_equiv_empty. intros x Hx. apply Hdom in Hx.
  rewrite dom_empty in Hx. apply elem_of_union in Hx as [Hx|Hx].
  - by apply Hnil in Hx.
  - by apply not_elem_of_empty in Hx.
Qed.

(** A run whose search pass matched something and whose deletes are not
    interrupted goes through the [try] block to the final save. *)
Lemma main_completed (e : env) (file : option progress_t)
    (photo_map : gmap string photo) (count : Z) :
  is_Some (index_filenames e) ->
  confirmed e = true ->
  authenticated e = true ->
  search (photos_album e) (remaining_filenames e file) ∅ 0
    = (photo_map, count, None) ->
  size photo_map ≠ 0%nat ->
  uninterrupted photo_map ->
  ∃ s', try_block (photos_album e) (remaining_filenames e file)
          (list_of (remaining_filenames e file)) (initial_state file)
        = (s', Completed)
        ∧ main e file = finish (s', Returned).
Proof.
  intros Hidx Hconf Hauth Hsearch Hne Hmap.
  destruct (try_block_shape (photos_album e) (remaining_filenames e file)
              (list_of (remaining_filenames e file)) (initial_state file)
              photo_map count Hsearch Hne Hmap) as (s' & Htry & _).
  exists s'. split; [exact Htry|].
  rewrite main_engine; [|done..|by eapply search_found_pending].
  by rewrite Htry.
Qed.

(** C8.  When 23 pending filenames have been matched by the search pass,
    the run makes exactly three flushes, of 10, 10 and 3 deletions in
    that order, and a save of the progress file follows each of them
    (with the 2-second delay after the first two). *)
Theorem batch_boundary_23 (e : env) (file : option progress_t)
    (photo_map : gmap string photo) (count : Z) :
  is_Some (index_filenames e) ->
  confirmed e = true ->
  authenticated e = true ->
  search (photos_album e) (remaining_filenames e file) ∅ 0
    = (photo_map, count, None) ->
  length (filter (matched photo_map) (list_of (remaining_filenames e file)))
    = 23%nat ->
  uninterrupted photo_map ->
  map shape_of (r_trace (main e file))
    = replicate 10 Del ++ [Sav; Slp 2]
      ++ replicate 10 Del ++ [Sav; Slp 2]
      ++ replicate 3 Del ++ [Sav]
  ∧ r_exit (main e file) = Returned.
Proof.
  intros Hidx Hconf Hauth Hsearch Hlen Hmap.
  assert (Hne : filter (matched photo_map)
                  (list_of (remaining_filenames e file)) ≠ []).
  { intros Hnil. rewrite Hnil in Hlen. discriminate. }
  rewrite main_engine; [|done..|].
  2:{ intros Hnil. rewrite Hnil in Hne. by apply Hne. }
  destruct (try_block_shape (photos_album e) (remaining_filenames e file)
              (list_of (remaining_filenames e file)) (initial_state file)
              photo_map count Hsearch) as (s' & Htry & Htrace);
    [by eapply filter_matched_size | exact Hmap |].
  rewrite Htry. cbn [handlers finish fst snd r_trace r_exit].
  split; [|reflexivity].
  rewrite Htrace, Hlen. reflexivity.
Qed.

End Batch_boundary.

(** The scenario of 23 trashed photos, one of whose deletes fails: three
    flushes of 10, 10 and 3, each followed by a save. *)
Lemma batch_boundary_23_witness :
  map Observations.shape_of
    (Deletion.r_trace (Icloud_delete_fast.main Scenarios.Batch23.e None))
  = replicate 10 Observations.Del
    ++ [Observations.Sav; Observations.Slp 2]
    ++ replicate 10 Observations.Del
    ++ [Observations.Sav; Observations.Slp 2]
    ++ replicate 3 Observations.Del ++ [Observations.Sav]
  ∧ Deletion.r_exit (Icloud_delete_fast.main Scenarios.Batch23.e None)
    = Returned.
Proof.
  apply (batch_boundary_23 Scenarios.Batch23.e None
           (fst (fst (Deletion.search
                        (Icloud_delete_fast.photos_album Scenarios.Batch23.e)
                        (Icloud_delete_fast.remaining_filenames
                           Scenarios.Batch23.e None) ∅ 0)))
           24).
  - eexists. reflexivity.
  - reflexivity.
  - reflexivity.
  - vm_compute. reflexivity.
  - vm_compute. reflexivity.
  - apply uninterrupted_from_list.
    vm_compute. repeat constructor; discriminate.
Defined.

(** * Which deletions an invocation attempts *)

Section Attempts.
Import Deletion Observations.

Lemma delete_one_attempted (fname : string) (p : photo) (s : state) :
  attempted (trace (fst (delete_one fname p s)))
  = attempted (trace s) ++ [fname].
Proof.
  unfold delete_one.
  destruct (ph_delete p) as [[]|[]]; simpl; by rewrite attempted_app.
Qed.

Lemma flush_attempted (batch : list (string * photo)) (s : state) :
  ∃ done : list string,
    attempted (trace (fst (flush batch s))) = attempted (trace s) ++ done
    ∧ done `prefix_of` map fst batch
    ∧ (snd (flush batch s) = None -> done = map fst batch).
Proof.
  revert s. induction batch as [|[f p] batch IH]; intros s.
  - exists []. simpl. by rewrite app_nil_r.
  - simpl. pose proof (delete_one_attempted f p s) as H1.
    destruct (delete_one f p s) as [s1 [e|]]; simpl in *.
    + exists [f]. split; [exact H1|]. split; [|discriminate].
      by apply prefix_cons, prefix_nil.
    + destruct (IH s1) as (done & Hd & Hp & Hn).
      exists (f :: done). split; [|split].
      * rewrite Hd, H1, <- app_assoc. reflexivity.
      * by apply prefix_cons.
      * intros Hnone. by rewrite (Hn Hnone).
Qed.

Lemma delete_loop_attempted (photo_map : gmap string photo)
    (remaining : list string) (batch : list (string * photo)) (s : state) :
  ∃ done : list string,
    attempted (trace (fst (fst (delete_loop photo_map remaining batch s))))
    = attempted (trace s) ++ done
    ∧ done `prefix_of`
        (map fst batch ++ filter (matched photo_map) remaining)
    ∧ (snd (delete_loop photo_map remaining batch s) = None ->
       done ++ map fst (snd (fst (delete_loop photo_map remaining batch s)))
       = map fst batch ++ filter (matched photo_map) remaining).
Proof.
  revert batch s. induction remaining as [|f rest IH]; intros batch s.
  - exists []. simpl. rewrite !app_nil_r. split; [done|].
    split; [apply prefix_nil | done].
  - cbn [delete_loop].
    destruct (photo_map !! f) as [p|] eqn:Hf.
    + rewrite filter_cons_True by (unfold matched; by rewrite Hf).
      assert (Hmap : map fst (batch ++ [(f, p)]) = map fst batch ++ [f])
        by (by rewrite map_app).
      rewrite (cons_middle f (map fst batch)), (assoc_L (++) (map fst batch)),
        <- Hmap.
      clear Hmap. set (B := batch ++ [(f, p)]).
      destruct (BATCH_SIZE <=? Z.of_nat (length B)).
      * destruct (flush_attempted B s) as (d1 & Hd1 & Hp1 & Hn1).
        destruct (flush B s) as [s1 [e|]]; simpl in *.
        -- exists d1. split; [exact Hd1|]. split; [|discriminate].
           by apply prefix_app_r.
        -- specialize (Hn1 eq_refl). subst d1.
           destruct (IH [] (emit (EvSleep DELAY_BETWEEN_BATCHES)
                              (save_progress (update_progress s1))))
             as (d2 & Hd2 & Hp2 & Hn2).
           exists (map fst B ++ d2).
           split; [|split].
           ++ rewrite Hd2. simpl. rewrite !attempted_app. simpl.
              rewrite !app_nil_r, Hd1, <- app_assoc. reflexivity.
           ++ by apply prefix_app.
           ++ intros Hnone. rewrite <- app_assoc, (Hn2 Hnone).
              reflexivity.
      * destruct (IH B s) as (d2 & Hd2 & Hp2 & Hn2).
        exists d2. auto.
    + rewrite filter_cons_False by (unfold matched; rewrite Hf; by intros []).
      destruct (IH batch (record_skipped s)) as (d2 & Hd2 & Hp2 & Hn2).
      exists d2. auto.
Qed.

Lemma try_block_attempted (album : list iteration) (rset : gset string)
    (remaining : list string) (s : state) :
  ∃ done : list string,
    attempted (trace (fst (try_block album rset remaining s)))
    = attempted (trace s) ++ done
    ∧ done `prefix_of`
        filter (matched (fst (fst (search album rset ∅ 0)))) remaining
    ∧ (snd (try_block album rset remaining s) = Completed ->
       done = filter (matched (fst (fst (search album rset ∅ 0)))) remaining).
Proof.
  unfold try_block.
  destruct (search album rset ∅ 0) as [[photo_map count] [e|]]; simpl.
  { exists []. rewrite app_nil_r. split; [done|].
    split; [apply prefix_nil | discriminate]. }
  destruct (Z.of_nat (size photo_map) =? 0).
  { exists []. simpl. rewrite app_nil_r. split; [done|].
    split; [apply prefix_nil | discriminate]. }
  destruct (delete_loop_attempted photo_map remaining [] s)
    as (d1 & Hd1 & Hp1 & Hn1).
  destruct (delete_loop photo_map remaining [] s) as [[s1 b1] [e|]];
    simpl in *.
  { exists d1. split; [exact Hd1|]. split; [exact Hp1 | discriminate]. }
  specialize (Hn1 eq_refl).
  destruct (flush_attempted b1 s1) as (d2 & Hd2 & Hp2 & Hn2).
  destruct (flush b1 s1) as [s2 [e|]]; simpl in *.
  - exists (d1 ++ d2). split; [|split; [|discriminate]].
    + rewrite Hd2, Hd1, <- app_assoc. reflexivity.
    + rewrite <- Hn1. by apply prefix_app.
  - specialize (Hn2 eq_refl). subst d2.
    exists (d1 ++ map fst b1). split; [|split].
    + rewrite attempted_app. simpl.
      rewrite app_nil_r, Hd2, Hd1, <- app_assoc. reflexivity.
    + by rewrite Hn1.
    + intros _. exact Hn1.
Qed.

Lemma handlers_attempted (r : state * try_outcome) :
  attempted (trace (fst (handlers r))) = attempted (trace (fst r)).
Proof.
  destruct r as [s [| |[]]]; simpl; try reflexivity;
    rewrite attempted_app; simpl; by rewrite app_nil_r.
Qed.

(** What a full invocation attempts, for either script: a prefix of the
    matched entries of the iteration order, all of them when the [try]
    block runs to its end. *)
Lemma engine_attempted (album : list iteration) (rset : gset string)
    (remaining : list string) (file : option progress_t) :
  let r := finish (handlers (try_block album rset remaining
                               (initial_state file))) in
  attempted (r_trace r) `prefix_of`
    filter (matched (fst (fst (search album rset ∅ 0)))) remaining.
Proof.
  simpl. rewrite handlers_attempted.
  destruct (try_block_attempted album rset remaining (initial_state file))
    as (done & Hd & Hp & _).
  rewrite Hd. exact Hp.
Qed.

Lemma prefix_of_filter_elem (P : string -> Prop) `{∀ x, Decision (P x)}
    (l done : list string) (f : string) :
  done `prefix_of` filter P l -> f ∈ done -> f ∈ l.
Proof.
  intros [k Hk] Hf.
  assert (Hin : f ∈ filter P l) by (rewrite Hk; apply elem_of_app; by left).
  by apply list_elem_of_filter in Hin as [_ ?].
Qed.


End Attempts.

Section Resume.
Import Deletion Observations.




End Resume.



(** * The search pass and the skipped tally *)

Section Search.
Import Deletion Observations.



(** *** Counters *)



End Search.

Section Skipped.
Import Deletion Observations Icloud_delete_fast.



End Skipped.



(** * Deleted and failed filenames stay apart *)

Section Disjoint.
Import Deletion Observations.

#[local] Set Warnings "-clear-no-such-hyp".

Lemma fresh_tail (f : string) (pending : list string) (s s' : state) :
  fresh (f :: pending) s ->
  deleted_set s' ∪ failed_set s' ⊆ {[f]} ∪ deleted_set s ∪ failed_set s ->
  fresh pending s'.
Proof.
  intros [Hnd Hfresh] Hsub. apply NoDup_cons in Hnd as [Hf Hnd].
  split; [exact Hnd|]. intros g Hg.
  destruct (Hfresh g) as [Hd Hfl]; [by right|].
  assert (g ≠ f) by (intros ->; done).
  set_solver.
Qed.

Lemma delete_one_apart (f : string) (p : photo) (pending : list string)
    (s : state) :
  apart s -> fresh (f :: pending) s ->
  apart (fst (delete_one f p s)) ∧ fresh pending (fst (delete_one f p s)).
Proof.
  intros (Hsets & Hdoc & Hsaves & Hfile) Hfresh.
  assert (Hf : (f ∉ deleted_set s) ∧ (f ∉ failed_set s))
    by (apply Hfresh; left).
  unfold delete_one.
  destruct (ph_delete p) as [[]|[]]; simpl.
  - split.
    + repeat split; simpl; try done.
      * set_solver.
      * rewrite saves_app. simpl. by rewrite app_nil_r.
    + eapply fresh_tail; [exact Hfresh|]. simpl. set_solver.
  - split.
    + repeat split; simpl; try done.
      rewrite saves_app. simpl. by rewrite app_nil_r.
    + eapply fresh_tail; [exact Hfresh|]. simpl. set_solver.
  - split.
    + repeat split; simpl; try done.
      * set_solver.
      * rewrite saves_app. simpl. by rewrite app_nil_r.
    + eapply fresh_tail; [exact Hfresh|]. simpl. set_solver.
Qed.

Lemma flush_apart (batch : list (string * photo)) (pending : list string)
    (s : state) :
  apart s -> fresh (map fst batch ++ pending) s ->
  apart (fst (flush batch s)) ∧ fresh pending (fst (flush batch s)).
Proof.
  revert s. induction batch as [|[f p] batch IH]; intros s Ha Hf.
  - simpl. auto.
  - simpl in Hf. destruct (delete_one_apart f p _ s Ha Hf) as [Ha1 Hf1].
    simpl. destruct (delete_one f p s) as [s1 [e|]]; simpl in *.
    + split; [exact Ha1|]. destruct Hf1 as [Hnd Hfr]. split.
      * by apply NoDup_app in Hnd as (_ & _ & ?).
      * intros g Hg. apply Hfr, elem_of_app. by right.
    + by apply IH.
Qed.

Lemma checkpoint_apart (s : state) :
  apart s -> apart (save_progress (update_progress s)).
Proof.
  intros (Hsets & Hdoc & Hsaves & Hfile).
  assert (Hnew : disjoint_doc (progress (update_progress s))).
  { unfold disjoint_doc.
    cbn [update_progress progress deleted_files failed_files].
    unfold set_of, list_of. by rewrite !list_to_set_elements_L. }
  repeat split; simpl; try done.
  - rewrite saves_app. apply Forall_app. split; [exact Hsaves|].
    simpl. by apply Forall_singleton.
  - intros p [= <-]. exact Hnew.
Qed.

Lemma stale_save_apart (s : state) : apart s -> apart (save_progress s).
Proof.
  intros (Hsets & Hdoc & Hsaves & Hfile).
  repeat split; simpl; try done.
  - rewrite saves_app. apply Forall_app. split; [exact Hsaves|].
    simpl. by apply Forall_singleton.
  - intros p [= <-]. exact Hdoc.
Qed.

Lemma delete_loop_apart (photo_map : gmap string photo)
    (remaining : list string) :
  ∀ (batch : list (string * photo)) (s : state),
    apart s -> fresh (map fst batch ++ remaining) s ->
    let r := delete_loop photo_map remaining batch s in
    apart (fst (fst r))
    ∧ (snd r = None -> fresh (map fst (snd (fst r))) (fst (fst r))).
Proof.
  induction remaining as [|f rest IH]; intros batch s Ha Hf.
  - simpl. rewrite app_nil_r in Hf. auto.
  - cbn [delete_loop]. destruct (photo_map !! f) as [p|].
    + assert (Hf' : fresh (map fst (batch ++ [(f, p)]) ++ rest) s).
      { rewrite map_app, <- app_assoc. exact Hf. }
      destruct (BATCH_SIZE <=? Z.of_nat (length (batch ++ [(f, p)]))).
      * destruct (flush_apart _ _ s Ha Hf') as [Ha1 Hf1].
        destruct (flush (batch ++ [(f, p)]) s) as [s1 [e|]]; simpl in *.
        -- split; [exact Ha1|discriminate].
        -- apply IH.
           ++ apply (checkpoint_apart s1) in Ha1.
              destruct Ha1 as (? & ? & Hs & ?). repeat split; simpl; try done.
              rewrite saves_app. simpl. by rewrite app_nil_r.
           ++ exact Hf1.
      * by apply IH.
    + apply IH; [exact Ha|]. destruct Hf as [Hnd Hfr]. split.
      * apply NoDup_app in Hnd as (H1 & H2 & H3).
        apply NoDup_cons in H3 as [H3 H4].
        apply NoDup_app. split; [exact H1|]. split; [|exact H4].
        intros g Hg Hg'. apply (H2 g Hg). by right.
      * intros g Hg. apply Hfr. apply elem_of_app in Hg as [Hg|Hg];
          apply elem_of_app; [by left | right; by right].
Qed.

Lemma try_block_apart (album : list iteration) (rset : gset string)
    (remaining : list string) (s : state) :
  apart s -> fresh remaining s ->
  apart (fst (try_block album rset remaining s)).
Proof.
  intros Ha Hf. unfold try_block.
  destruct (search album rset ∅ 0) as [[photo_map count] [e|]];
    [exact Ha|].
  destruct (Z.of_nat (size photo_map) =? 0); [exact Ha|].
  destruct (delete_loop_apart photo_map remaining [] s Ha Hf) as [Ha1 Hf1].
  destruct (delete_loop photo_map remaining [] s) as [[s1 b1] [e|]];
    simpl in *; [exact Ha1|].
  specialize (Hf1 eq_refl).
  destruct (flush_apart b1 [] s1 Ha1) as [Ha2 _];
    [by rewrite app_nil_r|].
  destruct (flush b1 s1) as [s2 [e|]]; simpl in *; [exact Ha2|].
  by apply checkpoint_apart.
Qed.

Lemma handlers_apart (r : state * try_outcome) :
  apart (fst r) -> apart (fst (handlers r)).
Proof.
  destruct r as [s [| |[]]]; simpl; auto using stale_save_apart.
Qed.

Lemma initial_state_apart (file : option progress_t) :
  (∀ p, file = Some p -> disjoint_doc p) -> apart (initial_state file).
Proof.
  intros Hfile.
  assert (Hdoc : disjoint_doc (load_progress file)).
  { destruct file as [p|]; simpl; [by apply Hfile|].
    unfold disjoint_doc, set_of. simpl. apply disjoint_empty_l. }
  repeat split; simpl; try done; constructor.
Qed.

Lemma finish_docs (r : state * exit_status) :
  apart (fst r) -> run_docs disjoint_doc (finish r).
Proof. intros (_ & _ & Hsaves & Hfile). split; assumption. Qed.

(** One invocation of icloud_delete_fast.py on a file that keeps the two
    lists apart writes only documents that keep them apart. *)
Lemma main_keeps_apart (e : Icloud_delete_fast.env)
    (file : option progress_t) :
  (∀ p, file = Some p -> disjoint_doc p) ->
  run_docs disjoint_doc (Icloud_delete_fast.main e file).
Proof.
  intros Hfile.
  assert (Hno : ∀ x, run_docs disjoint_doc (no_effect file x)).
  { intros x. split; [constructor | exact Hfile]. }
  unfold Icloud_delete_fast.main.
  destruct (Icloud_delete_fast.index_filenames e); [|apply Hno].
  repeat (case_match; [apply Hno|]).
  apply finish_docs, handlers_apart, try_block_apart.
  - by apply initial_state_apart.
  - split; [apply NoDup_elements|].
    intros f Hf. apply elem_of_elements in Hf.
    unfold Icloud_delete_fast.remaining_filenames in Hf.
    apply elem_of_difference in Hf as [Hf Hfail].
    apply elem_of_difference in Hf as [_ Hdel].
    split; assumption.
Qed.

End Disjoint.

(** C6, amended.  Over any sequence of invocations of
    icloud_delete_fast.py that starts without a progress file, every
    progress document written, and the file left by every invocation,
    keeps the deleted and the failed filenames disjoint. *)
Theorem deleted_and_failed_stay_disjoint
    (envs : list Icloud_delete_fast.env) :
  Forall (Observations.run_docs Observations.disjoint_doc)
    (Observations.delete_runs envs None).
Proof.
  assert (Hgen : ∀ file,
            (∀ p, file = Some p -> Observations.disjoint_doc p) ->
            Forall (Observations.run_docs Observations.disjoint_doc)
              (Observations.delete_runs envs file)).
  { induction envs as [|e envs IH]; intros file Hfile; [constructor|].
    simpl. pose proof (main_keeps_apart e file Hfile) as Hrun.
    constructor; [exact Hrun|]. apply IH. apply Hrun. }
  apply Hgen. discriminate.
Qed.

(** * Properties of smart_download.py *)

Section Download_loop.
Import Smart_download.

Lemma loop_app (cutoff : option Z) (now : string) (start_idx : Z)
    (pre post : list iteration) (s : state) :
  loop cutoff now start_idx (pre ++ post) s
  = match loop cutoff now start_idx pre s with
    | (s', Exhausted) => loop cutoff now start_idx post s'
    | r => r
    end.
Proof.
  revert s. induction pre as [|it pre IH]; intros s; [reflexivity|].
  destruct it as [ph|e]; [|reflexivity].
  cbn [app loop].
  destruct (photo_num (set_photo_num (photo_num s + 1) s) <=? start_idx);
    [apply IH|].
  destruct (try_body cutoff now ph (set_photo_num (photo_num s + 1) s))
    as [s1 [| |[]]]; try reflexivity; apply IH.
Qed.

(** An interrupt raised while the iterator advances leaves [main]
    through no handler: whatever the loop had done since the last
    checkpoint is not saved. *)
Lemma interrupt_while_advancing (e : env) (w : world)
    (pre post : list iteration) (s : state) :
  authenticated e = true ->
  photos_album e = pre ++ IterRaise KeyboardInterrupt :: post ->
  loop (recent e) (now e) (last_index (load_progress (w_progress w)))
    pre (initial_state e w) = (s, Exhausted) ->
  main e w = finish s (Uncaught KeyboardInterrupt).
Proof.
  intros Hauth Halbum Hpre. unfold main. rewrite Hauth, Halbum. cbn [negb].
  change (last_index (progress (initial_state e w)))
    with (last_index (load_progress (w_progress w))).
  rewrite loop_app, Hpre. reflexivity.
Qed.

End Download_loop.

(** C4: the code at the failing input.  A first photo is downloaded,
    then the interrupt arrives while the iterator fetches the next item:
    the process ends on the uncaught [KeyboardInterrupt], the downloaded
    file is on disk, and no progress was saved, neither in the trace nor
    in the progress file. *)
Theorem interrupt_while_advancing_not_saved :
  Smart_download.r_exit Scenarios.Download.interrupted
  = Uncaught KeyboardInterrupt
  ∧ "2024/01/y.jpg"%string
    ∈ Smart_download.w_files (Smart_download.r_world Scenarios.Download.interrupted)
  ∧ Smart_download.saves (Smart_download.r_trace Scenarios.Download.interrupted)
    = []
  ∧ Smart_download.w_progress
      (Smart_download.r_world Scenarios.Download.interrupted) = None.
Proof.
  split; [vm_compute; reflexivity|].
  split; [|split; vm_compute; reflexivity].
  apply elem_of_elements, list_elem_of_In. vm_compute. auto.
Qed.

(** By contrast, an interrupt inside the body of the loop (here inside a
    download) is caught: progress is saved and the process exits 0. *)
Lemma interrupt_in_body_saved :
  Smart_download.r_exit Scenarios.Download.interrupted_in_body = Exit 0
  ∧ ∃ p, Smart_download.w_progress
           (Smart_download.r_world Scenarios.Download.interrupted_in_body)
         = Some p
         ∧ Smart_download.downloaded_files p = ["y.jpg"%string].
Proof.
  split; [vm_compute; reflexivity|].
  eexists. split; vm_compute; reflexivity.
Qed.

(** C5, as stated, fails: a file found valid on disk is added to the
    downloaded set and counted as skipped, so the saved document lists
    one downloaded filename under a downloaded counter of 0. *)
Lemma downloaded_counter_below_set :
  ∃ p, Smart_download.w_progress
         (Smart_download.r_world Scenarios.Download.adopt) = Some p
       ∧ Smart_download.downloaded_files p = ["x.jpg"%string]
       ∧ Smart_download.downloaded (Smart_download.stats p) = 0
       ∧ Smart_download.downloaded (Smart_download.stats p)
         ≠ len_set (set_of (Smart_download.downloaded_files p)).
Proof.
  eexists. split; [vm_compute; reflexivity|].
  split; [reflexivity|]. split; [reflexivity|]. vm_compute. discriminate.
Qed.

(** C6, as stated, fails: f.jpg fails to download in a first run that a
    transport error then ends; in the next run it downloads, and the
    saved document lists it both as downloaded and as failed. *)
Lemma downloaded_and_failed_overlap :
  Smart_download.w_progress Scenarios.Download.nothing = None
  ∧ ∃ p, Smart_download.w_progress
           (Smart_download.r_world Scenarios.Download.retried) = Some p
         ∧ "f.jpg"%string ∈ Smart_download.downloaded_files p
         ∧ "f.jpg"%string
           ∈ map Smart_download.fe_filename (Smart_download.failed_files p).
Proof.
  split; [reflexivity|].
  eexists. split; [vm_compute; reflexivity|].
  split; apply list_elem_of_In; simpl; auto.
Qed.

(** * Retry exhaustion *)

Section Retry.
Import Smart_download Observations.

Lemma download_events_app (l1 l2 : list event) :
  download_events (l1 ++ l2) = download_events l1 ++ download_events l2.
Proof.
  induction l1 as [|e l1 IH]; [reflexivity|].
  destruct e; simpl; rewrite IH; reflexivity.
Qed.

(** The retry loop changes nothing but the trace and the files. *)
Lemma retry_loop_frame (ph : photo) (path : string) (max_retries : Z)
    (attempts : list Z) (s : state) :
  ∃ (t : list event) (F : gset string),
    fst (retry_loop ph path max_retries attempts s)
    = set_files F (set_trace (trace s ++ t) s)
    ∧ saves t = [] ∧ new_filenames t = [].
Proof.
  revert s. induction attempts as [|a attempts IH]; intros s.
  - exists [], (files s). simpl. rewrite app_nil_r. by destruct s.
  - cbn [retry_loop].
    destruct (ph_download ph a) as [[]|[]].
    + exists [EvAttempt path], ({[path]} ∪ files (emit (EvAttempt path) s)).
      done.
    + exists [EvAttempt path], (files s). done.
    + simpl. destruct (a <? max_retries - 1).
      * destruct (IH (emit (EvSleep RETRY_DELAY) (emit (EvAttempt path) s)))
          as (t & F & -> & Hs & Hn).
        exists ([EvAttempt path; EvSleep RETRY_DELAY] ++ t), F.
        split; [|by simpl]. unfold set_files, set_trace. simpl.
        by rewrite <- !app_assoc.
      * exists [EvAttempt path], (files s). done.
Qed.

(** A download that raises on each of its attempts: three calls, a
    5-second delay between consecutive calls, and [False] returned. *)
Lemma download_all_fail (ph : photo) (path : string) (s : state) :
  (∀ k, ph_download ph k = Raise Exception) ->
  download_photo_with_retry ph path RETRY_ATTEMPTS s
  = (set_trace (trace s ++ [EvAttempt path; EvSleep 5; EvAttempt path;
                            EvSleep 5; EvAttempt path]) s,
     Ok false).
Proof.
  intros Hfail. unfold download_photo_with_retry, RETRY_ATTEMPTS.
  change (range 3) with [0; 1; 2].
  cbn [retry_loop]. rewrite !Hfail. simpl.
  unfold emit, set_trace. simpl. by rewrite <- !app_assoc.
Qed.

#[local] Set Warnings "-clear-no-such-hyp".

Lemma download_frame (ph : photo) (path : string) (s : state) :
  ∃ (t : list event) (F : gset string),
    fst (download_photo_with_retry ph path RETRY_ATTEMPTS s)
    = set_files F (set_trace (trace s ++ t) s)
    ∧ saves t = [] ∧ new_filenames t = [].
Proof. apply retry_loop_frame. Qed.

Lemma fetch_held_back (now : string) (filename : string) (ph : photo)
    (s : state) (f : string) :
  f ≠ filename -> held_back f s ->
  held_back f (fst (fetch now filename ph s)).
Proof.
  intros Hne [Hseen Hdl]. unfold fetch.
  destruct (ph_created ph) as [created|]; [|done].
  destruct (file_exists_and_valid _ s).
  { split; simpl; [done|set_solver]. }
  destruct (download_frame ph (output_path created filename) s)
    as (t & F & Hfst & _).
  destruct (download_photo_with_retry _ _ _ s) as [s1 [success|e]];
    simpl in Hfst; subst s1; [|done].
  destruct success;
    match goal with |- context [if ?c then _ else _] => destruct c end;
    (split; simpl; [done|set_solver]).
Qed.

Lemma detect_cycling_held_back (now : string) (filename : string)
    (ph : photo) (s : state) (f : string) :
  held_back f s -> held_back f (fst (detect_cycling now filename ph s)).
Proof.
  intros [Hseen Hdl]. unfold detect_cycling.
  destruct (bool_decide (filename ∈ seen_filenames s)) eqn:Hin.
  { match goal with |- context [if ?c then _ else _] => destruct c end;
      by split. }
  apply bool_decide_eq_false in Hin.
  assert (Hne : f ≠ filename) by (intros ->; done).
  match goal with |- context [if ?c then _ else _] => destruct c end.
  { split; simpl; [set_solver|done]. }
  apply fetch_held_back; [exact Hne|]. split; simpl; [set_solver|done].
Qed.

Lemma try_body_held_back (cutoff : option Z) (now : string) (ph : photo)
    (s : state) (f : string) :
  held_back f s -> held_back f (fst (try_body cutoff now ph s)).
Proof.
  intros Hf. unfold try_body.
  destruct (ph_filename ph) as [filename|e]; [|done].
  destruct cutoff as [cutoff_date|]; [|by apply detect_cycling_held_back].
  destruct (photo_date ph) as [d|]; [|by apply detect_cycling_held_back].
  destruct (instant d <? cutoff_date); [|by apply detect_cycling_held_back].
  match goal with |- context [if ?c then _ else _] => destruct c end;
    exact Hf.
Qed.

Lemma loop_held_back (cutoff : option Z) (now : string) (start_idx : Z)
    (album : list iteration) (s : state) (f : string) :
  held_back f s -> held_back f (fst (loop cutoff now start_idx album s)).
Proof.
  revert s. induction album as [|it album IH]; intros s Hf; [done|].
  destruct it as [ph|e]; [|done]. cbn [loop].
  set (s0 := set_photo_num (photo_num s + 1) s).
  assert (Hf0 : held_back f s0) by exact Hf.
  destruct (photo_num s0 <=? start_idx); [by apply IH|].
  pose proof (try_body_held_back cutoff now ph s0 f Hf0) as Hf1.
  destruct (try_body cutoff now ph s0) as [s1 [| |[]]]; simpl in Hf1.
  - by apply IH.
  - exact Hf1.
  - exact Hf1.
  - by apply IH.
Qed.

(** The three steps a new, not yet downloaded photo goes through, each
    described by what it does to the components read below. *)

Lemma try_body_passes (cutoff : option Z) (now : string) (ph : photo)
    (filename : string) (s : state) :
  ph_filename ph = Ok filename ->
  passes_cutoff cutoff ph ->
  ∃ s0, try_body cutoff now ph s = detect_cycling now filename ph s0
        ∧ trace s0 = trace s ∧ counts s0 = counts s
        ∧ progress s0 = progress s ∧ downloaded_set s0 = downloaded_set s
        ∧ seen_filenames s0 = seen_filenames s ∧ files s0 = files s
        ∧ photo_num s0 = photo_num s.
Proof.
  intros Hname Hcut. unfold try_body. rewrite Hname.
  unfold passes_cutoff in Hcut.
  destruct cutoff as [cutoff_date|]; [|by exists s].
  destruct (photo_date ph) as [d|].
  - replace (instant d <? cutoff_date) with false
      by (symmetry; apply Z.ltb_ge; lia).
    eexists. split; [reflexivity|]. by repeat split.
  - eexists. split; [reflexivity|]. by repeat split.
Qed.

Lemma detect_cycling_new (now : string) (ph : photo) (filename : string)
    (s : state) :
  filename ∉ seen_filenames s ->
  filename ∉ downloaded_set s ->
  ∃ s1, detect_cycling now filename ph s = fetch now filename ph s1
        ∧ trace s1 = trace s ++ [EvNew filename] ∧ counts s1 = counts s
        ∧ progress s1 = progress s ∧ downloaded_set s1 = downloaded_set s
        ∧ seen_filenames s1 = {[filename]} ∪ seen_filenames s
        ∧ files s1 = files s ∧ photo_num s1 = photo_num s.
Proof.
  intros Hseen Hdl. unfold detect_cycling.
  rewrite bool_decide_eq_false_2 by exact Hseen.
  rewrite bool_decide_eq_false_2 by exact Hdl.
  eexists. split; [reflexivity|]. by repeat split.
Qed.

Lemma fetch_all_fail (now : string) (ph : photo) (filename : string)
    (created : datetime) (s : state) :
  ph_created ph = Some created ->
  output_path created filename ∉ files s ->
  (∀ k, ph_download ph k = Raise Exception) ->
  let path := output_path created filename in
  ∃ s', fetch now filename ph s = (s', Next)
        ∧ download_events (trace s')
          = download_events (trace s)
            ++ [EvAttempt path; EvSleep 5; EvAttempt path; EvSleep 5;
                EvAttempt path]
        ∧ counts s' = incr_failed (counts s)
        ∧ failed_files (progress s')
          = failed_files (progress s)
            ++ [{| fe_filename := filename; fe_index := photo_num s;
                   fe_timestamp := now |}]
        ∧ downloaded_set s' = downloaded_set s
        ∧ seen_filenames s' = seen_filenames s.
Proof.
  intros Hcreated Hdisk Hfail path. unfold fetch. rewrite Hcreated.
  unfold file_exists_and_valid.
  rewrite bool_decide_eq_false_2 by exact Hdisk.
  rewrite download_all_fail by exact Hfail.
  eexists. split; [reflexivity|].
  match goal with |- context [if ?c then _ else _] => destruct c end.
  - repeat split; try reflexivity.
    cbn [checkpoint_index checkpoint_progress emit set_index_file
         set_index_data set_progress_file set_progress set_counts set_trace
         trace].
    rewrite !download_events_app. simpl. by rewrite !app_nil_r.
  - repeat split; try reflexivity.
    cbn [set_progress set_counts set_trace trace].
    by rewrite download_events_app.
Qed.

(** C7.  A photo with a new filename, not yet downloaded and not on
    disk, whose download raises on every attempt: [photo.download()] is
    called exactly [RETRY_ATTEMPTS] = 3 times with a 5-second delay
    between consecutive calls; the failed counter grows by one and an
    entry for the filename is appended to the failed list; the filename
    is not added to the downloaded set, neither then nor in the rest of
    the run. *)
Theorem retry_exhaustion (cutoff : option Z) (now : string) (ph : photo)
    (filename : string) (created : datetime) (s : state) :
  ph_filename ph = Ok filename ->
  passes_cutoff cutoff ph ->
  filename ∉ seen_filenames s ->
  filename ∉ downloaded_set s ->
  ph_created ph = Some created ->
  output_path created filename ∉ files s ->
  (∀ k, ph_download ph k = Raise Exception) ->
  let path := output_path created filename in
  let s' := fst (try_body cutoff now ph s) in
  snd (try_body cutoff now ph s) = Next
  ∧ download_events (trace s')
    = download_events (trace s)
      ++ [EvAttempt path; EvSleep 5; EvAttempt path; EvSleep 5;
          EvAttempt path]
  ∧ counts s' = incr_failed (counts s)
  ∧ failed_files (progress s')
    = failed_files (progress s)
      ++ [{| fe_filename := filename; fe_index := photo_num s;
             fe_timestamp := now |}]
  ∧ downloaded_set s' = downloaded_set s
  ∧ ∀ cutoff' now' start_idx album,
      filename ∉ downloaded_set (fst (loop cutoff' now' start_idx album s')).
Proof.
  intros Hname Hcut Hseen Hdl Hcreated Hdisk Hfail path s'.
  destruct (try_body_passes cutoff now ph filename s Hname Hcut)
    as (s0 & E0 & T0 & C0 & P0 & D0 & S0 & F0 & N0).
  destruct (detect_cycling_new now ph filename s0)
    as (s1 & E1 & T1 & C1 & P1 & D1 & S1 & F1 & N1);
    [by rewrite S0 | by rewrite D0 |].
  destruct (fetch_all_fail now ph filename created s1 Hcreated)
    as (s2 & E2 & T2 & C2 & P2 & D2 & S2);
    [by rewrite F1, F0 | exact Hfail |].
  assert (Hbody : try_body cutoff now ph s = (s2, Next))
    by (by rewrite E0, E1, E2).
  subst s'. rewrite Hbody. cbn [fst snd].
  split; [reflexivity|].
  split.
  { rewrite T2, T1, T0, download_events_app. simpl.
    by rewrite app_nil_r. }
  split; [by rewrite C2, C1, C0|].
  split; [by rewrite P2, P1, P0, N1, N0|].
  split; [by rewrite D2, D1, D0|].
  intros cutoff' now' start_idx album.
  apply loop_held_back. split.
  - rewrite S2, S1. set_solver.
  - by rewrite D2, D1, D0.
Qed.

End Retry.

(** A photo whose download always fails, met first in an empty backup. *)
Lemma retry_exhaustion_witness :
  let ph := Scenarios.Download.shot "f.jpg" Scenarios.Download.always_fails in
  let s := Scenarios.Download.start in
  let s' := fst (Smart_download.try_body None "t"%string ph s) in
  snd (Smart_download.try_body None "t"%string ph s) = Smart_download.Next
  ∧ Observations.download_events (Smart_download.trace s')
    = Observations.download_events (Smart_download.trace s)
      ++ [Smart_download.EvAttempt "2024/01/f.jpg"; Smart_download.EvSleep 5;
          Smart_download.EvAttempt "2024/01/f.jpg"; Smart_download.EvSleep 5;
          Smart_download.EvAttempt "2024/01/f.jpg"]%string
  ∧ Smart_download.counts s'
    = Smart_download.incr_failed (Smart_download.counts s)
  ∧ Smart_download.failed_files (Smart_download.progress s')
    = Smart_download.failed_files (Smart_download.progress s)
      ++ [{| Smart_download.fe_filename := "f.jpg"%string;
             Smart_download.fe_index := Smart_download.photo_num s;
             Smart_download.fe_timestamp := "t"%string |}]
  ∧ Smart_download.downloaded_set s' = Smart_download.downloaded_set s
  ∧ ∀ cutoff' now' start_idx album,
      "f.jpg"%string
      ∉ Smart_download.downloaded_set
          (fst (Smart_download.loop cutoff' now' start_idx album s')).
Proof.
  apply (retry_exhaustion None "t"%string
           (Scenarios.Download.shot "f.jpg" Scenarios.Download.always_fails)
           "f.jpg"%string Scenarios.Download.jan_2024
           Scenarios.Download.start).
  - reflexivity.
  - exact I.
  - apply not_elem_of_empty.
  - apply not_elem_of_empty.
  - reflexivity.
  - apply not_elem_of_empty.
  - reflexivity.
Defined.

(** * The downloaded counter and the downloaded set *)

Section Counters.
Import Smart_download Observations.

#[local] Set Warnings "-clear-no-such-hyp".

Lemma dl_saves_app (l1 l2 : list event) :
  saves (l1 ++ l2) = saves l1 ++ saves l2.
Proof.
  induction l1 as [|e l1 IH]; [reflexivity|].
  destruct e; simpl; rewrite IH; reflexivity.
Qed.

(** [counted] reads only these components of a state. *)
Lemma counted_ext (s s' : state) :
  downloaded (counts s') = downloaded (counts s) ->
  downloaded_set s' = downloaded_set s ->
  downloaded_files (progress s') = downloaded_files (progress s) ->
  stats (progress s') = stats (progress s) ->
  saves (trace s') = saves (trace s) ->
  progress_file s' = progress_file s ->
  counted s -> counted s'.
Proof.
  intros Hc Hd Hf Hst Htr Hpf (H1 & H2 & H3 & H4).
  unfold counted, doc_ok in *. rewrite Hc, Hd, Hf, Hst, Htr, Hpf. auto.
Qed.

Lemma len_set_grows (f : string) (X : gset string) :
  len_set X <= len_set ({[f]} ∪ X).
Proof.
  unfold len_set. apply inj_le, subseteq_size. set_solver.
Qed.

Lemma len_set_fresh (f : string) (X : gset string) :
  f ∉ X -> len_set ({[f]} ∪ X) = len_set X + 1.
Proof.
  intros Hf. unfold len_set.
  rewrite size_union by set_solver. rewrite size_singleton. lia.
Qed.

Lemma checkpoint_progress_counted (s : state) :
  counted s -> counted (checkpoint_progress s).
Proof.
  intros (H1 & H2 & H3 & H4).
  assert (Hdoc : doc_ok {| downloaded_files := list_of (downloaded_set s);
                           failed_files := failed_files (progress s);
                           last_index := photo_num s;
                           stats := counts s |}).
  { unfold doc_ok, set_of, list_of. simpl.
    by rewrite list_to_set_elements_L. }
  repeat split; simpl; try done.
  - rewrite dl_saves_app. apply Forall_app. split; [exact H3|].
    simpl. by apply Forall_singleton.
  - intros p [= <-]. exact Hdoc.
Qed.

Lemma checkpoint_index_counted (s : state) :
  counted s -> counted (checkpoint_index s).
Proof.
  apply counted_ext; try reflexivity.
  simpl. rewrite dl_saves_app. simpl. by rewrite app_nil_r.
Qed.

Lemma final_index_counted (s : state) :
  counted s -> counted (final_index s).
Proof.
  apply counted_ext; try reflexivity.
  simpl. rewrite dl_saves_app. simpl. by rewrite app_nil_r.
Qed.

Lemma save_progress_counted (s : state) :
  counted s -> counted (save_progress s).
Proof.
  intros (H1 & H2 & H3 & H4). repeat split; simpl; try done.
  - rewrite dl_saves_app. apply Forall_app. split; [exact H3|].
    simpl. by apply Forall_singleton.
  - intros p [= <-]. exact H2.
Qed.

Lemma fetch_counted (now : string) (filename : string) (ph : photo)
    (s : state) :
  filename ∉ downloaded_set s -> counted s ->
  counted (fst (fetch now filename ph s)).
Proof.
  intros Hnew Hs. unfold fetch.
  destruct (ph_created ph) as [created|]; [|done].
  destruct (file_exists_and_valid _ s).
  { destruct Hs as (H1 & H2 & H3 & H4). repeat split; simpl; try done.
    pose proof (len_set_grows filename (downloaded_set s)). lia. }
  destruct (download_frame ph (output_path created filename) s)
    as (t & F & Hfst & Hsaves & _).
  destruct (download_photo_with_retry _ _ _ s) as [s1 [success|e]];
    simpl in Hfst; subst s1.
  2:{ simpl. revert Hs. apply counted_ext; try reflexivity.
      simpl. by rewrite dl_saves_app, Hsaves, app_nil_r. }
  set (s1 := set_files F (set_trace (trace s ++ t) s)).
  assert (Hs1 : counted s1).
  { revert Hs. apply counted_ext; try reflexivity.
    simpl. by rewrite dl_saves_app, Hsaves, app_nil_r. }
  cbn [fst].
  match goal with |- counted (if ?c then _ else ?x) =>
    assert (Hx : counted x); [|destruct c; [|exact Hx]] end.
  - destruct Hs1 as (H1 & H2 & H3 & H4). destruct success.
    + repeat split; simpl; try done.
      rewrite (len_set_fresh filename (downloaded_set s)) by exact Hnew.
      simpl in H1. lia.
    + repeat split; simpl; try done.
  - by apply checkpoint_index_counted, checkpoint_progress_counted.
Qed.

Lemma detect_cycling_counted (now : string) (filename : string)
    (ph : photo) (s : state) :
  counted s -> counted (fst (detect_cycling now filename ph s)).
Proof.
  intros Hs. unfold detect_cycling.
  destruct (bool_decide (filename ∈ seen_filenames s)).
  { match goal with |- context [if ?c then _ else _] => destruct c end;
      exact Hs. }
  match goal with |- context [if ?c then _ else _] =>
    destruct c eqn:Hdl end.
  - revert Hs. apply counted_ext; try reflexivity.
    simpl. rewrite dl_saves_app. simpl. by rewrite app_nil_r.
  - apply bool_decide_eq_false in Hdl. apply fetch_counted; [exact Hdl|].
    revert Hs. apply counted_ext; try reflexivity.
    simpl. rewrite dl_saves_app. simpl. by rewrite app_nil_r.
Qed.

Lemma try_body_counted (cutoff : option Z) (now : string) (ph : photo)
    (s : state) :
  counted s -> counted (fst (try_body cutoff now ph s)).
Proof.
  intros Hs. unfold try_body.
  destruct (ph_filename ph) as [filename|e]; [|done].
  destruct cutoff as [cutoff_date|]; [|by apply detect_cycling_counted].
  destruct (photo_date ph) as [d|]; [|by apply detect_cycling_counted].
  destruct (instant d <? cutoff_date); [|by apply detect_cycling_counted].
  match goal with |- context [if ?c then _ else _] => destruct c end;
    exact Hs.
Qed.

Lemma loop_counted (cutoff : option Z) (now : string) (start_idx : Z)
    (album : list iteration) (s : state) :
  counted s -> counted (fst (loop cutoff now start_idx album s)).
Proof.
  revert s. induction album as [|it album IH]; intros s Hs; [done|].
  destruct it as [ph|e]; [|done]. cbn [loop].
  set (s0 := set_photo_num (photo_num s + 1) s).
  assert (Hs0 : counted s0) by exact Hs.
  destruct (photo_num s0 <=? start_idx); [by apply IH|].
  pose proof (try_body_counted cutoff now ph s0 Hs0) as Hs1.
  destruct (try_body cutoff now ph s0) as [s1 [| |[]]]; simpl in Hs1.
  - by apply IH.
  - exact Hs1.
  - by apply checkpoint_index_counted, checkpoint_progress_counted.
  - apply IH. revert Hs1. by apply counted_ext.
Qed.

Lemma finish_ok (s : state) (x : exit_status) :
  counted s -> run_ok (finish s x).
Proof. intros (_ & _ & H3 & H4). split; assumption. Qed.

(** One invocation started on a progress file that is [doc_ok] (or on
    none) writes only documents that are. *)
Lemma main_counted (e : env) (w : world) :
  (∀ p, w_progress w = Some p -> doc_ok p) -> run_ok (main e w).
Proof.
  intros Hw. unfold main.
  destruct (authenticated e); cbn [negb]; [|split; [constructor|exact Hw]].
  assert (Hinit : counted (initial_state e w)).
  { assert (Hdoc : doc_ok (load_progress (w_progress w))).
    { destruct (w_progress w) as [p|]; simpl; [by apply Hw|].
      unfold doc_ok, len_set. cbn [load_progress stats downloaded]. lia. }
    repeat split; simpl; try done; constructor. }
  pose proof (loop_counted (recent e) (now e)
                (last_index (progress (initial_state e w)))
                (photos_album e) _ Hinit) as Hloop.
  destruct (loop _ _ _ _ _) as [s [| | code |[]]]; simpl in Hloop;
    apply finish_ok;
    auto using final_index_counted, checkpoint_progress_counted,
               save_progress_counted.
Qed.

End Counters.

(** C5, amended.  Over any sequence of invocations of smart_download.py
    that starts without a progress file, in every progress document
    written (at a checkpoint, on an interrupt, on a transport error or
    at the end) and in the file each invocation leaves, the downloaded
    counter is at most the number of filenames in the downloaded list:
    files found valid on disk enter the list without being counted. *)
Theorem downloaded_counter_at_most_set
    (envs : list Smart_download.env) (w : Smart_download.world) :
  Smart_download.w_progress w = None ->
  Forall Observations.run_ok (Observations.download_runs envs w).
Proof.
  intros Hnone.
  assert (Hgen : ∀ w',
            (∀ p, Smart_download.w_progress w' = Some p ->
                  Observations.doc_ok p) ->
            Forall Observations.run_ok (Observations.download_runs envs w')).
  { induction envs as [|e envs IH]; intros w' Hw'; [constructor|].
    simpl. pose proof (main_counted e w' Hw') as Hrun.
    constructor; [exact Hrun|]. apply IH. apply Hrun. }
  apply Hgen. rewrite Hnone. discriminate.
Qed.

(** The run that adopts a file from disk, followed by a second run. *)
Lemma downloaded_counter_at_most_set_witness :
  Forall Observations.run_ok
    (Observations.download_runs
       [ {| Smart_download.recent := None;
            Smart_download.now := "2026-11-04T08:00:00"%string;
            Smart_download.authenticated := true;
            Smart_download.photos_album :=
              [Smart_download.Yield
                 (Scenarios.Download.shot "x.jpg" Scenarios.Download.succeeds)] |};
         {| Smart_download.recent := None;
            Smart_download.now := "2026-11-05T08:00:00"%string;
            Smart_download.authenticated := true;
            Smart_download.photos_album :=
              [Smart_download.Yield
                 (Scenarios.Download.shot "n.jpg" Scenarios.Download.succeeds);
               Smart_download.Yield
                 (Scenarios.Download.shot "x.jpg" Scenarios.Download.succeeds)] |} ]
       Scenarios.Download.on_disk).
Proof.
  apply downloaded_counter_at_most_set. reflexivity.
Defined.

(** * Detecting the end of the library *)

Section Build_index_cycle.
Import Build_icloud_index Observations.

#[local] Set Warnings "-clear-no-such-hyp".

Lemma index_loop_app (pre post : list iteration) (s : state) :
  loop (pre ++ post) s
  = match loop pre s with
    | (s', Exhausted) => loop post s'
    | r => r
    end.
Proof.
  revert s. induction pre as [|it pre IH]; intros s; [reflexivity|].
  destruct it as [ph|e]; [|reflexivity]. cbn [app loop].
  destruct (Smart_download.ph_filename ph) as [filename|[]]; simpl; try apply IH; try reflexivity.
  destruct (bool_decide (filename ∈ seen_filenames s)); [|apply IH].
  destruct (MAX_CONSECUTIVE_DUPLICATES <=? consecutive_duplicates s + 1);
    [reflexivity|apply IH].
Qed.

Lemma dict_set_fresh (k : string) (d : list (string * bool)) :
  k ∉ map fst d -> map fst (dict_set k true d) = map fst d ++ [k].
Proof.
  induction d as [|[k' v'] d IH]; intros Hk; [reflexivity|].
  simpl in *. apply not_elem_of_cons in Hk as [Hne Hk].
  destruct (decide (k' = k)); [congruence|].
  simpl. by rewrite IH.
Qed.

(** New filenames: each is recorded once, in order, and resets the
    counter of consecutive repeats. *)
Lemma loop_new (phs : list photo) (fs : list string) :
  Forall2 (λ ph f, Smart_download.ph_filename ph = Ok f) phs fs ->
  NoDup fs ->
  ∀ s : state,
    (∀ f, f ∈ fs -> f ∉ seen_filenames s) ->
    (∀ k, k ∈ map fst (index s) -> k ∈ seen_filenames s) ->
    ∃ s', loop (map Yield phs) s = (s', Exhausted)
          ∧ count s' = count s + Z.of_nat (length fs)
          ∧ seen_filenames s' = list_to_set fs ∪ seen_filenames s
          ∧ consecutive_duplicates s'
            = (if decide (fs = []) then consecutive_duplicates s else 0)
          ∧ map fst (index s') = map fst (index s) ++ fs.
Proof.
  induction 1 as [|ph f phs fs Hph Hrest IH]; intros Hnd s Hfresh Hidx.
  - exists s. simpl. rewrite app_nil_r. repeat split; [lia|set_solver].
  - apply NoDup_cons in Hnd as [Hf Hnd].
    cbn [map loop]. rewrite Hph.
    rewrite bool_decide_eq_false_2 by (apply Hfresh; left).
    destruct (IH Hnd {| count := count s + 1;
                        seen_filenames := {[f]} ∪ seen_filenames s;
                        consecutive_duplicates := 0;
                        photo_metadata :=
                          <[f := meta_of f ph]> (photo_metadata s);
                        index := dict_set f true (index s) |})
      as (s' & Hloop & Hc & Hs & Hcd & Hi).
    + simpl. intros g Hg. apply not_elem_of_union. split.
      * apply not_elem_of_singleton. intros ->. done.
      * apply Hfresh. by right.
    + simpl. intros k Hk.
      rewrite dict_set_fresh in Hk
        by (intros Hin; apply (Hfresh f); [left | by apply Hidx]).
      apply elem_of_app in Hk as [Hk|Hk]; [|set_solver].
      apply elem_of_union. right. by apply Hidx.
    + exists s'. split; [exact Hloop|]. simpl in *.
      rewrite Hc, Hs, Hi.
      rewrite dict_set_fresh
        by (intros Hin; apply (Hfresh f); [left | by apply Hidx]).
      repeat split.
      * lia.
      * set_solver.
      * rewrite Hcd. by destruct (decide (fs = [])).
      * by rewrite <- app_assoc.
Qed.

(** Repeats while the counter stays below the threshold: the loop goes
    on, counting them. *)
Lemma loop_repeats_below (phs : list photo) :
  ∀ s : state,
    Forall (λ ph, ∃ f, f ∈ seen_filenames s ∧ Smart_download.ph_filename ph = Ok f) phs ->
    consecutive_duplicates s + Z.of_nat (length phs)
      < MAX_CONSECUTIVE_DUPLICATES ->
    loop (map Yield phs) s
    = ({| count := count s + Z.of_nat (length phs);
          seen_filenames := seen_filenames s;
          consecutive_duplicates :=
            consecutive_duplicates s + Z.of_nat (length phs);
          photo_metadata := photo_metadata s;
          index := index s |}, Exhausted).
Proof.
  induction phs as [|ph phs IH]; intros s Hall Hlt.
  - simpl. rewrite !Z.add_0_r. by destruct s.
  - apply Forall_cons in Hall as [(f & Hf & Hph) Hall].
    cbn [map loop]. rewrite Hph.
    rewrite bool_decide_eq_true_2 by exact Hf.
    cbn [consecutive_duplicates]. cbn [length] in Hlt.
    replace (MAX_CONSECUTIVE_DUPLICATES <=? consecutive_duplicates s + 1)
      with false by (symmetry; apply Z.leb_gt; lia).
    rewrite IH; [|exact Hall|simpl; lia].
    simpl. f_equal. f_equal; lia.
Qed.

(** Repeats that reach the threshold: the loop breaks on the repeat that
    brings the counter to it. *)
Lemma loop_repeats_reach (phs : list photo) :
  ∀ s : state,
    Forall (λ ph, ∃ f, f ∈ seen_filenames s ∧ Smart_download.ph_filename ph = Ok f) phs ->
    consecutive_duplicates s < MAX_CONSECUTIVE_DUPLICATES ->
    MAX_CONSECUTIVE_DUPLICATES
      <= consecutive_duplicates s + Z.of_nat (length phs) ->
    loop (map Yield phs) s
    = ({| count := count s
                   + (MAX_CONSECUTIVE_DUPLICATES - consecutive_duplicates s);
          seen_filenames := seen_filenames s;
          consecutive_duplicates := MAX_CONSECUTIVE_DUPLICATES;
          photo_metadata := photo_metadata s;
          index := index s |}, Broke).
Proof.
  induction phs as [|ph phs IH]; intros s Hall Hlt Hge.
  - simpl in Hge. lia.
  - apply Forall_cons in Hall as [(f & Hf & Hph) Hall].
    cbn [map loop]. rewrite Hph.
    rewrite bool_decide_eq_true_2 by exact Hf.
    cbn [consecutive_duplicates]. cbn [length] in Hge.
    destruct (MAX_CONSECUTIVE_DUPLICATES <=? consecutive_duplicates s + 1)
      eqn:E.
    + apply Z.leb_le in E. f_equal. f_equal; lia.
    + apply Z.leb_gt in E.
      rewrite IH; [|exact Hall|simpl; lia|simpl; lia].
      simpl. f_equal. f_equal; lia.
Qed.

Lemma cycles_first (names : list string)
    (stream : nat -> Smart_download.photo) (a : nat) :
  (∀ i f, names !! i = Some f ->
          Smart_download.ph_filename (stream (a + i)%nat) = Ok f) ->
  Forall2 (λ ph f, Smart_download.ph_filename ph = Ok f)
    (map stream (seq a (length names))) names.
Proof.
  revert a. induction names as [|f names IH]; intros a H; [constructor|].
  simpl. constructor.
  - specialize (H 0%nat f eq_refl). by rewrite Nat.add_0_r in H.
  - apply IH. intros i g Hi. specialize (H (S i) g Hi).
    by rewrite Nat.add_succ_r in H.
Qed.

Lemma index_album_split (stream : nat -> Smart_download.photo) (a b : nat) :
  index_album stream (a + b)
  = map Yield (map stream (seq 0 a)) ++ map Yield (map stream (seq a b)).
Proof.
  unfold index_album. rewrite seq_app, map_app, !map_map. reflexivity.
Qed.

(** The state after the distinct filenames have all been yielded. *)
Lemma loop_names (names : list string)
    (stream : nat -> Smart_download.photo) :
  cycles Smart_download.ph_filename names stream ->
  ∃ s, loop (map Yield (map stream (seq 0 (length names)))) initial_state
       = (s, Exhausted)
       ∧ count s = Z.of_nat (length names)
       ∧ seen_filenames s = list_to_set names
       ∧ consecutive_duplicates s = 0
       ∧ map fst (index s) = names.
Proof.
  intros (Hnd & Hfirst & _).
  destruct (loop_new (map stream (seq 0 (length names))) names)
    with (s := initial_state) as (s & Hloop & Hc & Hs & Hcd & Hi).
  - by apply (cycles_first names stream 0).
  - exact Hnd.
  - intros f _. apply not_elem_of_empty.
  - intros k Hk. inversion Hk.
  - exists s. split; [exact Hloop|]. simpl in *.
    repeat split; [lia | set_solver | | exact Hi].
    rewrite Hcd. by destruct (decide (names = [])).
Qed.

Lemma repeats_seen (names : list string)
    (stream : nat -> Smart_download.photo) (s : state) (k : nat) :
  cycles Smart_download.ph_filename names stream ->
  seen_filenames s = list_to_set names ->
  Forall (λ ph, ∃ f, f ∈ seen_filenames s
                     ∧ Smart_download.ph_filename ph = Ok f)
    (map stream (seq (length names) k)).
Proof.
  intros (_ & _ & Hrep) Hs. apply Forall_forall. intros ph Hph.
  apply list_elem_of_fmap in Hph as (i & -> & Hi).
  apply elem_of_seq in Hi as [Hi _].
  destruct (Hrep i Hi) as (f & Hf & Hread).
  exists f. split; [|exact Hread]. rewrite Hs. by apply elem_of_list_to_set.
Qed.

(** The enumeration of build_icloud_index.py on an iterator that yields
    distinct filenames and then only repeats of them: it stops on the
    500th consecutive repeat, not before, having recorded each filename
    once, in order. *)
Theorem build_index_stops_at_threshold (names : list string)
    (stream : nat -> Smart_download.photo) :
  cycles Smart_download.ph_filename names stream ->
  (∀ n, (length names + 500 <= n)%nat ->
        ∃ s, loop (index_album stream n) initial_state = (s, Broke)
             ∧ count s = Z.of_nat (length names) + 500
             ∧ consecutive_duplicates s = 500
             ∧ seen_filenames s = list_to_set names
             ∧ map fst (index s) = names)
  ∧ (∀ n, (n < length names + 500)%nat ->
          snd (loop (index_album stream n) initial_state) = Exhausted).
Proof.
  intros Hcyc.
  destruct (loop_names names stream Hcyc)
    as (s1 & Hloop1 & Hc1 & Hs1 & Hcd1 & Hi1).
  split.
  - intros n Hn.
    replace n with (length names + (n - length names))%nat by lia.
    rewrite index_album_split, index_loop_app, Hloop1.
    rewrite loop_repeats_reach.
    + eexists. split; [reflexivity|]. simpl.
      rewrite Hc1, Hcd1. unfold MAX_CONSECUTIVE_DUPLICATES.
      split; [lia|]. split; [reflexivity|]. split; [exact Hs1 | exact Hi1].
    + by eapply repeats_seen.
    + rewrite Hcd1. unfold MAX_CONSECUTIVE_DUPLICATES. lia.
    + rewrite Hcd1, !length_map, length_seq.
      unfold MAX_CONSECUTIVE_DUPLICATES. lia.
  - intros n Hn. destruct (decide (n <= length names)%nat) as [Hle|Hgt].
    + destruct Hcyc as (Hnd & Hfirst & _).
      destruct (loop_new (map stream (seq 0 n)) (take n names))
        with (s := initial_state) as (s & Hloop & _).
      * replace n with (length (take n names)) at 1
          by (rewrite length_take; lia).
        apply (cycles_first (take n names) stream 0).
        intros i f Hi. apply Hfirst.
        apply lookup_take_Some in Hi as [Hi _]. exact Hi.
      * apply (sublist_NoDup (take n names) names Hnd), sublist_take.
      * intros f _. apply not_elem_of_empty.
      * intros k Hk. inversion Hk.
      * replace (index_album stream n)
          with (map Yield (map stream (seq 0 n)))
          by (unfold index_album; by rewrite map_map).
        by rewrite Hloop.
    + replace n with (length names + (n - length names))%nat by lia.
      rewrite index_album_split, index_loop_app, Hloop1.
      rewrite loop_repeats_below; [reflexivity| by eapply repeats_seen |].
      rewrite Hcd1, !length_map, length_seq.
      unfold MAX_CONSECUTIVE_DUPLICATES. lia.
Qed.

End Build_index_cycle.

(** C3: the code at the failing input.  On a library of ten photos that
    the iterator repeats for ever, the loop of smart_download.py has not
    stopped after 500 consecutive repeats (510 items): it stops on the
    501st, at item 511, having taken each of the ten filenames as new
    exactly once. *)
Theorem smart_download_stops_one_repeat_late :
  let run n := Smart_download.loop None "2026-11-04T08:00:00"%string 0
                 (Scenarios.Download.cycle_prefix n) Scenarios.Download.start in
  snd (run 510%nat) = Smart_download.Exhausted
  ∧ Smart_download.consecutive_duplicates (fst (run 510%nat)) = 500
  ∧ snd (run 511%nat) = Smart_download.Broke
  ∧ Smart_download.photo_num (fst (run 511%nat)) = 511
  ∧ Smart_download.consecutive_duplicates (fst (run 511%nat)) = 501
  ∧ Smart_download.new_filenames (Smart_download.trace (fst (run 511%nat)))
    = Scenarios.Download.ten.
Proof.
  cbv zeta. repeat split; vm_compute; reflexivity.
Qed.

(** On the same library the loop of build_icloud_index.py stops on the
    500th consecutive repeat, at item 510. *)
Lemma build_index_stops_at_500 :
  ∃ s, Build_icloud_index.loop
         (Observations.index_album Scenarios.Download.cycling 600)
         Build_icloud_index.initial_state = (s, Build_icloud_index.Broke)
       ∧ Build_icloud_index.count s = 510
       ∧ Build_icloud_index.consecutive_duplicates s = 500
       ∧ map fst (Build_icloud_index.index s) = Scenarios.Download.ten.
Proof.
  destruct (build_index_stops_at_threshold Scenarios.Download.ten
              Scenarios.Download.cycling) as [Hstop _].
  - split; [|split].
    + apply (bool_decide_unpack (NoDup Scenarios.Download.ten)).
      vm_compute. exact I.
    + intros i f Hi.
      do 10 (destruct i as [|i]; [injection Hi as <-; reflexivity|]).
      discriminate.
    + intros i Hi. exists (nth (i mod 10) Scenarios.Download.ten ""%string).
      split; [|reflexivity].
      assert (Hlt : (i mod 10 < 10)%nat) by (apply Nat.mod_upper_bound; lia).
      revert Hlt. generalize (i mod 10)%nat. intros k Hk.
      do 10 (destruct k as [|k];
             [apply list_elem_of_In; simpl; auto 12|]).
      lia.
  - destruct (Hstop 600%nat) as (s & Hloop & Hc & Hcd & _ & Hi);
      [simpl; lia|].
    exists s. auto.
Defined.

(** * More on the search pass *)

Section Search_more.
Import Deletion Observations.

#[local] Set Warnings "-clear-no-such-hyp".

Lemma search_sound_from (album0 album : list iteration) (rset : gset string) :
  (∀ it, it ∈ album -> it ∈ album0) ->
  ∀ (photo_map : gmap string photo) (count : Z),
    map_sound album0 rset photo_map ->
    map_sound album0 rset (fst (fst (search album rset photo_map count))).
Proof.
  induction album as [|it album IH]; intros Hsub photo_map count Hpm;
    [exact Hpm|].
  assert (Hsub' : ∀ it', it' ∈ album -> it' ∈ album0)
    by (intros it' Hin; apply Hsub; by right).
  destruct it as [ph|e]; [|exact Hpm]. cbn [search].
  destruct (ph_filename ph) as [filename|[]] eqn:Hname;
    [| exact Hpm | by apply IH].
  set (pm := if _ : bool then _ else photo_map).
  assert (Hnew : map_sound album0 rset pm).
  { subst pm. destruct (bool_decide (filename ∈ rset)) eqn:Hin; [|exact Hpm].
    destruct (bool_decide (filename ∉ dom photo_map)); [|exact Hpm].
    apply bool_decide_eq_true in Hin. simpl. intros f p Hfp.
    destruct (decide (filename = f)) as [->|Hne].
    - rewrite lookup_insert_eq in Hfp. injection Hfp as <-.
      split; [exact Hname|]. split; [exact Hin|]. apply Hsub. left.
    - rewrite lookup_insert_ne in Hfp by exact Hne. by apply Hpm. }
  destruct (Z.of_nat (size pm) =? len_set rset); [exact Hnew|].
  destruct (MAX_SEARCH_PHOTOS <=? count + 1); [exact Hnew|].
  by apply IH.
Qed.

Lemma search_keeps (album : list iteration) (rset : gset string) :
  ∀ (photo_map : gmap string photo) (count : Z) (f : string) (p : photo),
    photo_map !! f = Some p ->
    fst (fst (search album rset photo_map count)) !! f = Some p.
Proof.
  induction album as [|it album IH]; intros photo_map count f p Hfp;
    [exact Hfp|].
  destruct it as [ph|e]; [|exact Hfp]. cbn [search].
  destruct (ph_filename ph) as [filename|[]]; [| exact Hfp | by apply IH].
  set (pm := if _ : bool then _ else photo_map).
  assert (Hnew : pm !! f = Some p).
  { subst pm. destruct (bool_decide (filename ∈ rset)); [|exact Hfp].
    destruct (bool_decide (filename ∉ dom photo_map)) eqn:Hdom; [|exact Hfp].
    apply bool_decide_eq_true in Hdom. simpl.
    rewrite lookup_insert_ne; [exact Hfp|].
    intros ->. apply Hdom. apply elem_of_dom. by exists p. }
  destruct (Z.of_nat (size pm) =? len_set rset); [exact Hnew|].
  destruct (MAX_SEARCH_PHOTOS <=? count + 1); [exact Hnew|].
  by apply IH.
Qed.

(** The map built by the search pass associates a pending filename with
    a handle of the album that reads exactly that filename; a handle
    once entered is never replaced by a later one of the same name; and
    the map never holds more entries than there are pending filenames. *)
Theorem search_matches_by_filename (album : list iteration)
    (rset : gset string) :
  let found := fst (fst (search album rset ∅ 0)) in
  (∀ f p, found !! f = Some p ->
          ph_filename p = Ok f ∧ f ∈ rset ∧ Yield p ∈ album)
  ∧ (∀ photo_map count f p,
       photo_map !! f = Some p ->
       fst (fst (search album rset photo_map count)) !! f = Some p)
  ∧ (size found <= size rset)%nat.
Proof.
  intros found. split; [|split].
  - apply (search_sound_from album album rset); [auto|].
    intros f p Hfp. by rewrite lookup_empty in Hfp.
  - apply search_keeps.
  - rewrite <- size_dom. apply subseteq_size.
    pose proof (search_dom album rset ∅ 0) as Hdom.
    rewrite dom_empty in Hdom. fold found in Hdom.
    intros x Hx. apply Hdom in Hx. set_solver.
Qed.

(** Items whose filename cannot be read are passed over without the
    limit test: a pass over handles that are all unreadable examines
    every one of them, however many, and matches nothing. *)
Theorem search_unreadable_not_limited (album : list iteration)
    (rset : gset string) (photo_map : gmap string photo) (count : Z) :
  Forall unreadable album ->
  search album rset photo_map count
  = (photo_map, count + Z.of_nat (length album), None).
Proof.
  revert count. induction album as [|it album IH]; intros count Hall.
  - simpl. by rewrite Z.add_0_r.
  - apply Forall_cons in Hall as [Hit Hall].
    destruct it as [ph|e]; [|done]. simpl in Hit.
    cbn [search length]. rewrite Hit. simpl.
    rewrite IH by exact Hall. f_equal. f_equal. lia.
Qed.

(** The result of a pass that ended without an exception, by its parts. *)
Lemma found_eq (album : list iteration) (rset : gset string) :
  snd (search album rset ∅ 0) = None ->
  search album rset ∅ 0
  = (fst (fst (search album rset ∅ 0)), snd (fst (search album rset ∅ 0)),
     None).
Proof.
  destruct (search album rset ∅ 0) as [[photo_map count] o]. simpl.
  by intros ->.
Qed.

End Search_more.

(** With two remote photos named a.jpg, the first one is the one kept
    for deletion. *)
Lemma search_matches_by_filename_witness :
  fst (fst (Deletion.search Scenarios.Homonyms.album
              Scenarios.Homonyms.pending ∅ 0)) !! "a.jpg"%string
  = Some Scenarios.Homonyms.first_a
  ∧ Deletion.ph_filename Scenarios.Homonyms.first_a = Ok "a.jpg"%string
  ∧ "a.jpg"%string ∈ Scenarios.Homonyms.pending
  ∧ Deletion.Yield Scenarios.Homonyms.first_a ∈ Scenarios.Homonyms.album.
Proof.
  assert (H : fst (fst (Deletion.search Scenarios.Homonyms.album
                          Scenarios.Homonyms.pending ∅ 0)) !! "a.jpg"%string
              = Some Scenarios.Homonyms.first_a)
    by (vm_compute; reflexivity).
  split; [exact H|].
  exact (proj1 (search_matches_by_filename Scenarios.Homonyms.album
                  Scenarios.Homonyms.pending) _ _ H).
Defined.

(** 15,001 unreadable handles are all examined: the count passes the
    limit of 15,000. *)
Lemma search_unreadable_not_limited_witness :
  Deletion.search
    (replicate (Z.to_nat 15001) (Deletion.Yield Scenarios.Homonyms.unreadable_photo))
    Scenarios.Homonyms.pending ∅ 0
  = (∅, 0 + Z.of_nat (length (replicate (Z.to_nat 15001)
                               (Deletion.Yield Scenarios.Homonyms.unreadable_photo))),
     None).
Proof.
  apply search_unreadable_not_limited.
  apply Forall_replicate. reflexivity.
Defined.

(** * Counters of the deletion scripts *)

Section Tally.
Import Deletion Observations.

#[local] Set Warnings "-clear-no-such-hyp".

(** Split [tallied] into its five parts. *)
Ltac tally_split := split; [|split; [|split; [|split]]].

Lemma len_set_add (f : string) (X : gset string) :
  f ∉ X -> len_set ({[f]} ∪ X) = len_set X + 1.
Proof.
  intros Hf. unfold len_set.
  rewrite size_union by set_solver. rewrite size_singleton. lia.
Qed.

Lemma delete_one_tallied (f : string) (p : photo) (pending : list string)
    (s : state) :
  fresh (f :: pending) s -> tallied s -> tallied (fst (delete_one f p s)).
Proof.
  intros Hfresh (Hd & Hf & Hdoc & Hsaves & Hfile).
  assert (Hnew : (f ∉ deleted_set s) ∧ (f ∉ failed_set s))
    by (apply Hfresh; left).
  destruct Hnew as [Hnd Hnf]. unfold delete_one.
  destruct (ph_delete p) as [[]|[]]; simpl;
    tally_split; simpl; try done;
    try (rewrite saves_app; simpl; by rewrite app_nil_r);
    try (rewrite len_set_add by done; lia).
Qed.

Lemma flush_tallied (batch : list (string * photo)) (pending : list string)
    (s : state) :
  apart s -> fresh (map fst batch ++ pending) s -> tallied s ->
  tallied (fst (flush batch s)).
Proof.
  revert s. induction batch as [|[f p] batch IH]; intros s Ha Hf Ht;
    [exact Ht|].
  simpl in Hf. destruct (delete_one_apart f p _ s Ha Hf) as [Ha1 Hf1].
  pose proof (delete_one_tallied f p _ s Hf Ht) as Ht1.
  simpl. destruct (delete_one f p s) as [s1 [e|]]; simpl in *;
    [exact Ht1|]. by apply IH.
Qed.

Lemma checkpoint_tallied (s : state) :
  tallied s -> tallied (save_progress (update_progress s)).
Proof.
  intros (Hd & Hf & Hdoc & Hsaves & Hfile).
  assert (Hnew : doc_tallied (progress (update_progress s))).
  { unfold doc_tallied.
    cbn [update_progress progress deleted_files failed_files stats
         deleted failed].
    unfold set_of, list_of. by rewrite !list_to_set_elements_L. }
  tally_split; simpl; try done.
  - rewrite saves_app. apply Forall_app. split; [exact Hsaves|].
    simpl. by apply Forall_singleton.
  - intros p [= <-]. exact Hnew.
Qed.

Lemma stale_save_tallied (s : state) : tallied s -> tallied (save_progress s).
Proof.
  intros (Hd & Hf & Hdoc & Hsaves & Hfile).
  tally_split; simpl; try done.
  - rewrite saves_app. apply Forall_app. split; [exact Hsaves|].
    simpl. by apply Forall_singleton.
  - intros p [= <-]. exact Hdoc.
Qed.

Lemma delete_loop_tallied (photo_map : gmap string photo)
    (remaining : list string) :
  ∀ (batch : list (string * photo)) (s : state),
    apart s -> fresh (map fst batch ++ remaining) s -> tallied s ->
    tallied (fst (fst (delete_loop photo_map remaining batch s))).
Proof.
  induction remaining as [|f rest IH]; intros batch s Ha Hf Ht; [exact Ht|].
  cbn [delete_loop]. destruct (photo_map !! f) as [p|].
  - assert (Hf' : fresh (map fst (batch ++ [(f, p)]) ++ rest) s).
    { rewrite map_app, <- app_assoc. exact Hf. }
    destruct (BATCH_SIZE <=? Z.of_nat (length (batch ++ [(f, p)]))).
    + destruct (flush_apart _ _ s Ha Hf') as [Ha1 Hf1].
      pose proof (flush_tallied _ _ s Ha Hf' Ht) as Ht1.
      destruct (flush (batch ++ [(f, p)]) s) as [s1 [e|]]; simpl in *;
        [exact Ht1|].
      apply IH.
      * apply (checkpoint_apart s1) in Ha1.
        destruct Ha1 as (? & ? & Hs & ?). repeat split; simpl; try done.
        rewrite saves_app. simpl. by rewrite app_nil_r.
      * exact Hf1.
      * apply (checkpoint_tallied s1) in Ht1.
        destruct Ht1 as (? & ? & ? & Hs & ?).
        tally_split; simpl; try done.
        rewrite saves_app. simpl. by rewrite app_nil_r.
    + by apply IH.
  - apply IH; [exact Ha| |].
    + destruct Hf as [Hnd Hfr]. split.
      * apply NoDup_app in Hnd as (H1 & H2 & H3).
        apply NoDup_cons in H3 as [H3 H4].
        apply NoDup_app. split; [exact H1|]. split; [|exact H4].
        intros g Hg Hg'. apply (H2 g Hg). by right.
      * intros g Hg. apply Hfr. apply elem_of_app in Hg as [Hg|Hg];
          apply elem_of_app; [by left | right; by right].
    + destruct Ht as (? & ? & ? & ? & ?). by tally_split.
Qed.

Lemma try_block_tallied (album : list iteration) (rset : gset string)
    (remaining : list string) (s : state) :
  apart s -> fresh remaining s -> tallied s ->
  tallied (fst (try_block album rset remaining s)).
Proof.
  intros Ha Hf Ht. unfold try_block.
  destruct (search album rset ∅ 0) as [[photo_map count] [e|]];
    [exact Ht|].
  destruct (Z.of_nat (size photo_map) =? 0); [exact Ht|].
  destruct (delete_loop_apart photo_map remaining [] s Ha Hf) as [Ha1 Hf1].
  pose proof (delete_loop_tallied photo_map remaining [] s Ha Hf Ht) as Ht1.
  destruct (delete_loop photo_map remaining [] s) as [[s1 b1] [e|]];
    simpl in *; [exact Ht1|].
  specialize (Hf1 eq_refl).
  assert (Hf1' : fresh (map fst b1 ++ []) s1) by (by rewrite app_nil_r).
  pose proof (flush_tallied b1 [] s1 Ha1 Hf1' Ht1) as Ht2.
  destruct (flush b1 s1) as [s2 [e|]]; simpl in *; [exact Ht2|].
  by apply checkpoint_tallied.
Qed.

Lemma initial_state_tallied (file : option progress_t) :
  (∀ p, file = Some p -> doc_tallied p) -> tallied (initial_state file).
Proof.
  intros Hfile.
  assert (Hdoc : doc_tallied (load_progress file)).
  { destruct file as [p|]; simpl; [by apply Hfile|]. split; reflexivity. }
  tally_split; simpl; try done; try apply Hdoc; constructor.
Qed.

(** One invocation on a file whose counters match its lists and whose
    lists are disjoint writes only such documents. *)
Lemma main_tallied (e : Icloud_delete_fast.env) (file : option progress_t) :
  (∀ p, file = Some p -> disjoint_doc p ∧ doc_tallied p) ->
  run_docs (λ p, disjoint_doc p ∧ doc_tallied p)
    (Icloud_delete_fast.main e file).
Proof.
  intros Hfile.
  assert (Hno : ∀ x, run_docs (λ p, disjoint_doc p ∧ doc_tallied p)
                       (no_effect file x)).
  { intros x. split; [constructor | exact Hfile]. }
  unfold Icloud_delete_fast.main.
  destruct (Icloud_delete_fast.index_filenames e); [|apply Hno].
  repeat (case_match; [apply Hno|]).
  assert (Ha0 : apart (initial_state file))
    by (apply initial_state_apart; intros p Hp; by apply Hfile).
  assert (Ht0 : tallied (initial_state file))
    by (apply initial_state_tallied; intros p Hp; by apply Hfile).
  assert (Hf0 : fresh (list_of (Icloud_delete_fast.remaining_filenames e file))
                  (initial_state file)).
  { split; [apply NoDup_elements|].
    intros f Hf. apply elem_of_elements in Hf.
    unfold Icloud_delete_fast.remaining_filenames in Hf.
    apply elem_of_difference in Hf as [Hf Hfail].
    apply elem_of_difference in Hf as [_ Hdel].
    split; assumption. }
  pose proof (try_block_apart (Icloud_delete_fast.photos_album e)
                (Icloud_delete_fast.remaining_filenames e file) _ _
                Ha0 Hf0) as Ha1.
  pose proof (try_block_tallied (Icloud_delete_fast.photos_album e)
                (Icloud_delete_fast.remaining_filenames e file) _ _
                Ha0 Hf0 Ht0) as Ht1.
  destruct (try_block _ _ _ _) as [s1 o]. simpl in Ha1, Ht1.
  assert (Hboth : apart (fst (handlers (s1, o)))
                  ∧ tallied (fst (handlers (s1, o)))).
  { destruct o as [| |[]]; simpl;
      auto using stale_save_apart, stale_save_tallied. }
  destruct Hboth as [(_ & _ & Hs1 & Hf1) (_ & _ & _ & Hs2 & Hf2)].
  split; simpl.
  - apply Forall_and. split; assumption.
  - intros p Hp. split; [by apply Hf1 | by apply Hf2].
Qed.

End Tally.

(** Over any sequence of invocations of icloud_delete_fast.py that
    starts without a progress file, in every progress document written
    and in the file every invocation leaves, the deleted counter is the
    number of deleted filenames and the failed counter the number of
    failed filenames. *)
Theorem deletion_counters_match_sets (envs : list Icloud_delete_fast.env) :
  Forall (Observations.run_docs Observations.doc_tallied)
    (Observations.delete_runs envs None).
Proof.
  assert (Hgen : ∀ file,
            (∀ p, file = Some p ->
                  Observations.disjoint_doc p ∧ Observations.doc_tallied p) ->
            Forall (Observations.run_docs Observations.doc_tallied)
              (Observations.delete_runs envs file)).
  { induction envs as [|e envs IH]; intros file Hfile; [constructor|].
    simpl. pose proof (main_tallied e file Hfile) as [Hsaves Hleft].
    constructor.
    - split.
      + eapply Forall_impl; [exact Hsaves|]. by intros p [_ ?].
      + intros p Hp. by apply Hleft.
    - apply IH. exact Hleft. }
  apply Hgen. discriminate.
Qed.

(** * How many flushes, saves and delays *)

Section Batches.
Import Deletion Observations.

Lemma shape_dels_app (l1 l2 : list shape) :
  shape_dels (l1 ++ l2) = (shape_dels l1 + shape_dels l2)%nat.
Proof.
  induction l1 as [|x l1 IH]; [reflexivity|].
  destruct x; simpl; rewrite IH; reflexivity.
Qed.

Lemma shape_saves_app (l1 l2 : list shape) :
  shape_saves (l1 ++ l2) = (shape_saves l1 + shape_saves l2)%nat.
Proof.
  induction l1 as [|x l1 IH]; [reflexivity|].
  destruct x; simpl; rewrite IH; reflexivity.
Qed.

Lemma shape_sleeps_app (l1 l2 : list shape) :
  shape_sleeps (l1 ++ l2) = shape_sleeps l1 ++ shape_sleeps l2.
Proof.
  induction l1 as [|x l1 IH]; [reflexivity|].
  destruct x; simpl; rewrite IH; reflexivity.
Qed.

Lemma shape_replicate_del (k : nat) :
  shape_dels (replicate k Del) = k
  ∧ shape_saves (replicate k Del) = 0%nat
  ∧ shape_sleeps (replicate k Del) = [].
Proof. induction k as [|k (H1 & H2 & H3)]; simpl; auto. Qed.

Lemma shape_of_trace (tr : list event) :
  length (attempted tr) = shape_dels (map shape_of tr)
  ∧ length (saves tr) = shape_saves (map shape_of tr)
  ∧ sleeps tr = shape_sleeps (map shape_of tr).
Proof.
  induction tr as [|e tr (H1 & H2 & H3)]; [done|].
  destruct e; simpl; rewrite ?H1, ?H2, ?H3; done.
Qed.

(** The batched loop entered with [b < 10] items in the batch and [n]
    matched items to come flushes [q] full batches and leaves [r] items,
    where [b + n = 10 q + r]. *)
Lemma loop_shape_counts (n : nat) :
  ∀ b, (b < 10)%nat ->
  ∃ q r, (b + n = 10 * q + r)%nat ∧ (r < 10)%nat
         ∧ loop_left b n = r
         ∧ shape_dels (loop_shape b n) = (10 * q)%nat
         ∧ shape_saves (loop_shape b n) = q
         ∧ shape_sleeps (loop_shape b n) = replicate q 2.
Proof.
  induction n as [|n IH]; intros b Hb.
  - exists 0%nat, b. simpl. repeat split; lia.
  - destruct (decide (10 <= S b)%nat) as [Hfull|Hnot].
    + destruct (loop_shape_flush b n Hfull) as [-> ->].
      destruct (IH 0%nat) as (q & r & Heq & Hr & Hleft & Hd & Hs & Hsl);
        [lia|].
      exists (S q), r.
      rewrite !shape_dels_app, !shape_saves_app, !shape_sleeps_app.
      destruct (shape_replicate_del (S b)) as (-> & -> & ->).
      simpl. rewrite Hd, Hs, Hsl. repeat split; lia.
    + destruct (loop_shape_keep b n) as [-> ->]; [lia|].
      destruct (IH (S b)) as (q & r & Heq & Hr & Hleft & Hd & Hs & Hsl);
        [lia|].
      exists q, r. repeat split; auto; lia.
Qed.

Lemma run_shape_counts (n : nat) :
  shape_dels (run_shape n) = n
  ∧ shape_saves (run_shape n) = (n / 10 + 1)%nat
  ∧ shape_sleeps (run_shape n) = replicate (n / 10) 2.
Proof.
  destruct (loop_shape_counts n 0) as (q & r & Heq & Hr & Hleft & Hd & Hs & Hsl);
    [lia|].
  assert (Hq : (n / 10 = q)%nat).
  { symmetry. apply (Nat.div_unique n 10 q r); lia. }
  unfold run_shape.
  rewrite !shape_dels_app, !shape_saves_app, !shape_sleeps_app.
  destruct (shape_replicate_del (loop_left 0 n)) as (-> & -> & ->).
  rewrite Hd, Hs, Hsl, Hleft, Hq. simpl. rewrite app_nil_r.
  repeat split; lia.
Qed.

(** A run of icloud_delete_fast.py that matched [n] pending filenames
    and is not interrupted calls [delete()] [n] times, sleeps 2 seconds
    [n / 10] times, and saves the progress file [n / 10 + 1] times: the
    final save is made even when the last batch is empty. *)
Theorem batch_counts (e : Icloud_delete_fast.env) (file : option progress_t)
    (photo_map : gmap string photo) (count : Z) :
  is_Some (Icloud_delete_fast.index_filenames e) ->
  Icloud_delete_fast.confirmed e = true ->
  Icloud_delete_fast.authenticated e = true ->
  search (Icloud_delete_fast.photos_album e)
    (Icloud_delete_fast.remaining_filenames e file) ∅ 0
    = (photo_map, count, None) ->
  size photo_map ≠ 0%nat ->
  uninterrupted photo_map ->
  let n := length (filter (matched photo_map)
                     (list_of (Icloud_delete_fast.remaining_filenames e file))) in
  let tr := r_trace (Icloud_delete_fast.main e file) in
  length (attempted tr) = n
  ∧ length (saves tr) = (n / 10 + 1)%nat
  ∧ sleeps tr = replicate (n / 10) 2.
Proof.
  intros Hidx Hconf Hauth Hsearch Hne Hmap n tr.
  destruct (main_completed e file photo_map count) as (s' & Htry & Hmain);
    [done..|].
  destruct (try_block_shape (Icloud_delete_fast.photos_album e)
              (Icloud_delete_fast.remaining_filenames e file)
              (list_of (Icloud_delete_fast.remaining_filenames e file))
              (initial_state file) photo_map count Hsearch Hne Hmap)
    as (s2 & Htry2 & Hshape).
  rewrite Htry in Htry2. injection Htry2 as <-.
  subst tr. rewrite Hmain. cbn [finish fst r_trace].
  destruct (shape_of_trace (trace s')) as (-> & -> & ->).
  rewrite Hshape. cbn [initial_state trace map app]. fold n.
  apply run_shape_counts.
Qed.

End Batches.

(** Twenty matched filenames: twenty deletes, two delays, three saves. *)
Lemma batch_counts_witness :
  let tr := Deletion.r_trace
              (Icloud_delete_fast.main Scenarios.Batch20.e None) in
  length (Deletion.attempted tr) = 20%nat
  ∧ length (Deletion.saves tr) = 3%nat
  ∧ Observations.sleeps tr = [2; 2].
Proof.
  assert (Hn : length (filter (Observations.matched
                 (fst (fst (Deletion.search
                    (Icloud_delete_fast.photos_album Scenarios.Batch20.e)
                    (Icloud_delete_fast.remaining_filenames
                       Scenarios.Batch20.e None) ∅ 0))))
                 (list_of (Icloud_delete_fast.remaining_filenames
                             Scenarios.Batch20.e None))) = 20%nat)
    by (vm_compute; reflexivity).
  pose proof (batch_counts Scenarios.Batch20.e None
                (fst (fst (Deletion.search
                    (Icloud_delete_fast.photos_album Scenarios.Batch20.e)
                    (Icloud_delete_fast.remaining_filenames
                       Scenarios.Batch20.e None) ∅ 0)))
                (snd (fst (Deletion.search
                    (Icloud_delete_fast.photos_album Scenarios.Batch20.e)
                    (Icloud_delete_fast.remaining_filenames
                       Scenarios.Batch20.e None) ∅ 0)))) as H.
  cbv zeta in H. rewrite Hn in H. apply H.
  - eexists. reflexivity.
  - reflexivity.
  - reflexivity.
  - apply found_eq. vm_compute. reflexivity.
  - vm_compute. discriminate.
  - apply uninterrupted_from_list.
    vm_compute. repeat constructor; discriminate.
Defined.

(** * What the handlers save, and what a completed run records *)

Section Handlers.
Import Deletion Observations.

#[local] Set Warnings "-clear-no-such-hyp".

Lemma delete_one_progress (f : string) (p : photo) (s : state) :
  progress (fst (delete_one f p s)) = progress s
  ∧ saves (trace (fst (delete_one f p s))) = saves (trace s).
Proof.
  unfold delete_one.
  destruct (ph_delete p) as [[]|[]]; simpl;
    rewrite saves_app; simpl; by rewrite app_nil_r.
Qed.

Lemma flush_progress (batch : list (string * photo)) (s : state) :
  progress (fst (flush batch s)) = progress s
  ∧ saves (trace (fst (flush batch s))) = saves (trace s).
Proof.
  revert s. induction batch as [|[f p] batch IH]; intros s; [done|].
  simpl. destruct (delete_one_progress f p s) as [H1 H2].
  destruct (delete_one f p s) as [s1 [e|]]; simpl in *; [done|].
  destruct (IH s1) as [-> ->]. done.
Qed.

Lemma checkpoint_latest (p0 : progress_t) (s : state) :
  latest p0 (save_progress (update_progress s)).
Proof.
  unfold latest. simpl. rewrite saves_app. simpl. by rewrite last_snoc.
Qed.

Lemma delete_loop_latest (p0 : progress_t) (photo_map : gmap string photo)
    (remaining : list string) :
  ∀ (batch : list (string * photo)) (s : state),
    latest p0 s ->
    latest p0 (fst (fst (delete_loop photo_map remaining batch s))).
Proof.
  induction remaining as [|f rest IH]; intros batch s Hs; [exact Hs|].
  cbn [delete_loop]. destruct (photo_map !! f) as [p|].
  - destruct (BATCH_SIZE <=? Z.of_nat (length (batch ++ [(f, p)]))).
    + destruct (flush_progress (batch ++ [(f, p)]) s) as [H1 H2].
      destruct (flush (batch ++ [(f, p)]) s) as [s1 [e|]]; simpl in *.
      * unfold latest. by rewrite H1, H2.
      * apply IH. unfold latest. simpl.
        rewrite !saves_app. simpl. by rewrite app_nil_r, last_snoc.
    + by apply IH.
  - by apply IH.
Qed.

Lemma try_block_latest (p0 : progress_t) (album : list iteration)
    (rset : gset string) (remaining : list string) (s : state) :
  latest p0 s -> latest p0 (fst (try_block album rset remaining s)).
Proof.
  intros Hs. unfold try_block.
  destruct (search album rset ∅ 0) as [[photo_map count] [e|]];
    [exact Hs|].
  destruct (Z.of_nat (size photo_map) =? 0); [exact Hs|].
  pose proof (delete_loop_latest p0 photo_map remaining [] s Hs) as H1.
  destruct (delete_loop photo_map remaining [] s) as [[s1 b1] [e|]];
    simpl in *; [exact H1|].
  destruct (flush_progress b1 s1) as [H2 H3].
  destruct (flush b1 s1) as [s2 [e|]]; simpl in *.
  - unfold latest. by rewrite H2, H3.
  - apply checkpoint_latest.
Qed.

(** When the [try] block of either script ends in a handler, the
    handler writes once more the last document written before it, or
    the loaded document if none was: nothing done since the last flush
    is recorded. *)
Lemma engine_handler_repeats (album : list iteration) (rset : gset string)
    (remaining : list string) (file : option progress_t) (c : Z) :
  let r := finish (handlers (try_block album rset remaining
                               (initial_state file))) in
  r_exit r = Exit c ->
  ∃ docs, saves (r_trace r)
          = docs ++ [default (load_progress file) (last docs)]
          ∧ r_file r = Some (default (load_progress file) (last docs)).
Proof.
  intros r Hexit. subst r.
  pose proof (try_block_latest (load_progress file) album rset remaining
                (initial_state file) eq_refl) as Hlatest.
  destruct (try_block album rset remaining (initial_state file))
    as [s [| |[]]]; simpl in *; try discriminate.
  - exists (saves (trace s)). rewrite saves_app. simpl.
    unfold latest in Hlatest. by rewrite Hlatest.
  - exists (saves (trace s)). rewrite saves_app. simpl.
    unfold latest in Hlatest. by rewrite Hlatest.
Qed.

(** The same for the two scripts: an invocation that exits through
    [sys.exit] either did nothing (no index, no authentication) or wrote
    last the document it had written or loaded before. *)
Theorem handler_saves_last_document
    (e : Icloud_delete_fast.env)
    (age_days_of : string -> option Z) (e' : Delete_by_criteria.env)
    (file : option progress_t) (r : run) (c : Z) :
  r = Icloud_delete_fast.main e file
  ∨ r = Delete_by_criteria.main age_days_of e' file ->
  r_exit r = Exit c ->
  (r_trace r = [] ∧ r_file r = file)
  ∨ ∃ docs, saves (r_trace r)
            = docs ++ [default (load_progress file) (last docs)]
            ∧ r_file r = Some (default (load_progress file) (last docs)).
Proof.
  intros [->| ->] Hexit.
  - unfold Icloud_delete_fast.main in *.
    destruct (Icloud_delete_fast.index_filenames e); [|by left].
    repeat (case_match; [by left|]).
    right. by eapply engine_handler_repeats.
  - unfold Delete_by_criteria.main in *.
    destruct (Delete_by_criteria.index_metadata e'); [|by left].
    repeat (case_match; [by left|]).
    right. by eapply engine_handler_repeats.
Qed.

End Handlers.

(** Twelve pending filenames; the delete of IMG_0007.HEIC, in the first
    batch, is interrupted: the handler writes the loaded (empty)
    document, although deletes of that batch had been made. *)
Lemma handler_saves_last_document_witness :
  let r := Icloud_delete_fast.main Scenarios.Cut.e None in
  (Deletion.r_trace r = [] ∧ Deletion.r_file r = None)
  ∨ ∃ docs, Deletion.saves (Deletion.r_trace r)
            = docs ++ [default (Deletion.load_progress None) (last docs)]
            ∧ Deletion.r_file r
              = Some (default (Deletion.load_progress None) (last docs)).
Proof.
  apply (handler_saves_last_document Scenarios.Cut.e (λ _, None)
           {| Delete_by_criteria.index_metadata := None;
              Delete_by_criteria.confirmed := true;
              Delete_by_criteria.authenticated := true;
              Delete_by_criteria.photos_album := [] |}
           None _ 0).
  - left. reflexivity.
  - vm_compute. reflexivity.
Defined.

Section Recorded.
Import Deletion Observations.

#[local] Set Warnings "-clear-no-such-hyp".

Lemma delete_one_recorded (f : string) (p : photo) (s : state) :
  ph_delete p ≠ Raise KeyboardInterrupt ->
  recorded s -> recorded (fst (delete_one f p s)).
Proof.
  intros Hp Hs. unfold delete_one.
  destruct (ph_delete p) as [[]|[]]; try done; simpl;
    intros g Hg; simpl in *; rewrite attempted_app in Hg;
    apply elem_of_app in Hg as [Hg|Hg];
    try (apply Hs in Hg; set_solver);
    simpl in Hg; apply list_elem_of_singleton in Hg; set_solver.
Qed.

Lemma flush_recorded (batch : list (string * photo)) (s : state) :
  uninterrupted_batch batch -> recorded s -> recorded (fst (flush batch s)).
Proof.
  revert s. induction batch as [|[f p] batch IH]; intros s Hb Hs;
    [exact Hs|].
  apply Forall_cons in Hb as [Hp Hb]. simpl in Hp.
  pose proof (delete_one_recorded f p s Hp Hs) as H1.
  destruct (delete_one_shape f p s Hp) as (s1 & E1 & _).
  simpl. rewrite E1 in *. simpl in H1. by apply IH.
Qed.

Lemma delete_loop_recorded (photo_map : gmap string photo)
    (remaining : list string) :
  uninterrupted photo_map ->
  ∀ (batch : list (string * photo)) (s : state),
    uninterrupted_batch batch -> recorded s ->
    recorded (fst (fst (delete_loop photo_map remaining batch s))).
Proof.
  intros Hmap. induction remaining as [|f rest IH]; intros batch s Hb Hs;
    [exact Hs|].
  cbn [delete_loop]. destruct (photo_map !! f) as [p|] eqn:Hp.
  - assert (Hb' : uninterrupted_batch (batch ++ [(f, p)])).
    { apply Forall_app. split; [exact Hb|].
      apply Forall_singleton. simpl. by eapply Hmap. }
    destruct (BATCH_SIZE <=? Z.of_nat (length (batch ++ [(f, p)]))).
    + pose proof (flush_recorded _ s Hb' Hs) as H1.
      destruct (flush_shape _ s Hb') as (s1 & F1 & _).
      rewrite F1 in *. simpl in H1.
      apply IH; [constructor|].
      intros g Hg. simpl in Hg. rewrite !attempted_app in Hg. simpl in Hg.
      rewrite !app_nil_r in Hg. by apply H1.
    + by apply IH.
  - by apply IH.
Qed.

(** After a run that reached its final save, every filename on which
    [delete()] was called is listed in the file as deleted or failed. *)
Lemma completed_run_recorded (e : Icloud_delete_fast.env)
    (file : option progress_t) (photo_map : gmap string photo) (count : Z) :
  is_Some (Icloud_delete_fast.index_filenames e) ->
  Icloud_delete_fast.confirmed e = true ->
  Icloud_delete_fast.authenticated e = true ->
  search (Icloud_delete_fast.photos_album e)
    (Icloud_delete_fast.remaining_filenames e file) ∅ 0
    = (photo_map, count, None) ->
  size photo_map ≠ 0%nat ->
  uninterrupted photo_map ->
  ∃ p, r_file (Icloud_delete_fast.main e file) = Some p
       ∧ ∀ f, f ∈ attempted (r_trace (Icloud_delete_fast.main e file)) ->
              f ∈ deleted_files p ∨ f ∈ failed_files p.
Proof.
  intros Hidx Hconf Hauth Hsearch Hne Hmap.
  destruct (main_completed e file photo_map count) as (s' & Htry & ->);
    [done..|].
  revert Htry. unfold try_block. rewrite Hsearch.
  replace (Z.of_nat (size photo_map) =? 0) with false
    by (symmetry; apply Z.eqb_neq; lia).
  set (remaining := list_of (Icloud_delete_fast.remaining_filenames e file)).
  destruct (delete_loop_shape photo_map remaining Hmap [] (initial_state file))
    as (s1 & b1 & L1 & U1 & _ & _); [constructor|].
  pose proof (delete_loop_recorded photo_map remaining Hmap []
                (initial_state file)) as R1.
  rewrite L1 in *. simpl in R1.
  destruct (flush_shape b1 s1 U1) as (s2 & F2 & _).
  pose proof (flush_recorded b1 s1 U1) as R2.
  rewrite F2 in *. simpl in R2.
  intros [= <-]. simpl.
  exists (progress (update_progress s2)). split; [reflexivity|].
  intros f Hf. rewrite attempted_app in Hf. simpl in Hf.
  rewrite app_nil_r in Hf.
  assert (Hrec : recorded s2).
  { apply R2, R1; [constructor|]. intros g Hg. inversion Hg. }
  apply Hrec in Hf. simpl. unfold list_of.
  apply elem_of_union in Hf as [Hf|Hf]; [left|right];
    by apply elem_of_elements.
Qed.

(** The filenames an invocation attempts are listed neither as deleted
    nor as failed in the file it loaded. *)
Lemma main_attempted_unlisted (e : Icloud_delete_fast.env)
    (file : option progress_t) (f : string) :
  f ∈ attempted (r_trace (Icloud_delete_fast.main e file)) ->
  (f ∉ deleted_files (load_progress file))
  ∧ (f ∉ failed_files (load_progress file)).
Proof.
  unfold Icloud_delete_fast.main.
  destruct (Icloud_delete_fast.index_filenames e);
    [|intros Hf; inversion Hf].
  repeat (case_match; [intros Hf; inversion Hf|]).
  intros Hf.
  eapply prefix_of_filter_elem in Hf; [|apply engine_attempted].
  apply elem_of_elements in Hf.
  unfold Icloud_delete_fast.remaining_filenames in Hf.
  apply elem_of_difference in Hf as [Hf Hfail].
  apply elem_of_difference in Hf as [_ Hdel].
  unfold set_of in *. rewrite elem_of_list_to_set in Hdel, Hfail. done.
Qed.

(** No delete is applied twice across a completed run and the next one:
    what a run that reached its final save attempted, the following
    invocation, whatever its inputs, does not attempt. *)
Theorem completed_run_not_repeated (e e2 : Icloud_delete_fast.env)
    (file : option progress_t) (photo_map : gmap string photo) (count : Z)
    (f : string) :
  is_Some (Icloud_delete_fast.index_filenames e) ->
  Icloud_delete_fast.confirmed e = true ->
  Icloud_delete_fast.authenticated e = true ->
  search (Icloud_delete_fast.photos_album e)
    (Icloud_delete_fast.remaining_filenames e file) ∅ 0
    = (photo_map, count, None) ->
  size photo_map ≠ 0%nat ->
  uninterrupted photo_map ->
  f ∈ attempted (r_trace (Icloud_delete_fast.main e file)) ->
  f ∉ attempted
        (r_trace (Icloud_delete_fast.main e2
                    (r_file (Icloud_delete_fast.main e file)))).
Proof.
  intros Hidx Hconf Hauth Hsearch Hne Hmap Hf Hf2.
  destruct (completed_run_recorded e file photo_map count)
    as (p & Hfile & Hrec); [done..|].
  apply main_attempted_unlisted in Hf2. rewrite Hfile in Hf2.
  simpl in Hf2. destruct Hf2 as [Hd Hfl].
  destruct (Hrec f Hf); done.
Qed.

End Recorded.

(** The run on 23 trashed photos deleted IMG_0001.HEIC; invoked again on
    the file it left, the script does not attempt it. *)
Lemma completed_run_not_repeated_witness :
  "IMG_0001.HEIC"%string
  ∉ Deletion.attempted
      (Deletion.r_trace
         (Icloud_delete_fast.main Scenarios.Batch23.e
            (Deletion.r_file
               (Icloud_delete_fast.main Scenarios.Batch23.e None)))).
Proof.
  apply (completed_run_not_repeated Scenarios.Batch23.e Scenarios.Batch23.e
           None
           (fst (fst (Deletion.search
                        (Icloud_delete_fast.photos_album Scenarios.Batch23.e)
                        (Icloud_delete_fast.remaining_filenames
                           Scenarios.Batch23.e None) ∅ 0)))
           (snd (fst (Deletion.search
                        (Icloud_delete_fast.photos_album Scenarios.Batch23.e)
                        (Icloud_delete_fast.remaining_filenames
                           Scenarios.Batch23.e None) ∅ 0)))).
  - eexists. reflexivity.
  - reflexivity.
  - reflexivity.
  - apply found_eq. vm_compute. reflexivity.
  - vm_compute. discriminate.
  - apply uninterrupted_from_list.
    vm_compute. repeat constructor; discriminate.
  - apply list_elem_of_In. vm_compute. auto 30.
Defined.

(** * The default rules in days and bytes *)

Section Selector_more.
Import Delete_by_criteria Observations.

Variable age_days_of : string -> option Z.

Lemma age_at_least_two_years (d : Z) :
  truthy (Some (inject_Z d / (36525 # 100))%Q)
  && age_ge (Some (inject_Z d / (36525 # 100))%Q) 2 = true
  <-> 731 <= d.
Proof.
  unfold truthy, age_ge.
  rewrite andb_true_iff, negb_true_iff, Qle_bool_iff.
  rewrite <- not_true_iff_false, Qeq_bool_iff.
  unfold Qle, Qeq, Qdiv, Qmult, Qinv, inject_Z. simpl. lia.
Qed.

Lemma size_at_least_100_mb (m : metadata) :
  Qle_bool 100 (size_mb_of m) = true
  <-> 100 * 1024 * 1024 <= default 0 (m_size m).
Proof.
  unfold size_mb_of. rewrite Qle_bool_iff.
  unfold Qle, Qdiv, Qmult, Qinv, inject_Z. simpl. lia.
Qed.

(** What [matches_criteria] tests of a record under [DEFAULT_CRITERIA]. *)
Lemma default_rules_decoded (m : metadata) :
  fst (matches_criteria age_days_of m DEFAULT_CRITERIA) = true
  <-> m_item_type m = Some "movie"%string
      ∧ ∃ s d, m_created m = Some s ∧ s ≠ ""%string
               ∧ age_days_of s = Some d
               ∧ 731 <= d
               ∧ 104857600 <= default 0 (m_size m).
Proof.
  unfold matches_criteria, DEFAULT_CRITERIA, is_movie. cbn [videos kind_enabled
    kind_rules enabled rules video_rules].
  rewrite andb_true_r.
  destruct (bool_decide (m_item_type m = Some "movie"%string)) eqn:Hmovie.
  2:{ apply bool_decide_eq_false in Hmovie. simpl.
      split; [discriminate | by intros [? _]]. }
  apply bool_decide_eq_true in Hmovie.
  unfold get_file_age_years.
  destruct (m_created m) as [s|].
  2:{ simpl. split; [discriminate | by intros [_ (s & d & ? & _)]]. }
  destruct (decide (s = ""%string)) as [->|Hs].
  { simpl. split; [discriminate|]. intros [_ (s & d & [= <-] & ? & _)]. done. }
  destruct (age_days_of s) as [d|] eqn:Hd.
  2:{ simpl. split; [discriminate|].
      intros [_ (s' & d & [= <-] & _ & Hd' & _)]. congruence. }
  pose proof (age_at_least_two_years d) as Hage.
  pose proof (size_at_least_100_mb m) as Hsize.
  destruct (truthy _ && age_ge _ 2).
  - destruct (Qle_bool 100 (size_mb_of m)); simpl.
    + split; [|done]. intros _. split; [exact Hmovie|].
      exists s, d. repeat split; try done; [by apply Hage|].
      by apply Hsize.
    + split; [discriminate|].
      intros [_ (s' & d' & [= <-] & _ & Hd' & _ & Hsz)].
      apply Hsize in Hsz. discriminate.
  - simpl. split; [discriminate|].
    intros [_ (s' & d' & [= <-] & _ & Hd' & Hge & _)].
    assert (d' = d) by congruence. subst d'.
    apply Hage in Hge. discriminate.
Qed.

(** The reason given with a match under [DEFAULT_CRITERIA]. *)
Lemma selected_reason (m : metadata) (s : string) (d : Z) :
  fst (matches_criteria age_days_of m DEFAULT_CRITERIA) = true ->
  m_created m = Some s -> s ≠ ""%string -> age_days_of s = Some d ->
  snd (matches_criteria age_days_of m DEFAULT_CRITERIA)
  = Some (Old_large_video (inject_Z d / (36525 # 100))%Q (size_mb_of m)).
Proof.
  intros Hsel Hs Hne Hd. revert Hsel.
  unfold matches_criteria, DEFAULT_CRITERIA, is_movie.
  cbn [videos kind_enabled kind_rules enabled rules video_rules].
  unfold get_file_age_years. rewrite Hs, Hd.
  destruct (decide (s = ""%string)); [done|].
  repeat (match goal with |- context [if ?c then _ else _] => destruct c end;
          simpl; try done).
Qed.

(** The candidate loop keeps the records that match, with the reason
    [matches_criteria] gives. *)
Lemma select_candidates_spec (items : list (string * metadata))
    (c : criteria) (f : string) (m : metadata) (r : option reason) :
  (f, m, r) ∈ select_candidates age_days_of items c
  <-> (f, m) ∈ items ∧ matches_criteria age_days_of m c = (true, r).
Proof.
  induction items as [|[f' m'] items IH].
  - simpl. split; [intros H; inversion H|]. intros [H _]. inversion H.
  - cbn [select_candidates].
    destruct (matches_criteria age_days_of m' c) as [[] r'] eqn:Hm.
    + rewrite !elem_of_cons, IH. split.
      * intros [[= -> -> ->]|[Hin Hrest]]; [by split; [left|]|].
        split; [by right | exact Hrest].
      * intros [[[= -> ->]|Hin] Hrest]; [left; congruence | by right].
    + rewrite IH, elem_of_cons. split.
      * intros [Hin Hrest]. split; [by right | exact Hrest].
      * intros [[[= -> ->]|Hin] Hrest]; [congruence | done].
Qed.

(** Under [DEFAULT_CRITERIA] the candidates selected from an index are
    exactly its records that are a movie whose creation date parses to
    an age of at least 731 days and whose size is at least 104,857,600
    bytes, each with the reason of the age-and-size rule. *)
Theorem default_rules_in_days_and_bytes (items : list (string * metadata))
    (f : string) (m : metadata) (r : option reason) :
  (f, m, r) ∈ select_candidates age_days_of items DEFAULT_CRITERIA
  <-> (f, m) ∈ items
      ∧ m_item_type m = Some "movie"%string
      ∧ ∃ s d, m_created m = Some s ∧ s ≠ ""%string
               ∧ age_days_of s = Some d
               ∧ 731 <= d
               ∧ 104857600 <= default 0 (m_size m)
               ∧ r = Some (Old_large_video (inject_Z d / (36525 # 100))%Q
                             (size_mb_of m)).
Proof.
  rewrite select_candidates_spec. split.
  - intros [Hin Hm]. split; [exact Hin|].
    assert (Hsel : fst (matches_criteria age_days_of m DEFAULT_CRITERIA)
                   = true) by (by rewrite Hm).
    pose proof Hsel as Hsel'.
    apply default_rules_decoded in Hsel'
      as (Hmovie & s & d & Hs & Hne & Hd & Hage & Hsize).
    split; [exact Hmovie|]. exists s, d. repeat split; try done.
    rewrite <- (selected_reason m s d Hsel Hs Hne Hd). by rewrite Hm.
  - intros (Hin & Hmovie & s & d & Hs & Hne & Hd & Hage & Hsize & ->).
    split; [exact Hin|].
    assert (Hsel : fst (matches_criteria age_days_of m DEFAULT_CRITERIA)
                   = true).
    { apply default_rules_decoded. split; [exact Hmovie|]. by exists s, d. }
    rewrite <- (selected_reason m s d Hsel Hs Hne Hd).
    rewrite <- Hsel. by destruct (matches_criteria _ _ _).
Qed.

(** delete_by_criteria.py calls [delete()] only on filenames that the
    index records as such a movie: never on a photo, on a record with a
    missing or unreadable date, on a movie younger than 731 days or
    smaller than 104,857,600 bytes. *)
Theorem only_selected_movies_deleted (e : env)
    (file : option Deletion.progress_t) (f : string) :
  f ∈ Deletion.attempted (Deletion.r_trace (main age_days_of e file)) ->
  ∃ items m s d,
    index_metadata e = Some items
    ∧ (f, m) ∈ items
    ∧ m_item_type m = Some "movie"%string
    ∧ m_created m = Some s ∧ age_days_of s = Some d
    ∧ 731 <= d
    ∧ 104857600 <= default 0 (m_size m).
Proof.
  intros Hf. unfold main in Hf.
  destruct (index_metadata e) as [items|]; [|inversion Hf].
  repeat (case_match; [inversion Hf|]).
  eapply prefix_of_filter_elem in Hf; [|apply engine_attempted].
  apply list_elem_of_fmap in Hf as ([[f' m] r] & -> & Hc).
  unfold remaining_candidates in Hc.
  apply list_elem_of_filter in Hc as [_ Hc].
  apply select_candidates_matches in Hc as [Hm Hin].
  assert (Hsel : fst (matches_criteria age_days_of m DEFAULT_CRITERIA) = true)
    by (by rewrite Hm).
  apply default_rules_decoded in Hsel
    as (Hmovie & s & d & Hs & _ & Hd & Hage & Hsize).
  exists items, m, s, d. simpl. done.
Qed.

End Selector_more.

(** The 200 MB video A of the scenario, 1097 days old, is selected. *)
Lemma default_rules_in_days_and_bytes_witness :
  ("A.mov"%string, Scenarios.ABC.A,
   Some (Delete_by_criteria.Old_large_video
           (inject_Z 1097 / (36525 # 100))%Q
           (Delete_by_criteria.size_mb_of Scenarios.ABC.A)))
  ∈ Delete_by_criteria.select_candidates Scenarios.ABC.age_days_of
      Scenarios.ABC.index_metadata Delete_by_criteria.DEFAULT_CRITERIA.
Proof.
  apply (default_rules_in_days_and_bytes Scenarios.ABC.age_days_of
           Scenarios.ABC.index_metadata "A.mov"%string Scenarios.ABC.A).
  split; [apply list_elem_of_In; simpl; auto|].
  split; [reflexivity|].
  exists "2023-11-03T09:00:00"%string, 1097.
  repeat split; try reflexivity; try discriminate.
Defined.

(** The run of delete_by_criteria.py on the index {A, B, C} with all
    three videos in the library attempts A.mov, which is such a movie. *)
Lemma only_selected_movies_deleted_witness :
  ∃ items m s d,
    Delete_by_criteria.index_metadata Scenarios.ABC.e = Some items
    ∧ ("A.mov"%string, m) ∈ items
    ∧ Delete_by_criteria.m_item_type m = Some "movie"%string
    ∧ Delete_by_criteria.m_created m = Some s
    ∧ Scenarios.ABC.age_days_of s = Some d
    ∧ 731 <= d
    ∧ 104857600 <= default 0 (Delete_by_criteria.m_size m).
Proof.
  apply (only_selected_movies_deleted Scenarios.ABC.age_days_of
           Scenarios.ABC.e None "A.mov"%string).
  apply list_elem_of_In. vm_compute. auto.
Defined.

(** * Resuming a download *)

Section Resume_download.
Import Smart_download Observations.

#[local] Set Warnings "-clear-no-such-hyp".

Lemma set_photo_num_same (s : state) : set_photo_num (photo_num s) s = s.
Proof. by destruct s. Qed.

(** The loop on items that are all at or before the resume position. *)
Lemma loop_passes_over (cutoff : option Z) (now : string)
    (start_idx : Z) (pre post : list iteration) (s : state) :
  Forall yields pre ->
  photo_num s + Z.of_nat (length pre) <= start_idx ->
  loop cutoff now start_idx (pre ++ post) s
  = loop cutoff now start_idx post
      (set_photo_num (photo_num s + Z.of_nat (length pre)) s).
Proof.
  revert s. induction pre as [|it pre IH]; intros s Hall Hle.
  - simpl. by rewrite Z.add_0_r, set_photo_num_same.
  - apply Forall_cons in Hall as [Hit Hall].
    destruct it as [ph|e]; [|done]. cbn [app loop length] in *.
    replace (photo_num (set_photo_num (photo_num s + 1) s) <=? start_idx)
      with true by (symmetry; apply Z.leb_le; simpl; lia).
    rewrite IH; [|exact Hall|simpl; lia].
    f_equal. unfold set_photo_num. simpl. f_equal. lia.
Qed.

(** Items at or before the resume position are passed over unread: not
    even their filename is accessed, and only the position counter
    moves.  So the run does not depend on what these handles are, only
    on how many they are. *)
Theorem resume_skips_unread (cutoff : option Z) (now : string)
    (start_idx : Z) (pre pre' post : list iteration) (s : state) :
  Forall yields pre ->
  Forall yields pre' ->
  length pre' = length pre ->
  photo_num s + Z.of_nat (length pre) <= start_idx ->
  loop cutoff now start_idx (pre ++ post) s
  = loop cutoff now start_idx post
      (set_photo_num (photo_num s + Z.of_nat (length pre)) s)
  ∧ loop cutoff now start_idx (pre' ++ post) s
    = loop cutoff now start_idx (pre ++ post) s.
Proof.
  intros Hpre Hpre' Hlen Hle.
  rewrite (loop_passes_over _ _ _ pre post s Hpre Hle).
  split; [reflexivity|].
  rewrite (loop_passes_over _ _ _ pre' post s Hpre') by (rewrite Hlen; lia).
  by rewrite Hlen.
Qed.

(** *** The position counter *)

Lemma fetch_photo_num (now : string) (filename : string) (ph : photo)
    (s : state) :
  photo_num (fst (fetch now filename ph s)) = photo_num s.
Proof.
  unfold fetch. destruct (ph_created ph) as [created|]; [|done].
  destruct (file_exists_and_valid _ s); [done|].
  destruct (download_frame ph (output_path created filename) s)
    as (t & F & Hfst & _).
  destruct (download_photo_with_retry _ _ _ s) as [s1 [success|e]];
    simpl in Hfst; subst s1; [|done].
  destruct success;
    match goal with |- context [if ?c then _ else _] => destruct c end;
    reflexivity.
Qed.

Lemma detect_cycling_photo_num (now : string) (filename : string)
    (ph : photo) (s : state) :
  photo_num (fst (detect_cycling now filename ph s)) = photo_num s.
Proof.
  unfold detect_cycling.
  destruct (bool_decide (filename ∈ seen_filenames s)).
  { match goal with |- context [if ?c then _ else _] => destruct c end;
      reflexivity. }
  match goal with |- context [if ?c then _ else _] => destruct c end;
    [reflexivity|].
  by rewrite fetch_photo_num.
Qed.

Lemma try_body_photo_num (cutoff : option Z) (now : string) (ph : photo)
    (s : state) :
  photo_num (fst (try_body cutoff now ph s)) = photo_num s.
Proof.
  unfold try_body. destruct (ph_filename ph) as [filename|e]; [|done].
  destruct cutoff as [cutoff_date|];
    [|by rewrite detect_cycling_photo_num].
  destruct (photo_date ph) as [d|];
    [|by rewrite detect_cycling_photo_num].
  destruct (instant d <? cutoff_date);
    [|by rewrite detect_cycling_photo_num].
  match goal with |- context [if ?c then _ else _] => destruct c end;
    reflexivity.
Qed.

(** A loop that ran out of items has counted every one of them. *)
Lemma loop_exhausted_position (cutoff : option Z) (now : string)
    (start_idx : Z) (album : list iteration) :
  ∀ s s', loop cutoff now start_idx album s = (s', Exhausted) ->
          photo_num s' = photo_num s + Z.of_nat (length album).
Proof.
  induction album as [|it album IH]; intros s s' Hloop.
  - simpl in Hloop. injection Hloop as <-. simpl. lia.
  - destruct it as [ph|e]; [|discriminate]. cbn [loop] in Hloop.
    cbn [length]. rewrite Nat2Z.inj_succ.
    set (s0 := set_photo_num (photo_num s + 1) s) in *.
    assert (H0 : photo_num s0 = photo_num s + 1) by reflexivity.
    destruct (photo_num s0 <=? start_idx).
    { apply IH in Hloop. lia. }
    pose proof (try_body_photo_num cutoff now ph s0) as H1.
    destruct (try_body cutoff now ph s0) as [s1 [| |[]]]; simpl in H1;
      try discriminate; apply IH in Hloop; simpl in Hloop; lia.
Qed.

Lemma loop_exhausted_eq (cutoff : option Z) (now : string) (start_idx : Z)
    (album : list iteration) (s : state) :
  snd (loop cutoff now start_idx album s) = Exhausted ->
  loop cutoff now start_idx album s
  = (fst (loop cutoff now start_idx album s), Exhausted).
Proof. destruct (loop cutoff now start_idx album s). simpl. by intros ->. Qed.




End Resume_download.

(** Resuming at position 2: the first two handles, one of them with an
    unreadable filename, are passed over. *)
Lemma resume_skips_unread_witness :
  let unreadable :=
    {| Smart_download.ph_filename := Raise Exception;
       Smart_download.ph_size := None;
       Smart_download.ph_created := None;
       Smart_download.ph_asset_date := None;
       Smart_download.ph_added_date := None;
       Smart_download.ph_dimensions := None;
       Smart_download.ph_item_type := None;
       Smart_download.ph_id := None;
       Smart_download.ph_location := None;
       Smart_download.ph_download := Scenarios.Download.succeeds |} in
  let pre := [Smart_download.Yield unreadable;
              Smart_download.Yield
                (Scenarios.Download.shot "x.jpg" Scenarios.Download.succeeds)] in
  let post := [Smart_download.Yield
                 (Scenarios.Download.shot "y.jpg" Scenarios.Download.succeeds)] in
  Smart_download.loop None "t"%string 2 (pre ++ post) Scenarios.Download.start
  = Smart_download.loop None "t"%string 2 post
      (Smart_download.set_photo_num
         (Smart_download.photo_num Scenarios.Download.start
          + Z.of_nat (length pre)) Scenarios.Download.start).
Proof.
  intros unreadable pre post.
  apply (resume_skips_unread None "t"%string 2 pre
           [Smart_download.Yield
              (Scenarios.Download.shot "a.jpg" Scenarios.Download.succeeds);
            Smart_download.Yield
              (Scenarios.Download.shot "b.jpg" Scenarios.Download.succeeds)]
           post Scenarios.Download.start).
  - repeat constructor.
  - repeat constructor.
  - reflexivity.
  - simpl. lia.
Defined.

Section Second_run.
Import Smart_download Observations.




End Second_run.


(** * Interrupts during a download run *)

Section Interrupts.
Import Smart_download Observations.

Lemma pair_by_snd {A B : Type} (x : A * B) (b : B) :
  snd x = b -> x = (fst x, b).
Proof. destruct x. simpl. by intros ->. Qed.

Lemma loop_exhausted_yields (cutoff : option Z) (now : string)
    (start_idx : Z) (album : list iteration) :
  ∀ s s', loop cutoff now start_idx album s = (s', Exhausted) ->
          Forall yields album.
Proof.
  induction album as [|it album IH]; intros s s' Hloop; [constructor|].
  destruct it as [ph|e]; [|discriminate]. cbn [loop] in Hloop.
  constructor; [exact I|].
  destruct (photo_num (set_photo_num (photo_num s + 1) s) <=? start_idx);
    [by eapply IH|].
  destruct (try_body cutoff now ph (set_photo_num (photo_num s + 1) s))
    as [s1 [| |[]]]; try discriminate; by eapply IH.
Qed.

(** An interrupt inside the body of the loop, at the item that follows
    [pre]: [main] exits with status 0 after saving the loop's variables
    as they stand, with the position of the interrupted item as resume
    position.  The next run over the same album therefore passes over
    the interrupted item together with those before it. *)
Theorem interrupt_in_body_saves_position (e e2 : env) (w : world)
    (pre post : list iteration) (ph : photo) (s0 s1 : state) :
  authenticated e = true ->
  photos_album e = pre ++ Yield ph :: post ->
  loop (recent e) (now e) (last_index (load_progress (w_progress w)))
    pre (initial_state e w) = (s0, Exhausted) ->
  last_index (load_progress (w_progress w)) < photo_num s0 + 1 ->
  try_body (recent e) (now e) ph (set_photo_num (photo_num s0 + 1) s0)
    = (s1, Raised KeyboardInterrupt) ->
  photos_album e2 = photos_album e ->
  let r := main e w in
  let resume := Z.of_nat (length pre) + 1 in
  r_exit r = Exit 0
  ∧ w_progress (r_world r) = Some (progress_doc s1)
  ∧ last_index (progress_doc s1) = resume
  ∧ w_files (r_world r) = files s1
  ∧ loop (recent e2) (now e2) resume (photos_album e2)
      (initial_state e2 (r_world r))
    = loop (recent e2) (now e2) resume post
        (set_photo_num resume (initial_state e2 (r_world r))).
Proof.
  intros Hauth Halbum Hpre Hlt Hbody Halbum2 r resume.
  pose proof (loop_exhausted_position _ _ _ _ _ _ Hpre) as Hpos.
  change (photo_num (initial_state e w)) with 0 in Hpos.
  pose proof (try_body_photo_num (recent e) (now e) ph
                (set_photo_num (photo_num s0 + 1) s0)) as Hnum.
  rewrite Hbody in Hnum. cbn [fst set_photo_num photo_num] in Hnum.
  assert (Hmain : main e w
                  = finish (checkpoint_index (checkpoint_progress s1))
                      (Exit 0)).
  { unfold main. rewrite Hauth, Halbum. cbn [negb].
    change (last_index (progress (initial_state e w)))
      with (last_index (load_progress (w_progress w))).
    rewrite loop_app, Hpre. cbn [loop].
    replace (photo_num (set_photo_num (photo_num s0 + 1) s0)
             <=? last_index (load_progress (w_progress w)))
      with false by (symmetry; apply Z.leb_gt; simpl; lia).
    rewrite Hbody. reflexivity. }
  subst r. rewrite Hmain.
  split; [reflexivity|]. split; [reflexivity|].
  split; [unfold progress_doc, resume; simpl; lia|].
  split; [reflexivity|].
  rewrite Halbum2, Halbum.
  change (pre ++ Yield ph :: post) with (pre ++ [Yield ph] ++ post).
  rewrite (assoc_L (++)).
  rewrite loop_passes_over.
  - f_equal. rewrite length_app. simpl.
    unfold set_photo_num. simpl. f_equal. unfold resume. lia.
  - apply Forall_app. split; [|by repeat constructor].
    by eapply loop_exhausted_yields.
  - rewrite length_app. simpl. unfold resume. lia.
Qed.

End Interrupts.

(** y.jpg is downloaded, then the download of z.jpg is interrupted: the
    run saves position 2, and the next run resumes after z.jpg. *)
Lemma interrupt_in_body_saves_position_witness :
  let e :=
    {| Smart_download.recent := None;
       Smart_download.now := "2026-11-04T08:00:00"%string;
       Smart_download.authenticated := true;
       Smart_download.photos_album :=
         [Smart_download.Yield
            (Scenarios.Download.shot "y.jpg" Scenarios.Download.succeeds)]
         ++ Smart_download.Yield
              (Scenarios.Download.shot "z.jpg" (λ _, Raise KeyboardInterrupt))
            :: [Smart_download.Yield
                  (Scenarios.Download.shot "w.jpg" Scenarios.Download.succeeds)] |} in
  let r := Smart_download.main e Scenarios.Download.nothing in
  Smart_download.r_exit r = Exit 0
  ∧ (Smart_download.last_index <$> Smart_download.w_progress
                                     (Smart_download.r_world r)) = Some 2.
Proof.
  intros e.
  assert (Hpre :
    Smart_download.loop (Smart_download.recent e) (Smart_download.now e)
      (Smart_download.last_index
         (Smart_download.load_progress
            (Smart_download.w_progress Scenarios.Download.nothing)))
      [Smart_download.Yield
         (Scenarios.Download.shot "y.jpg" Scenarios.Download.succeeds)]
      (Smart_download.initial_state e Scenarios.Download.nothing)
    = (fst (Smart_download.loop (Smart_download.recent e)
              (Smart_download.now e)
              (Smart_download.last_index
                 (Smart_download.load_progress
                    (Smart_download.w_progress Scenarios.Download.nothing)))
              [Smart_download.Yield
                 (Scenarios.Download.shot "y.jpg" Scenarios.Download.succeeds)]
              (Smart_download.initial_state e Scenarios.Download.nothing)),
       Smart_download.Exhausted)).
  { apply loop_exhausted_eq. vm_compute. reflexivity. }
  set (s0 := fst (Smart_download.loop _ _ _ _ _)) in Hpre.
  assert (Hbody :
    Smart_download.try_body (Smart_download.recent e) (Smart_download.now e)
      (Scenarios.Download.shot "z.jpg" (λ _, Raise KeyboardInterrupt))
      (Smart_download.set_photo_num (Smart_download.photo_num s0 + 1) s0)
    = (fst (Smart_download.try_body (Smart_download.recent e)
              (Smart_download.now e)
              (Scenarios.Download.shot "z.jpg" (λ _, Raise KeyboardInterrupt))
              (Smart_download.set_photo_num
                 (Smart_download.photo_num s0 + 1) s0)),
       Smart_download.Raised KeyboardInterrupt)).
  { apply pair_by_snd. vm_compute. reflexivity. }
  assert (Hlt : Smart_download.last_index
                  (Smart_download.load_progress
                     (Smart_download.w_progress Scenarios.Download.nothing))
                < Smart_download.photo_num s0 + 1)
    by (vm_compute; reflexivity).
  destruct (interrupt_in_body_saves_position e e Scenarios.Download.nothing
              _ _ _ s0 _ eq_refl eq_refl Hpre Hlt Hbody eq_refl)
    as (Hexit & Hprogress & Hlast & _).
  split; [exact Hexit|]. rewrite Hprogress.
  cbn [fmap option_fmap option_map]. by rewrite Hlast.
Defined.

(** y.jpg is downloaded, then the iterator is interrupted: [main] ends
    with the state the loop had reached, through no handler. *)
Lemma interrupt_while_advancing_witness :
  let e :=
    {| Smart_download.recent := None;
       Smart_download.now := "2026-11-04T08:00:00"%string;
       Smart_download.authenticated := true;
       Smart_download.photos_album :=
         [Smart_download.Yield
            (Scenarios.Download.shot "y.jpg" Scenarios.Download.succeeds)]
         ++ Smart_download.IterRaise KeyboardInterrupt :: [] |} in
  ∃ s, Smart_download.main e Scenarios.Download.nothing
       = Smart_download.finish s (Uncaught KeyboardInterrupt)
       ∧ Smart_download.saves (Smart_download.trace s) = [].
Proof.
  intros e.
  assert (Hpre :
    Smart_download.loop (Smart_download.recent e) (Smart_download.now e)
      (Smart_download.last_index
         (Smart_download.load_progress
            (Smart_download.w_progress Scenarios.Download.nothing)))
      [Smart_download.Yield
         (Scenarios.Download.shot "y.jpg" Scenarios.Download.succeeds)]
      (Smart_download.initial_state e Scenarios.Download.nothing)
    = (fst (Smart_download.loop (Smart_download.recent e)
              (Smart_download.now e)
              (Smart_download.last_index
                 (Smart_download.load_progress
                    (Smart_download.w_progress Scenarios.Download.nothing)))
              [Smart_download.Yield
                 (Scenarios.Download.shot "y.jpg" Scenarios.Download.succeeds)]
              (Smart_download.initial_state e Scenarios.Download.nothing)),
       Smart_download.Exhausted)).
  { apply loop_exhausted_eq. vm_compute. reflexivity. }
  eexists. split.
  - exact (interrupt_while_advancing e Scenarios.Download.nothing _ _ _
             eq_refl eq_refl Hpre).
  - vm_compute. reflexivity.
Defined.

(** * Bounds on the retry loop *)

Section Retry_bounds.
Import Smart_download Observations.

Lemma count_attempts_app (l1 l2 : list event) :
  count_attempts (l1 ++ l2) = (count_attempts l1 + count_attempts l2)%nat.
Proof.
  induction l1 as [|e l1 IH]; [reflexivity|].
  destruct e; simpl; rewrite IH; reflexivity.
Qed.

Lemma sleep_seconds_app (l1 l2 : list event) :
  sleep_seconds (l1 ++ l2) = sleep_seconds l1 ++ sleep_seconds l2.
Proof.
  induction l1 as [|e l1 IH]; [reflexivity|].
  destruct e; simpl; rewrite IH; reflexivity.
Qed.

(** The loop over the attempts [a, a+1, .., a+k-1] of a call with
    [max_retries = a + k]. *)
Lemma retry_loop_counts (ph : photo) (path : string) (k : nat) :
  ∀ (a : nat) (s : state),
    let r := retry_loop ph path (Z.of_nat (a + k))
               (map Z.of_nat (seq a k)) s in
    ∃ t, trace (fst r) = trace s ++ t
         ∧ (count_attempts t <= k)%nat
         ∧ (k ≠ 0%nat -> (1 <= count_attempts t)%nat)
         ∧ sleep_seconds t = replicate (count_attempts t - 1) RETRY_DELAY
         ∧ (snd r = Ok true -> path ∈ files (fst r))
         ∧ (snd r = Ok false ->
            files (fst r) = files s ∧ count_attempts t = k)
         ∧ snd r ≠ Raise Exception.
Proof.
  induction k as [|k IH]; intros a s r.
  - exists []. subst r. simpl. rewrite app_nil_r.
    repeat split; try done.
  - subst r. cbn [seq map retry_loop].
    destruct (ph_download ph (Z.of_nat a)) as [[]|[]].
    + exists [EvAttempt path]. simpl. repeat split; try done; try lia.
      intros _. apply elem_of_union. left. by apply elem_of_singleton.
    + exists [EvAttempt path]. simpl. repeat split; try done; lia.
    + cbn [caught_by_except_Exception].
      destruct (Z.of_nat a <? Z.of_nat (a + S k) - 1) eqn:E.
      * apply Z.ltb_lt in E. assert (Hk : k ≠ 0%nat) by lia.
        replace (a + S k)%nat with (S a + k)%nat by lia.
        destruct (IH (S a) (emit (EvSleep RETRY_DELAY)
                              (emit (EvAttempt path) s)))
          as (t & Ht & Hle & Hge & Hsl & Htrue & Hfalse & Hne).
        specialize (Hge Hk).
        exists ([EvAttempt path; EvSleep RETRY_DELAY] ++ t).
        split; [|split; [|split; [|split; [|split; [|split]]]]].
        -- rewrite Ht. simpl. by rewrite <- !app_assoc.
        -- simpl. lia.
        -- simpl. lia.
        -- simpl. rewrite Hsl.
           replace (count_attempts t - 0)%nat
             with (S (count_attempts t - 1)) by lia.
           reflexivity.
        -- exact Htrue.
        -- intros Hr. destruct (Hfalse Hr) as [Hfiles Hcount].
           split; [exact Hfiles | simpl; lia].
        -- exact Hne.
      * apply Z.ltb_ge in E. assert (Hk : k = 0%nat) by lia. subst k.
        exists [EvAttempt path]. simpl. repeat split; try done; lia.
Qed.

(** Whatever the outcomes of the attempts, a call of
    [download_photo_with_retry] calls [photo.download()] at most
    [max_retries] times (not at all when [max_retries <= 0]) and sleeps
    [RETRY_DELAY] seconds between consecutive calls only: never before
    the first call nor after the last.  It returns [True] only after a
    call, [False] only after all [max_retries] calls, and it never lets
    an [Exception] out. *)
Theorem retry_bounds (ph : photo) (path : string) (max_retries : Z)
    (s : state) :
  let r := download_photo_with_retry ph path max_retries s in
  ∃ t, trace (fst r) = trace s ++ t
       ∧ (count_attempts t <= Z.to_nat max_retries)%nat
       ∧ sleep_seconds t = replicate (count_attempts t - 1) RETRY_DELAY
       ∧ (snd r = Ok true -> (1 <= count_attempts t)%nat)
       ∧ (snd r = Ok false -> count_attempts t = Z.to_nat max_retries)
       ∧ snd r ≠ Raise Exception.
Proof.
  intros r. subst r. unfold download_photo_with_retry, range.
  destruct (decide (max_retries <= 0)) as [Hle|Hgt].
  - replace (Z.to_nat max_retries) with 0%nat by lia.
    exists []. simpl. rewrite app_nil_r. repeat split; done.
  - pose proof (retry_loop_counts ph path (Z.to_nat max_retries) 0 s) as H.
    cbn zeta in H. rewrite Nat.add_0_l, Z2Nat.id in H by lia.
    destruct H as (t & Ht & Hle & Hge & Hsl & _ & Hfalse & Hne).
    exists t. split; [exact Ht|]. split; [exact Hle|]. split; [exact Hsl|].
    split; [intros _; apply Hge; lia|].
    split; [intros Hr; by apply Hfalse | exact Hne].
Qed.

End Retry_bounds.

(** A download that fails twice and then succeeds: three calls and two
    delays of 5 seconds. *)
Lemma retry_bounds_witness :
  let ph := Scenarios.Download.shot "f.jpg"
              (λ k, if k <? 2 then Raise Exception else Ok tt) in
  let r := Smart_download.download_photo_with_retry ph "2024/01/f.jpg"%string
             3 Scenarios.Download.start in
  ∃ t, Smart_download.trace (fst r)
       = Smart_download.trace Scenarios.Download.start ++ t
       ∧ (1 <= Observations.count_attempts t <= 3)%nat
       ∧ Observations.sleep_seconds t
         = replicate (Observations.count_attempts t - 1) 5.
Proof.
  intros ph r.
  destruct (retry_bounds ph "2024/01/f.jpg"%string 3
              Scenarios.Download.start)
    as (t & Ht & Hle & Hsl & Htrue & _).
  exists t. split; [exact Ht|]. split; [|exact Hsl].
  split; [|exact Hle]. apply Htrue. vm_compute. reflexivity.
Defined.

(** * The end of the library in smart_download.py *)

Section Download_cycle.
Import Smart_download Observations.

#[local] Set Warnings "-clear-no-such-hyp".

Lemma new_filenames_app (l1 l2 : list event) :
  new_filenames (l1 ++ l2) = new_filenames l1 ++ new_filenames l2.
Proof.
  induction l1 as [|e l1 IH]; [reflexivity|].
  destruct e; simpl; rewrite IH; reflexivity.
Qed.

Lemma retry_loop_not_interrupted (ph : photo) (path : string)
    (max_retries : Z) (attempts : list Z) (s : state) :
  never_interrupted ph ->
  ∃ success, snd (retry_loop ph path max_retries attempts s) = Ok success.
Proof.
  intros Hph. revert s. induction attempts as [|a attempts IH]; intros s.
  - by exists false.
  - cbn [retry_loop]. pose proof (Hph a) as Ha.
    destruct (ph_download ph a) as [[]|[]]; [by exists true | done |].
    simpl. destruct (a <? max_retries - 1); [apply IH | by exists false].
Qed.

(** What [fetch] leaves of the components that decide the end of the
    enumeration. *)
Lemma fetch_view (now : string) (filename : string) (ph : photo) (s : state) :
  never_interrupted ph ->
  ∃ s' b, fetch now filename ph s = (s', b)
          ∧ (b = Next ∨ b = Raised Exception)
          ∧ photo_num s' = photo_num s
          ∧ seen_filenames s' = seen_filenames s
          ∧ consecutive_duplicates s' = consecutive_duplicates s
          ∧ new_filenames (trace s') = new_filenames (trace s).
Proof.
  intros Hph. unfold fetch.
  destruct (ph_created ph) as [created|].
  2:{ exists s, (Raised Exception). auto 10. }
  destruct (file_exists_and_valid _ s).
  { eexists _, Next. split; [reflexivity|]. auto 10. }
  destruct (download_frame ph (output_path created filename) s)
    as (t & F & Hfst & _ & Hnew).
  destruct (retry_loop_not_interrupted ph (output_path created filename)
              RETRY_ATTEMPTS (range RETRY_ATTEMPTS) s Hph) as [success Hok].
  fold (download_photo_with_retry ph (output_path created filename)
          RETRY_ATTEMPTS s) in Hok.
  destruct (download_photo_with_retry _ _ _ s) as [s1 r];
    simpl in Hfst, Hok; subst s1 r.
  eexists _, Next. split; [reflexivity|]. split; [by left|].
  destruct success;
    match goal with |- context [if ?c then _ else _] => destruct c end;
    simpl; rewrite ?new_filenames_app, ?Hnew; simpl;
    rewrite ?app_nil_r; auto.
Qed.

(** One step of the loop on a filename not seen yet. *)
Lemma loop_step_new (now : string) (start_idx : Z) (ph : photo)
    (filename : string) (rest : list iteration) (s : state) :
  ph_filename ph = Ok filename ->
  never_interrupted ph ->
  filename ∉ seen_filenames s ->
  start_idx <= photo_num s ->
  ∃ s', loop None now start_idx (Yield ph :: rest) s
        = loop None now start_idx rest s'
        ∧ photo_num s' = photo_num s + 1
        ∧ seen_filenames s' = {[filename]} ∪ seen_filenames s
        ∧ consecutive_duplicates s' = 0
        ∧ new_filenames (trace s') = new_filenames (trace s) ++ [filename].
Proof.
  intros Hname Hph Hseen Hidx. cbn [loop].
  set (s0 := set_photo_num (photo_num s + 1) s).
  replace (photo_num s0 <=? start_idx) with false
    by (symmetry; apply Z.leb_gt; simpl; lia).
  unfold try_body. rewrite Hname. unfold detect_cycling.
  rewrite bool_decide_eq_false_2 by exact Hseen.
  match goal with |- context [if ?c then _ else _] => destruct c end.
  - eexists. split; [reflexivity|]. simpl.
    rewrite new_filenames_app. auto.
  - match goal with |- context [fetch now filename ph ?x] =>
      destruct (fetch_view now filename ph x Hph)
        as (s' & b & -> & Hb & H1 & H2 & H3 & H4) end.
    simpl in H1, H2, H3, H4. rewrite new_filenames_app in H4.
    destruct Hb as [-> | ->].
    + exists s'. auto.
    + eexists. split; [reflexivity|]. simpl. auto.
Qed.

(** One step of the loop on a filename already seen. *)
Lemma loop_step_seen (now : string) (start_idx : Z) (ph : photo)
    (filename : string) (rest : list iteration) (s : state) :
  ph_filename ph = Ok filename ->
  filename ∈ seen_filenames s ->
  start_idx <= photo_num s ->
  let s' := set_consecutive_duplicates (consecutive_duplicates s + 1)
              (set_photo_num (photo_num s + 1) s) in
  loop None now start_idx (Yield ph :: rest) s
  = if MAX_CONSECUTIVE_DUPLICATES <? consecutive_duplicates s + 1
    then (s', Broke)
    else loop None now start_idx rest s'.
Proof.
  intros Hname Hseen Hidx s'. cbn [loop].
  replace (photo_num (set_photo_num (photo_num s + 1) s) <=? start_idx)
    with false by (symmetry; apply Z.leb_gt; simpl; lia).
  unfold try_body. rewrite Hname. unfold detect_cycling.
  rewrite bool_decide_eq_true_2 by exact Hseen.
  cbn [set_consecutive_duplicates consecutive_duplicates set_photo_num].
  destruct (MAX_CONSECUTIVE_DUPLICATES <? consecutive_duplicates s + 1);
    reflexivity.
Qed.

Lemma download_loop_new (now : string) (start_idx : Z)
    (phs : list photo) (fs : list string) :
  Forall2 (λ ph f, ph_filename ph = Ok f) phs fs ->
  Forall never_interrupted phs ->
  NoDup fs ->
  ∀ s : state,
    (∀ f, f ∈ fs -> f ∉ seen_filenames s) ->
    start_idx <= photo_num s ->
    ∃ s', loop None now start_idx (map Yield phs) s = (s', Exhausted)
          ∧ photo_num s' = photo_num s + Z.of_nat (length fs)
          ∧ seen_filenames s' = list_to_set fs ∪ seen_filenames s
          ∧ consecutive_duplicates s'
            = (if decide (fs = []) then consecutive_duplicates s else 0)
          ∧ new_filenames (trace s') = new_filenames (trace s) ++ fs.
Proof.
  induction 1 as [|ph f phs fs Hph Hrest IH]; intros Hni Hnd s Hfresh Hidx.
  - exists s. simpl. rewrite app_nil_r. repeat split; [lia|set_solver].
  - apply NoDup_cons in Hnd as [Hf Hnd].
    apply Forall_cons in Hni as [Hni1 Hni].
    cbn [map].
    destruct (loop_step_new now start_idx ph f (map Yield phs) s Hph Hni1)
      as (s1 & -> & Hn1 & Hs1 & Hc1 & Ht1); [apply Hfresh; left | exact Hidx |].
    destruct (IH Hni Hnd s1) as (s' & Hloop & Hn & Hs & Hcd & Ht).
    + intros g Hg. rewrite Hs1. apply not_elem_of_union. split.
      * apply not_elem_of_singleton. intros ->. done.
      * apply Hfresh. by right.
    + lia.
    + exists s'. split; [exact Hloop|]. simpl.
      rewrite Hn, Hs, Ht, Hn1, Hs1, Ht1.
      repeat split.
      * lia.
      * set_solver.
      * rewrite Hcd, Hc1. by destruct (decide (fs = [])).
      * by rewrite <- app_assoc.
Qed.

Lemma download_loop_repeats_below (now : string) (start_idx : Z)
    (phs : list photo) :
  ∀ s : state,
    Forall (λ ph, ∃ f, f ∈ seen_filenames s ∧ ph_filename ph = Ok f) phs ->
    start_idx <= photo_num s ->
    consecutive_duplicates s + Z.of_nat (length phs)
      <= MAX_CONSECUTIVE_DUPLICATES ->
    ∃ s', loop None now start_idx (map Yield phs) s = (s', Exhausted)
          ∧ photo_num s' = photo_num s + Z.of_nat (length phs)
          ∧ seen_filenames s' = seen_filenames s
          ∧ consecutive_duplicates s'
            = consecutive_duplicates s + Z.of_nat (length phs)
          ∧ new_filenames (trace s') = new_filenames (trace s).
Proof.
  induction phs as [|ph phs IH]; intros s Hall Hidx Hle.
  - exists s. simpl. repeat split; lia.
  - apply Forall_cons in Hall as [(f & Hf & Hph) Hall].
    cbn [map length] in *.
    rewrite (loop_step_seen now start_idx ph f _ s Hph Hf Hidx).
    replace (MAX_CONSECUTIVE_DUPLICATES <? consecutive_duplicates s + 1)
      with false by (symmetry; apply Z.ltb_ge; lia).
    destruct (IH (set_consecutive_duplicates (consecutive_duplicates s + 1)
                    (set_photo_num (photo_num s + 1) s)))
      as (s' & Hloop & Hn & Hs & Hcd & Ht);
      [exact Hall | simpl; lia | simpl; lia |].
    exists s'. split; [exact Hloop|]. simpl in *.
    repeat split; try done; lia.
Qed.

Lemma download_loop_repeats_reach (now : string) (start_idx : Z)
    (phs : list photo) :
  ∀ s : state,
    Forall (λ ph, ∃ f, f ∈ seen_filenames s ∧ ph_filename ph = Ok f) phs ->
    start_idx <= photo_num s ->
    consecutive_duplicates s <= MAX_CONSECUTIVE_DUPLICATES ->
    MAX_CONSECUTIVE_DUPLICATES
      < consecutive_duplicates s + Z.of_nat (length phs) ->
    ∃ s', loop None now start_idx (map Yield phs) s = (s', Broke)
          ∧ photo_num s'
            = photo_num s
              + (MAX_CONSECUTIVE_DUPLICATES + 1 - consecutive_duplicates s)
          ∧ seen_filenames s' = seen_filenames s
          ∧ consecutive_duplicates s' = MAX_CONSECUTIVE_DUPLICATES + 1
          ∧ new_filenames (trace s') = new_filenames (trace s).
Proof.
  induction phs as [|ph phs IH]; intros s Hall Hidx Hle Hgt.
  - simpl in Hgt. lia.
  - apply Forall_cons in Hall as [(f & Hf & Hph) Hall].
    cbn [map length] in *.
    rewrite (loop_step_seen now start_idx ph f _ s Hph Hf Hidx).
    destruct (MAX_CONSECUTIVE_DUPLICATES <? consecutive_duplicates s + 1)
      eqn:E.
    + apply Z.ltb_lt in E. eexists. split; [reflexivity|]. simpl.
      repeat split; lia.
    + apply Z.ltb_ge in E.
      destruct (IH (set_consecutive_duplicates (consecutive_duplicates s + 1)
                      (set_photo_num (photo_num s + 1) s)))
        as (s' & Hloop & Hn & Hs & Hcd & Ht);
        [exact Hall | simpl; lia | simpl; lia | simpl; lia |].
      exists s'. split; [exact Hloop|]. simpl in *.
      repeat split; try done; lia.
Qed.

Lemma download_album_split (stream : nat -> photo) (a b : nat) :
  download_album stream (a + b)
  = map Yield (map stream (seq 0 a)) ++ map Yield (map stream (seq a b)).
Proof.
  unfold download_album. rewrite seq_app, map_app, !map_map. reflexivity.
Qed.

Lemma download_repeats_seen (names : list string) (stream : nat -> photo)
    (s : state) (k : nat) :
  cycles ph_filename names stream ->
  seen_filenames s = list_to_set names ->
  Forall (λ ph, ∃ f, f ∈ seen_filenames s ∧ ph_filename ph = Ok f)
    (map stream (seq (length names) k)).
Proof.
  intros (_ & _ & Hrep) Hs. apply Forall_forall. intros ph Hph.
  apply list_elem_of_fmap in Hph as (i & -> & Hi).
  apply elem_of_seq in Hi as [Hi _].
  destruct (Hrep i Hi) as (f & Hf & Hread).
  exists f. split; [|exact Hread]. rewrite Hs. by apply elem_of_list_to_set.
Qed.

Lemma download_first (names : list string) (stream : nat -> photo) (n : nat) :
  cycles ph_filename names stream ->
  (n <= length names)%nat ->
  Forall2 (λ ph f, ph_filename ph = Ok f)
    (map stream (seq 0 n)) (take n names).
Proof.
  intros (_ & Hfirst & _) Hn.
  replace n with (length (take n names)) at 1 by (rewrite length_take; lia).
  apply (cycles_first (take n names) stream 0).
  intros i f Hi. apply Hfirst.
  apply lookup_take_Some in Hi as [Hi _]. exact Hi.
Qed.

(** The enumeration of smart_download.py without [--recent], started
    with nothing seen, on an iterator that yields distinct filenames and
    then only repeats of them, no download being interrupted: every
    filename is taken as new once, in order, and the loop stops on
    repeat number [MAX_CONSECUTIVE_DUPLICATES + 1], not before. *)
Theorem download_stops_after_threshold (names : list string)
    (stream : nat -> photo) (now : string) (start_idx : Z) (s : state) :
  cycles ph_filename names stream ->
  (∀ i, never_interrupted (stream i)) ->
  seen_filenames s = ∅ ->
  consecutive_duplicates s = 0 ->
  start_idx <= photo_num s ->
  (∀ n, (length names + 501 <= n)%nat ->
        ∃ s', loop None now start_idx (download_album stream n) s
              = (s', Broke)
              ∧ photo_num s' = photo_num s + Z.of_nat (length names) + 501
              ∧ consecutive_duplicates s' = MAX_CONSECUTIVE_DUPLICATES + 1
              ∧ seen_filenames s' = list_to_set names
              ∧ new_filenames (trace s') = new_filenames (trace s) ++ names)
  ∧ (∀ n, (n < length names + 501)%nat ->
          snd (loop None now start_idx (download_album stream n) s)
          = Exhausted).
Proof.
  intros Hcyc Hni Hseen Hcd Hidx.
  assert (Hall : ∀ a k, Forall never_interrupted (map stream (seq a k))).
  { intros a k. apply Forall_forall. intros ph Hph.
    apply list_elem_of_fmap in Hph as (i & -> & _). apply Hni. }
  assert (Hfresh : ∀ fs : list string, ∀ f, f ∈ fs -> f ∉ seen_filenames s).
  { intros fs f _. rewrite Hseen. apply not_elem_of_empty. }
  destruct (download_loop_new now start_idx
              (map stream (seq 0 (length names))) names)
    with (s := s) as (s1 & Hloop1 & Hn1 & Hs1 & Hcd1 & Ht1).
  { replace names with (take (length names) names) at 2
      by apply firstn_all.
    by apply download_first. }
  { apply Hall. }
  { apply Hcyc. }
  { apply Hfresh. }
  { exact Hidx. }
  assert (Hcd1' : consecutive_duplicates s1 = 0).
  { rewrite Hcd1. by destruct (decide (names = [])). }
  assert (Hs1' : seen_filenames s1 = list_to_set names).
  { rewrite Hs1, Hseen. set_solver. }
  split.
  - intros n Hn.
    replace n with (length names + (n - length names))%nat by lia.
    rewrite download_album_split, loop_app, Hloop1.
    destruct (download_loop_repeats_reach now start_idx
                (map stream (seq (length names) (n - length names))) s1)
      as (s' & Hloop & Hn' & Hs' & Hcd' & Ht').
    + by eapply download_repeats_seen.
    + lia.
    + rewrite Hcd1'. unfold MAX_CONSECUTIVE_DUPLICATES. lia.
    + rewrite Hcd1', !length_map, length_seq.
      unfold MAX_CONSECUTIVE_DUPLICATES. lia.
    + exists s'. split; [exact Hloop|].
      rewrite Hn', Hn1, Hcd1', Hcd', Hs', Hs1', Ht', Ht1.
      unfold MAX_CONSECUTIVE_DUPLICATES. repeat split; lia.
  - intros n Hn. destruct (decide (n <= length names)%nat) as [Hle|Hgt].
    + destruct (download_loop_new now start_idx
                  (map stream (seq 0 n)) (take n names))
        with (s := s) as (s' & Hloop & _).
      * by apply download_first.
      * apply Hall.
      * apply (sublist_NoDup (take n names) names), sublist_take.
        apply Hcyc.
      * apply Hfresh.
      * exact Hidx.
      * replace (download_album stream n)
          with (map Yield (map stream (seq 0 n)))
          by (unfold download_album; by rewrite map_map).
        by rewrite Hloop.
    + replace n with (length names + (n - length names))%nat by lia.
      rewrite download_album_split, loop_app, Hloop1.
      destruct (download_loop_repeats_below now start_idx
                  (map stream (seq (length names) (n - length names))) s1)
        as (s' & Hloop & _).
      * by eapply download_repeats_seen.
      * lia.
      * rewrite Hcd1', !length_map, length_seq.
        unfold MAX_CONSECUTIVE_DUPLICATES. lia.
      * by rewrite Hloop.
Qed.

End Download_cycle.

Lemma ten_photos_cycle :
  Observations.cycles Smart_download.ph_filename
    Scenarios.Download.ten Scenarios.Download.cycling.
Proof.
  split; [|split].
  - apply (bool_decide_unpack (NoDup Scenarios.Download.ten)).
    vm_compute. exact I.
  - intros i f Hi.
    do 10 (destruct i as [|i]; [injection Hi as <-; reflexivity|]).
    discriminate.
  - intros i Hi. exists (nth (i mod 10) Scenarios.Download.ten ""%string).
    split; [|reflexivity].
    assert (Hlt : (i mod 10 < 10)%nat) by (apply Nat.mod_upper_bound; lia).
    revert Hlt. generalize (i mod 10)%nat. intros k Hk.
    do 10 (destruct k as [|k];
           [apply list_elem_of_In; simpl; auto 12|]).
    lia.
Qed.

(** On the library of ten photos the loop of a first run stops at item
    511, on the 501st consecutive repeat. *)
Lemma download_stops_after_threshold_witness :
  ∃ s', Smart_download.loop None "2026-11-04T08:00:00"%string 0
          (Observations.download_album Scenarios.Download.cycling 600)
          Scenarios.Download.start = (s', Smart_download.Broke)
        ∧ Smart_download.photo_num s' = 511
        ∧ Smart_download.consecutive_duplicates s' = 501
        ∧ Smart_download.new_filenames (Smart_download.trace s')
          = Scenarios.Download.ten.
Proof.
  destruct (download_stops_after_threshold Scenarios.Download.ten
              Scenarios.Download.cycling "2026-11-04T08:00:00"%string 0
              Scenarios.Download.start) as [Hstop _].
  - exact ten_photos_cycle.
  - intros i k. discriminate.
  - reflexivity.
  - reflexivity.
  - simpl. lia.
  - destruct (Hstop 600%nat) as (s' & Hloop & Hn & Hcd & _ & Ht);
      [simpl; lia|].
    exists s'. auto.
Defined.

(** * Each filename is taken once *)

Section Fetch_once.
Import Smart_download Observations.

#[local] Set Warnings "-clear-no-such-hyp".

Lemma extends_refl (s : state) : extends s s.
Proof.
  exists []. rewrite app_nil_r. simpl. split; [done|]. split; [set_solver|].
  split; [constructor|]. split; [set_solver|]. intros p Hp. inversion Hp.
Qed.

Lemma extends_trans (s1 s2 s3 : state) :
  extends s1 s2 -> extends s2 s3 -> extends s1 s3.
Proof.
  intros (t1 & Ht1 & Hs1 & Hnd1 & Hf1 & Ha1) (t2 & Ht2 & Hs2 & Hnd2 & Hf2 & Ha2).
  exists (t1 ++ t2). unfold fetches_once.
  rewrite Ht2, Ht1, Hs2, Hs1, !new_filenames_app.
  split; [by rewrite app_assoc|]. split; [set_solver|].
  split; [|split].
  - apply NoDup_app. split; [exact Hnd1|]. split; [|exact Hnd2].
    intros f Hf Hf'. apply (Hf2 f Hf'). rewrite Hs1. set_solver.
  - intros f Hf. apply elem_of_app in Hf as [Hf|Hf]; [by apply Hf1|].
    intros Hin. apply (Hf2 f Hf). rewrite Hs1. set_solver.
  - intros p Hp. apply elem_of_app in Hp as [Hp|Hp].
    + destruct (Ha1 p Hp) as (f & d & Hf & ->). exists f, d.
      split; [|done]. rewrite new_filenames_app. apply elem_of_app. by left.
    + destruct (Ha2 p Hp) as (f & d & Hf & ->). exists f, d.
      split; [|done]. rewrite new_filenames_app. apply elem_of_app. by right.
Qed.

Lemma extends_same (s s' : state) :
  trace s' = trace s -> seen_filenames s' = seen_filenames s -> extends s s'.
Proof.
  intros Ht Hs. destruct (extends_refl s) as (t & Ht' & Hs' & Hf).
  exists t. by rewrite Ht, Hs.
Qed.

(** Events that take no filename and attempt no download. *)
Lemma extends_quiet (s s' : state) (t : list event) :
  trace s' = trace s ++ t ->
  seen_filenames s' = seen_filenames s ->
  new_filenames t = [] ->
  (∀ p, EvAttempt p ∉ t) ->
  extends s s'.
Proof.
  intros Ht Hs Hn Ha. exists t. unfold fetches_once. rewrite Hn, Hs. simpl.
  split; [done|]. split; [set_solver|].
  split; [constructor|]. split; [set_solver|].
  intros p Hp. by destruct (Ha p).
Qed.

Lemma retry_loop_attempts (ph : photo) (path : string) (max_retries : Z)
    (attempts : list Z) (s : state) :
  ∃ t, trace (fst (retry_loop ph path max_retries attempts s)) = trace s ++ t
       ∧ seen_filenames (fst (retry_loop ph path max_retries attempts s))
         = seen_filenames s
       ∧ new_filenames t = []
       ∧ (∀ p, EvAttempt p ∈ t -> p = path).
Proof.
  revert s. induction attempts as [|a attempts IH]; intros s.
  - exists []. simpl. rewrite app_nil_r. repeat split. intros p Hp.
    inversion Hp.
  - cbn [retry_loop].
    assert (Hone : ∀ p, EvAttempt p ∈ [EvAttempt path] -> p = path).
    { intros p Hp. apply list_elem_of_singleton in Hp. congruence. }
    destruct (ph_download ph a) as [[]|[]].
    + exists [EvAttempt path]. done.
    + exists [EvAttempt path]. done.
    + simpl. destruct (a <? max_retries - 1).
      * destruct (IH (emit (EvSleep RETRY_DELAY) (emit (EvAttempt path) s)))
          as (t & -> & -> & Hn & Ha).
        exists ([EvAttempt path; EvSleep RETRY_DELAY] ++ t).
        simpl. rewrite <- !app_assoc. repeat split; [exact Hn|].
        intros p Hp. apply elem_of_cons in Hp as [Hp|Hp]; [congruence|].
        apply elem_of_cons in Hp as [Hp|Hp]; [discriminate|]. by apply Ha.
      * exists [EvAttempt path]. done.
Qed.

Lemma fetch_attempts (now : string) (filename : string) (ph : photo)
    (s : state) :
  ∃ t, trace (fst (fetch now filename ph s)) = trace s ++ t
       ∧ seen_filenames (fst (fetch now filename ph s)) = seen_filenames s
       ∧ new_filenames t = []
       ∧ (∀ p, EvAttempt p ∈ t -> ∃ d, p = output_path d filename).
Proof.
  unfold fetch.
  destruct (ph_created ph) as [created|].
  2:{ exists []. simpl. rewrite app_nil_r. repeat split.
      intros p Hp. inversion Hp. }
  destruct (file_exists_and_valid _ s).
  { exists []. simpl. rewrite app_nil_r. repeat split.
    intros p Hp. inversion Hp. }
  destruct (retry_loop_attempts ph (output_path created filename)
              RETRY_ATTEMPTS (range RETRY_ATTEMPTS) s)
    as (t & Ht & Hs & Hn & Ha).
  fold (download_photo_with_retry ph (output_path created filename)
          RETRY_ATTEMPTS s) in Ht, Hs.
  destruct (download_photo_with_retry _ _ _ s) as [s1 [success|e]];
    simpl in Ht, Hs.
  2:{ exists t. simpl. repeat split; try done.
      intros p Hp. exists created. by apply Ha. }
  destruct success;
    match goal with |- context [if ?c then _ else _] => destruct c end;
    simpl; rewrite Ht, Hs.
  all: first
    [ exists t; split; [reflexivity|]; split; [reflexivity|];
      split; [exact Hn|]; intros p Hp; exists created; by apply Ha
    | eexists (t ++ [_; _]); split; [by rewrite <- !app_assoc|];
      split; [reflexivity|];
      split; [by rewrite new_filenames_app, Hn|];
      intros p Hp; exists created;
      apply elem_of_app in Hp as [Hp|Hp]; [by apply Ha|];
      apply elem_of_cons in Hp as [Hp|Hp]; [discriminate|];
      apply list_elem_of_singleton in Hp; discriminate ].
Qed.

Lemma detect_cycling_extends (now : string) (filename : string)
    (ph : photo) (s : state) :
  extends s (fst (detect_cycling now filename ph s)).
Proof.
  unfold detect_cycling.
  destruct (bool_decide (filename ∈ seen_filenames s)) eqn:Hin.
  { match goal with |- context [if ?c then _ else _] => destruct c end;
      by apply extends_same. }
  apply bool_decide_eq_false in Hin.
  assert (Hnamed : ∀ t, new_filenames t = [] ->
            (∀ p, EvAttempt p ∈ t -> ∃ d, p = output_path d filename) ->
            fetches_once (seen_filenames s) (EvNew filename :: t)).
  { intros t Hn Ha. split; [|split].
    - simpl. rewrite Hn. apply NoDup_singleton.
    - simpl. rewrite Hn. intros f Hf.
      apply list_elem_of_singleton in Hf as ->. exact Hin.
    - intros p Hp. apply elem_of_cons in Hp as [Hp|Hp]; [discriminate|].
      destruct (Ha p Hp) as [d ->]. exists filename, d.
      split; [left|done]. }
  match goal with |- context [if ?c then _ else _] => destruct c end.
  - exists [EvNew filename]. simpl.
    split; [done|]. split; [set_solver|]. apply Hnamed; [done|].
    intros p Hp. inversion Hp.
  - match goal with |- context [fetch now filename ph ?x] =>
      destruct (fetch_attempts now filename ph x) as (t & Ht & Hs & Hn & Ha)
    end.
    exists (EvNew filename :: t). rewrite Ht, Hs. simpl. rewrite Hn.
    split; [by rewrite <- app_assoc|]. split; [set_solver|].
    by apply Hnamed.
Qed.

Lemma try_body_extends (cutoff : option Z) (now : string) (ph : photo)
    (s : state) :
  extends s (fst (try_body cutoff now ph s)).
Proof.
  unfold try_body.
  destruct (ph_filename ph) as [filename|e]; [|apply extends_refl].
  destruct cutoff as [cutoff_date|]; [|apply detect_cycling_extends].
  destruct (photo_date ph) as [d|].
  2:{ exact (detect_cycling_extends now filename ph
               (set_consecutive_old_photos 0 s)). }
  destruct (instant d <? cutoff_date).
  2:{ exact (detect_cycling_extends now filename ph
               (set_consecutive_old_photos 0 s)). }
  match goal with |- context [if ?c then _ else _] => destruct c end;
    by apply extends_same.
Qed.

Lemma checkpoints_extend (s : state) :
  extends s (checkpoint_index (checkpoint_progress s)).
Proof.
  eapply extends_quiet.
  - simpl. rewrite <- app_assoc. reflexivity.
  - reflexivity.
  - reflexivity.
  - intros p Hp. apply elem_of_cons in Hp as [Hp|Hp]; [discriminate|].
    apply list_elem_of_singleton in Hp. discriminate.
Qed.

Lemma loop_extends (cutoff : option Z) (now : string) (start_idx : Z)
    (album : list iteration) (s : state) :
  extends s (fst (loop cutoff now start_idx album s)).
Proof.
  revert s. induction album as [|it album IH]; intros s;
    [apply extends_refl|].
  destruct it as [ph|e]; [|apply extends_refl]. cbn [loop].
  set (s0 := set_photo_num (photo_num s + 1) s).
  assert (H0 : extends s s0) by (by apply extends_same).
  destruct (photo_num s0 <=? start_idx).
  { exact (extends_trans _ _ _ H0 (IH s0)). }
  pose proof (try_body_extends cutoff now ph s0) as H1.
  destruct (try_body cutoff now ph s0) as [s1 [| |[]]]; simpl in H1.
  - exact (extends_trans _ _ _ H1 (IH s1)).
  - exact H1.
  - exact (extends_trans _ _ _ H1 (checkpoints_extend s1)).
  - apply (extends_trans _ s1); [exact H1|].
    apply (extends_trans _ (set_counts (incr_failed (counts s1)) s1));
      [by apply extends_same | apply IH].
Qed.

Lemma final_saves_extend (s : state) :
  extends s (final_index (checkpoint_progress s)).
Proof.
  eapply extends_quiet.
  - simpl. rewrite <- app_assoc. reflexivity.
  - reflexivity.
  - reflexivity.
  - intros p Hp. apply elem_of_cons in Hp as [Hp|Hp]; [discriminate|].
    apply list_elem_of_singleton in Hp. discriminate.
Qed.

Lemma save_progress_extends (s : state) : extends s (save_progress s).
Proof.
  eapply extends_quiet; [reflexivity..|].
  intros p Hp. apply list_elem_of_singleton in Hp. discriminate.
Qed.

(** A run of smart_download.py takes no filename twice and none that the
    index file lists; it attempts downloads for the filenames it takes
    only.  So a filename in the index is never fetched again, whether or
    not its file was ever downloaded. *)
Theorem each_filename_fetched_once (e : env) (w : world) :
  let tr := r_trace (main e w) in
  NoDup (new_filenames tr)
  ∧ (∀ f, f ∈ new_filenames tr ->
          f ∉ set_of (filenames (load_index (now e) (w_index w))))
  ∧ (∀ p, EvAttempt p ∈ tr ->
          ∃ f d, f ∈ new_filenames tr ∧ p = output_path d f).
Proof.
  cbv zeta. unfold main.
  destruct (authenticated e); cbn [negb].
  2:{ simpl. split; [constructor|]. split; intros ? H; inversion H. }
  pose proof (loop_extends (recent e) (now e)
                (last_index (progress (initial_state e w)))
                (photos_album e) (initial_state e w)) as H1.
  destruct (loop _ _ _ _ (initial_state e w)) as [s1 [| |code|[]]];
    simpl in H1.
  1,2: pose proof (extends_trans _ _ _ H1 (final_saves_extend s1)) as H2.
  3,4: pose proof H1 as H2.
  5: pose proof (extends_trans _ _ _ H1 (save_progress_extends s1)) as H2.
  all: destruct H2 as (t & Ht & _ & Hf);
    cbn beta iota; unfold finish; cbn [r_trace]; rewrite Ht; exact Hf.
Qed.

End Fetch_once.

(** * The index documents *)

Section Index_documents.
Import Observations.

#[local] Set Warnings "-clear-no-such-hyp".





End Index_documents.

Section Built_index.
Import Build_icloud_index Observations.

#[local] Set Warnings "-clear-no-such-hyp".



End Built_index.

Section Download_index.
Import Smart_download Observations.

#[local] Set Warnings "-clear-no-such-hyp".













End Download_index.


(** * Photos smart_download.py does not fetch *)

Section Unfetched.
Import Smart_download Observations.

#[local] Set Warnings "-clear-no-such-hyp".

(** One iteration of the loop past the resume point, by the way its
    [try] body ends. *)
Lemma loop_step (cutoff : option Z) (now : string) (start_idx : Z)
    (ph : photo) (rest : list iteration) (s s1 : state) (b : body_end) :
  start_idx <= photo_num s ->
  try_body cutoff now ph (set_photo_num (photo_num s + 1) s) = (s1, b) ->
  loop cutoff now start_idx (Yield ph :: rest) s
  = match b with
    | Next => loop cutoff now start_idx rest s1
    | Break => (s1, Broke)
    | Raised KeyboardInterrupt =>
        (checkpoint_index (checkpoint_progress s1), SysExit 0)
    | Raised Exception =>
        loop cutoff now start_idx rest (set_counts (incr_failed (counts s1)) s1)
    end.
Proof.
  intros Hidx Hbody. cbn [loop].
  replace (photo_num (set_photo_num (photo_num s + 1) s) <=? start_idx)
    with false by (symmetry; apply Z.leb_gt; simpl; lia).
  rewrite Hbody. by destruct b as [| |[]].
Qed.

(** A photo without creation date whose filename is new: the body
    raises at [created.strftime], after the filename was indexed; the
    handler counts a failure, no download is attempted, no entry is
    appended to the failed list, and the filename is not downloaded in
    the rest of the run. *)
Theorem undated_photo_fails_unlisted (cutoff : option Z) (now : string)
    (start_idx : Z) (ph : photo) (filename : string)
    (rest : list iteration) (s : state) :
  ph_filename ph = Ok filename ->
  passes_cutoff cutoff ph ->
  filename ∉ seen_filenames s ->
  filename ∉ downloaded_set s ->
  ph_created ph = None ->
  start_idx <= photo_num s ->
  ∃ s', loop cutoff now start_idx (Yield ph :: rest) s
        = loop cutoff now start_idx rest s'
        ∧ photo_num s' = photo_num s + 1
        ∧ counts s' = incr_failed (counts s)
        ∧ progress s' = progress s
        ∧ trace s' = trace s ++ [EvNew filename]
        ∧ files s' = files s
        ∧ filename ∈ seen_filenames s'
        ∧ filename ∉ downloaded_set
                       (fst (loop cutoff now start_idx rest s')).
Proof.
  intros Hname Hcut Hseen Hdl Hcreated Hidx.
  destruct (try_body_passes cutoff now ph filename
              (set_photo_num (photo_num s + 1) s) Hname Hcut)
    as (s0 & E0 & T0 & C0 & P0 & D0 & S0 & F0 & N0).
  simpl in T0, C0, P0, D0, S0, F0, N0.
  destruct (detect_cycling_new now ph filename s0)
    as (s1 & E1 & T1 & C1 & P1 & D1 & S1 & F1 & N1);
    [by rewrite S0 | by rewrite D0 |].
  assert (Hbody : try_body cutoff now ph (set_photo_num (photo_num s + 1) s)
                  = (s1, Raised Exception)).
  { rewrite E0, E1. unfold fetch. by rewrite Hcreated. }
  rewrite (loop_step _ _ _ _ _ _ _ _ Hidx Hbody).
  eexists. split; [reflexivity|]. simpl.
  rewrite N1, N0, C1, C0, P1, P0, T1, T0, F1, F0, S1.
  repeat split; [set_solver|].
  apply loop_held_back. split; simpl.
  - rewrite S1. set_solver.
  - by rewrite D1, D0.
Qed.

(** A photo with a new filename that the progress file lists as
    downloaded, or whose file is on disk: it is counted as skipped and
    kept in the downloaded set, and no download is attempted, whatever
    the file on disk holds. *)
Theorem known_file_not_fetched (cutoff : option Z) (now : string)
    (start_idx : Z) (ph : photo) (filename : string)
    (rest : list iteration) (s : state) :
  ph_filename ph = Ok filename ->
  passes_cutoff cutoff ph ->
  filename ∉ seen_filenames s ->
  known_file filename ph s ->
  start_idx <= photo_num s ->
  ∃ s', loop cutoff now start_idx (Yield ph :: rest) s
        = loop cutoff now start_idx rest s'
        ∧ photo_num s' = photo_num s + 1
        ∧ counts s' = incr_skipped (counts s)
        ∧ progress s' = progress s
        ∧ trace s' = trace s ++ [EvNew filename]
        ∧ files s' = files s
        ∧ downloaded_set s' = {[filename]} ∪ downloaded_set s.
Proof.
  intros Hname Hcut Hseen Hknown Hidx.
  destruct (try_body_passes cutoff now ph filename
              (set_photo_num (photo_num s + 1) s) Hname Hcut)
    as (s0 & E0 & T0 & C0 & P0 & D0 & S0 & F0 & N0).
  simpl in T0, C0, P0, D0, S0, F0, N0.
  destruct (decide (filename ∈ downloaded_set s)) as [Hdl|Hdl].
  - assert (Hbody : ∃ s1,
              try_body cutoff now ph (set_photo_num (photo_num s + 1) s)
              = (s1, Next)
              ∧ photo_num s1 = photo_num s0
              ∧ counts s1 = incr_skipped (counts s0)
              ∧ progress s1 = progress s0
              ∧ trace s1 = trace s0 ++ [EvNew filename]
              ∧ files s1 = files s0
              ∧ downloaded_set s1 = downloaded_set s0).
    { rewrite E0. unfold detect_cycling.
      rewrite bool_decide_eq_false_2 by (by rewrite S0).
      match goal with |- context [bool_decide ?P] =>
        rewrite (bool_decide_eq_true_2 P) by (simpl; by rewrite D0) end.
      eexists. split; [reflexivity|]. by repeat split. }
    destruct Hbody as (s1 & Hbody & N1 & C1 & P1 & T1 & F1 & D1).
    rewrite (loop_step _ _ _ _ _ _ _ _ Hidx Hbody).
    exists s1. split; [reflexivity|].
    rewrite N1, N0, C1, C0, P1, P0, T1, T0, F1, F0, D1, D0.
    repeat split. set_solver.
  - destruct Hknown as [Hin|(d & Hcreated & Hdisk)]; [done|].
    destruct (detect_cycling_new now ph filename s0)
      as (s1 & E1 & T1 & C1 & P1 & D1 & S1 & F1 & N1);
      [by rewrite S0 | by rewrite D0 |].
    assert (Hbody : ∃ s2,
              try_body cutoff now ph (set_photo_num (photo_num s + 1) s)
              = (s2, Next)
              ∧ photo_num s2 = photo_num s1
              ∧ counts s2 = incr_skipped (counts s1)
              ∧ progress s2 = progress s1
              ∧ trace s2 = trace s1
              ∧ files s2 = files s1
              ∧ downloaded_set s2 = {[filename]} ∪ downloaded_set s1).
    { rewrite E0, E1. unfold fetch. rewrite Hcreated.
      unfold file_exists_and_valid.
      rewrite bool_decide_eq_true_2 by (by rewrite F1, F0).
      eexists. split; [reflexivity|]. by repeat split. }
    destruct Hbody as (s2 & Hbody & N2 & C2 & P2 & T2 & F2 & D2).
    rewrite (loop_step _ _ _ _ _ _ _ _ Hidx Hbody).
    exists s2. split; [reflexivity|].
    by rewrite N2, N1, N0, C2, C1, C0, P2, P1, P0, T2, T1, T0, F2, F1, F0,
      D2, D1, D0.
Qed.

(** One iteration on a photo older than the cutoff. *)
Lemma loop_step_old (cutoff_date : Z) (now : string) (start_idx : Z)
    (ph : photo) (rest : list iteration) (s : state) :
  older cutoff_date ph ->
  start_idx <= photo_num s ->
  ∃ s', loop (Some cutoff_date) now start_idx (Yield ph :: rest) s
        = (if MAX_CONSECUTIVE_OLD <=? consecutive_old_photos s + 1
           then (s', Broke)
           else loop (Some cutoff_date) now start_idx rest s')
        ∧ photo_num s' = photo_num s + 1
        ∧ skipped_by_date s' = skipped_by_date s + 1
        ∧ consecutive_old_photos s' = consecutive_old_photos s + 1
        ∧ trace s' = trace s ∧ files s' = files s ∧ counts s' = counts s
        ∧ downloaded_set s' = downloaded_set s
        ∧ indexed_filenames s' = indexed_filenames s.
Proof.
  intros [[f Hname] (d & Hdate & Hold)] Hidx.
  assert (Hbody : ∃ s',
            try_body (Some cutoff_date) now ph
              (set_photo_num (photo_num s + 1) s)
            = (s', if MAX_CONSECUTIVE_OLD <=? consecutive_old_photos s + 1
                   then Break else Next)
            ∧ photo_num s' = photo_num s + 1
            ∧ skipped_by_date s' = skipped_by_date s + 1
            ∧ consecutive_old_photos s' = consecutive_old_photos s + 1
            ∧ trace s' = trace s ∧ files s' = files s ∧ counts s' = counts s
            ∧ downloaded_set s' = downloaded_set s
            ∧ indexed_filenames s' = indexed_filenames s).
  { unfold try_body. rewrite Hname, Hdate.
    replace (instant d <? cutoff_date) with true
      by (symmetry; apply Z.ltb_lt; exact Hold).
    cbn [consecutive_old_photos set_consecutive_old_photos
         set_skipped_by_date set_photo_num].
    eexists. split.
    - destruct (MAX_CONSECUTIVE_OLD <=? consecutive_old_photos s + 1);
        reflexivity.
    - by repeat split. }
  destruct Hbody as (s' & Hbody & H).
  exists s'. split; [|exact H].
  rewrite (loop_step _ _ _ _ _ _ _ _ Hidx Hbody).
  by destruct (MAX_CONSECUTIVE_OLD <=? consecutive_old_photos s + 1).
Qed.

Lemma loop_old (cutoff_date : Z) (now : string) (start_idx : Z)
    (phs : list photo) :
  Forall (older cutoff_date) phs ->
  ∀ s : state,
    start_idx <= photo_num s ->
    0 <= consecutive_old_photos s < MAX_CONSECUTIVE_OLD ->
    let n := Z.min (Z.of_nat (length phs))
               (MAX_CONSECUTIVE_OLD - consecutive_old_photos s) in
    ∃ s', loop (Some cutoff_date) now start_idx (map Yield phs) s
          = (s', if MAX_CONSECUTIVE_OLD
                    <=? consecutive_old_photos s + Z.of_nat (length phs)
                 then Broke else Exhausted)
          ∧ photo_num s' = photo_num s + n
          ∧ skipped_by_date s' = skipped_by_date s + n
          ∧ trace s' = trace s ∧ files s' = files s ∧ counts s' = counts s
          ∧ downloaded_set s' = downloaded_set s
          ∧ indexed_filenames s' = indexed_filenames s.
Proof.
  induction 1 as [|ph phs Hph Hrest IH]; intros s Hidx Hc n.
  - exists s. subst n. cbn [map loop length].
    replace (MAX_CONSECUTIVE_OLD <=? consecutive_old_photos s + Z.of_nat 0)
      with false by (symmetry; apply Z.leb_gt; lia).
    repeat split; lia.
  - cbn [map].
    destruct (loop_step_old cutoff_date now start_idx ph (map Yield phs) s
                Hph Hidx)
      as (s1 & -> & N1 & K1 & O1 & T1 & F1 & C1 & D1 & I1).
    destruct (MAX_CONSECUTIVE_OLD <=? consecutive_old_photos s + 1) eqn:E.
    + apply Z.leb_le in E. exists s1. subst n. cbn [length].
      replace (MAX_CONSECUTIVE_OLD
               <=? consecutive_old_photos s + Z.of_nat (S (length phs)))
        with true by (symmetry; apply Z.leb_le; lia).
      repeat split; try done; lia.
    + apply Z.leb_gt in E.
      destruct (IH s1) as (s' & Hloop & N & K & T & F & C & D & I);
        [lia | lia |].
      exists s'. subst n. cbn [length]. rewrite Hloop, O1.
      replace (consecutive_old_photos s + 1 + Z.of_nat (length phs))
        with (consecutive_old_photos s + Z.of_nat (S (length phs))) by lia.
      split; [reflexivity|].
      rewrite N, K, T, F, C, D, I, N1, K1, O1, T1, F1, C1, D1, I1.
      repeat split; lia.
Qed.

(** With [--recent], on photos that are all older than the cutoff, the
    loop stops on the photo that makes [MAX_CONSECUTIVE_OLD] = 100 of
    them in a row, and on fewer it reads them all; either way it
    downloads nothing, indexes nothing and changes no counter of the
    progress file. *)
Theorem recent_stops_on_old_photos (cutoff_date : Z) (now : string)
    (start_idx : Z) (phs : list photo) (s : state) :
  Forall (older cutoff_date) phs ->
  start_idx <= photo_num s ->
  consecutive_old_photos s = 0 ->
  let n := Z.min (Z.of_nat (length phs)) 100 in
  ∃ s', loop (Some cutoff_date) now start_idx (map Yield phs) s
        = (s', if 100 <=? Z.of_nat (length phs) then Broke else Exhausted)
        ∧ photo_num s' = photo_num s + n
        ∧ skipped_by_date s' = skipped_by_date s + n
        ∧ trace s' = trace s ∧ files s' = files s ∧ counts s' = counts s
        ∧ downloaded_set s' = downloaded_set s
        ∧ indexed_filenames s' = indexed_filenames s.
Proof.
  intros Hold Hidx Hc n.
  destruct (loop_old cutoff_date now start_idx phs Hold s Hidx)
    as (s' & Hloop & H); [rewrite Hc; unfold MAX_CONSECUTIVE_OLD; lia|].
  rewrite Hc in Hloop, H. unfold MAX_CONSECUTIVE_OLD in Hloop, H.
  rewrite Z.add_0_l in Hloop. rewrite Z.sub_0_r in H.
  exists s'. split; [exact Hloop | exact H].
Qed.

End Unfetched.

(** A photo without creation date, met first in an empty backup. *)
Lemma undated_photo_fails_unlisted_witness :
  ∃ s', Smart_download.loop None "2026-11-04T08:00:00"%string 0
          [Smart_download.Yield Scenarios.Unfetched.undated]
          Scenarios.Download.start = (s', Smart_download.Exhausted)
        ∧ Smart_download.failed (Smart_download.counts s') = 1
        ∧ Smart_download.failed_files (Smart_download.progress s') = []
        ∧ Smart_download.trace s' = [Smart_download.EvNew "u.jpg"%string].
Proof.
  destruct (undated_photo_fails_unlisted None "2026-11-04T08:00:00"%string 0
              Scenarios.Unfetched.undated "u.jpg"%string []
              Scenarios.Download.start)
    as (s' & Hloop & _ & HC & HP & HT & _).
  - reflexivity.
  - exact I.
  - apply not_elem_of_empty.
  - apply not_elem_of_empty.
  - reflexivity.
  - simpl. lia.
  - exists s'. split; [exact Hloop|]. rewrite HC, HP, HT. by vm_compute.
Defined.

(** A photo whose file is on disk. *)
Lemma known_file_not_fetched_witness :
  let s := Smart_download.initial_state
             {| Smart_download.recent := None;
                Smart_download.now := "2026-11-04T08:00:00"%string;
                Smart_download.authenticated := true;
                Smart_download.photos_album := [] |}
             Scenarios.Download.on_disk in
  ∃ s', Smart_download.loop None "2026-11-04T08:00:00"%string 0
          [Smart_download.Yield
             (Scenarios.Download.shot "x.jpg" Scenarios.Download.succeeds)] s
        = (s', Smart_download.Exhausted)
        ∧ Smart_download.skipped (Smart_download.counts s') = 1
        ∧ Smart_download.trace s' = [Smart_download.EvNew "x.jpg"%string].
Proof.
  cbv zeta.
  destruct (known_file_not_fetched None "2026-11-04T08:00:00"%string 0
              (Scenarios.Download.shot "x.jpg" Scenarios.Download.succeeds)
              "x.jpg"%string []
              (Smart_download.initial_state
                 {| Smart_download.recent := None;
                    Smart_download.now := "2026-11-04T08:00:00"%string;
                    Smart_download.authenticated := true;
                    Smart_download.photos_album := [] |}
                 Scenarios.Download.on_disk))
    as (s' & Hloop & _ & HC & _ & HT & _).
  - reflexivity.
  - exact I.
  - apply not_elem_of_empty.
  - right. exists Scenarios.Download.jan_2024. split; [reflexivity|].
    vm_compute. reflexivity.
  - simpl. lia.
  - exists s'. split; [exact Hloop|]. rewrite HC, HT. by vm_compute.
Defined.

(** 120 photos of January 2024 with a cutoff in October 2026: the loop
    stops on the 100th. *)
Lemma recent_stops_on_old_photos_witness :
  ∃ s', Smart_download.loop (Some Scenarios.Unfetched.cutoff_date)
          "2026-11-04T08:00:00"%string 0
          (map Smart_download.Yield Scenarios.Unfetched.old_album)
          Scenarios.Download.start = (s', Smart_download.Broke)
        ∧ Smart_download.photo_num s' = 100
        ∧ Smart_download.trace s' = [].
Proof.
  destruct (recent_stops_on_old_photos Scenarios.Unfetched.cutoff_date
              "2026-11-04T08:00:00"%string 0
              Scenarios.Unfetched.old_album Scenarios.Download.start)
    as (s' & Hloop & HN & _ & HT & _).
  - apply Forall_replicate. split; [by eexists|].
    exists Scenarios.Download.jan_2024. split; [reflexivity|].
    vm_compute. reflexivity.
  - simpl. lia.
  - reflexivity.
  - exists s'. split; [exact Hloop|]. split; [exact HN | exact HT].
Defined.
